(** * TellStore: delta-main compaction, snapshot handling and the page stack

    A shallow embedding of the parts of TellStore that the specification
    talks about:

    - [FixedSizeStack]   util/FixedSizeStack.hpp, as a machine of atomic
                         steps interleaved by a schedule;
    - [Server]           ServerSocket::handleSnapshot;
    - [Revert]           the read path and revert of a delta chain;
    - [ColumnMap]        ColumnMapPageModifier (needsCleaning, processUpdates,
                         clean, flush, flushFillPage).

    Machine integers are [Z] with the wrap-around written out. *)

From stdpp Require Import base numbers list option sorting gmap.

Local Open Scope Z_scope.

(** ** Machine words *)

Definition wrap64 (z : Z) : Z := z mod 2 ^ 64.
Definition wrap32 (z : Z) : Z := z mod 2 ^ 32.

Lemma wrap64_small z : 0 ≤ z < 2 ^ 64 → wrap64 z = z.
Proof. intros H. unfold wrap64. by rewrite Z.mod_small. Qed.

Lemma wrap32_small z : 0 ≤ z < 2 ^ 32 → wrap32 z = z.
Proof. intros H. unfold wrap32. by rewrite Z.mod_small. Qed.

(** ** util/FixedSizeStack.hpp *)

Module FixedSizeStack.

(** The element type [T] is a pointer of at most 8 bytes; [nullptr] is 0. *)
Definition nullptr : Z := 0.

(** The three members of the class.  [mHead] and [mWriteHead] are
    [std::atomic<size_t>]. *)
Record Stack := mkStack {
  mVec : list Z;
  mHead : Z;
  mWriteHead : Z
}.

(** [mVec.size()] *)
Definition size (s : Stack) : Z := Z.of_nat (length (mVec s)).

(** [FixedSizeStack(size_t size)] *)
Definition create (n : nat) : Stack :=
  {| mVec := replicate n nullptr; mHead := 0; mWriteHead := 0 |}.

(** What a finished call has returned. *)
Inductive Event :=
| EvPop (ok : bool) (result : Z)
| EvPush (element : Z) (ok : bool)
| EvEmpty (ret : bool).

(** The calls a thread makes. *)
Inductive Op := OpPop | OpPush (element : Z) | OpEmpty.

(** Where a thread stands inside [pop], [push] or [empty]: one constructor
    per access to an atomic or to [mVec], with the locals that are live. *)
Inductive Pc :=
| Idle
| PopLoad                               (* auto head = mHead.load() *)
| PopRead (head : Z)                    (* result = mVec[head - 1] *)
| PopCas (head result : Z)              (* mHead.compare_exchange_strong(head, head - 1) *)
| PushLoad (element : Z)                (* auto wHead = mWriteHead.load() *)
| PushCas (element wHead : Z)           (* mWriteHead.compare_exchange_strong(wHead, wHead + 1) *)
| PushStore (element wHead : Z)         (* mVec[wHead] = element *)
| PushHead (element wHead : Z)          (* head = mHead.load(), then the loop test *)
| PushInc (element wHead : Z)           (* ++mHead *)
| EmptyLoad.                            (* mHead == mVec.size() *)

Definition begin (o : Op) : Pc :=
  match o with
  | OpPop => PopLoad
  | OpPush e => PushLoad e
  | OpEmpty => EmptyLoad
  end.

(** One atomic step of one thread: the new shared state, the new position
    and the event when the call returns. *)
Definition step (s : Stack) (pc : Pc) : Stack * Pc * option Event :=
  match pc with
  | Idle => (s, Idle, None)
  | PopLoad =>
      let head := mHead s in
      if head =? 0 then (s, Idle, Some (EvPop false nullptr))
      else (s, PopRead head, None)
  | PopRead head =>
      (s, PopCas head (default nullptr (mVec s !! Z.to_nat (head - 1))), None)
  | PopCas head result =>
      if mHead s =? head
      then (mkStack (mVec s) (wrap64 (head - 1)) (mWriteHead s), Idle,
            Some (EvPop true result))
      else (s, PopLoad, None)
  | PushLoad e =>
      let wHead := mWriteHead s in
      if wHead =? size s then (s, Idle, Some (EvPush e false))
      else (s, PushCas e wHead, None)
  | PushCas e wHead =>
      if mWriteHead s =? wHead
      then (mkStack (mVec s) (mHead s) (wrap64 (wHead + 1)), PushStore e wHead, None)
      else (s, PushLoad e, None)
  | PushStore e wHead =>
      (mkStack (<[Z.to_nat wHead := e]> (mVec s)) (mHead s) (mWriteHead s),
       PushHead e wHead, None)
  | PushHead e wHead =>
      let head := mHead s in
      if head <=? wHead
      then (if head =? wHead then (s, PushInc e wHead, None)
            else (s, PushHead e wHead, None))
      else (s, Idle, Some (EvPush e true))
  | PushInc e wHead =>
      (mkStack (mVec s) (wrap64 (mHead s + 1)) (mWriteHead s), PushHead e wHead, None)
  | EmptyLoad =>
      (s, Idle, Some (EvEmpty (mHead s =? size s)))
  end.

(** A thread: its position, the calls it still makes, what its finished
    calls returned (newest first). *)
Record Thread := mkThread {
  pc : Pc;
  todo : list Op;
  log : list Event
}.

Definition thread_step (s : Stack) (t : Thread) : Stack * Thread :=
  match pc t with
  | Idle =>
      match todo t with
      | [] => (s, t)
      | o :: os => (s, mkThread (begin o) os (log t))
      end
  | p =>
      match step s p with
      | (s', p', Some ev) => (s', mkThread p' (todo t) (ev :: log t))
      | (s', p', None) => (s', mkThread p' (todo t) (log t))
      end
  end.

Record System := mkSystem {
  shared : Stack;
  threads : list Thread
}.

(** The scheduler picks thread [i] for one step. *)
Definition sys_step (i : nat) (σ : System) : System :=
  match threads σ !! i with
  | None => σ
  | Some t =>
      let '(s', t') := thread_step (shared σ) t in
      mkSystem s' (<[i := t']> (threads σ))
  end.

Definition run (sched : list nat) (σ : System) : System :=
  foldl (λ σ i, sys_step i σ) σ sched.

Definition init (n : nat) (progs : list (list Op)) : System :=
  mkSystem (create n) (map (λ p, mkThread Idle p []) progs).

(** A single thread that runs its calls one after the other, for [fuel]
    steps. *)
Definition run_seq (fuel : nat) (s : Stack) (ops : list Op) : System :=
  run (replicate fuel 0%nat) (mkSystem s [mkThread Idle ops []]).

Definition is_push_ok (ev : Event) : bool :=
  match ev with EvPush _ true => true | _ => false end.

(** Pushes of one thread that have returned true. *)
Definition pushed (t : Thread) : nat := length (List.filter is_push_ok (log t)).

(** A thread between the successful CAS on [mWriteHead] and its return. *)
Definition claimed (p : Pc) : nat :=
  match p with
  | PushStore _ _ | PushHead _ _ | PushInc _ _ => 1
  | _ => 0
  end.

Definition pushes_succeeded (σ : System) : nat :=
  sum_list (map pushed (threads σ)).

Definition slots_taken (ts : list Thread) : nat :=
  sum_list (map (λ t, pushed t + claimed (pc t))%nat ts).

(** *** Invariant of the write head *)

(** What every reachable system of capacity [n] satisfies: the vector keeps
    its size, the write head counts the pushes that have claimed a slot, and
    a thread about to CAS the write head holds a value that was not the
    size. *)
Definition pc_ok (n : nat) (p : Pc) : Prop :=
  match p with
  | PushCas _ wHead => wHead ≠ Z.of_nat n
  | _ => True
  end.

Record Inv (n : nat) (σ : System) : Prop := mkInv {
  inv_size : length (mVec (shared σ)) = n;
  inv_taken : Z.of_nat (slots_taken (threads σ)) = mWriteHead (shared σ);
  inv_bound : mWriteHead (shared σ) ≤ Z.of_nat n;
  inv_pcs : Forall (λ t, pc_ok n (pc t)) (threads σ)
}.

Definition weight (t : Thread) : nat := (pushed t + claimed (pc t))%nat.

Lemma slots_taken_insert ts i t t' :
  ts !! i = Some t →
  (slots_taken (<[i := t']> ts) + weight t = slots_taken ts + weight t')%nat.
Proof.
  unfold slots_taken. fold weight.
  revert i. induction ts as [|a ts IH]; intros [|i] Hi; simplify_eq/=.
  - lia.
  - specialize (IH _ Hi). lia.
Qed.

Lemma pushed_le_slots ts :
  (sum_list (map pushed ts) ≤ slots_taken ts)%nat.
Proof.
  unfold slots_taken. induction ts as [|a ts IH]; simpl; lia.
Qed.

(** One step of one thread, seen from the write head. *)
Lemma thread_step_spec n s t s' t' :
  Z.of_nat n < 2 ^ 64 →
  length (mVec s) = n →
  0 ≤ mWriteHead s ≤ Z.of_nat n →
  pc_ok n (pc t) →
  thread_step s t = (s', t') →
  length (mVec s') = n ∧
  pc_ok n (pc t') ∧
  mWriteHead s ≤ mWriteHead s' ≤ Z.of_nat n ∧
  mWriteHead s' + Z.of_nat (weight t) = mWriteHead s + Z.of_nat (weight t').
Proof.
  intros Hn Hlen Hw Hpc Hstep.
  destruct t as [p td lg]. unfold thread_step in Hstep. simpl in *.
  unfold weight, pushed. simpl.
  destruct p; simpl in *.
  - destruct td as [|o os]; simplify_eq/=; [by repeat split; try lia|].
    destruct o; simpl; repeat split; try done; lia.
  - destruct (mHead s =? 0); simplify_eq/=; repeat split; try done; lia.
  - simplify_eq/=. repeat split; try done; lia.
  - destruct (mHead s =? head); simplify_eq/=; repeat split; try done; lia.
  - unfold size in Hstep. rewrite Hlen in Hstep.
    destruct (mWriteHead s =? Z.of_nat n) eqn:E; simplify_eq/=.
    + repeat split; try done; lia.
    + apply Z.eqb_neq in E. repeat split; try done; lia.
  - destruct (mWriteHead s =? wHead) eqn:E; simplify_eq/=.
    + apply Z.eqb_eq in E. subst wHead.
      rewrite wrap64_small by lia. repeat split; try done; lia.
    + repeat split; try done; lia.
  - simplify_eq/=. rewrite length_insert. repeat split; try done; lia.
  - destruct (mHead s <=? wHead); [destruct (mHead s =? wHead)|];
      simplify_eq/=; repeat split; try done; lia.
  - simplify_eq/=. repeat split; try done; lia.
  - simplify_eq/=. repeat split; try done; lia.
Qed.

Lemma init_inv n progs : Inv n (init n progs).
Proof.
  split; simpl.
  - by rewrite length_replicate.
  - assert (slots_taken (map (λ p, mkThread Idle p []) progs) = 0%nat) as ->; [|done].
    unfold slots_taken. induction progs as [|p ps IH]; simpl; [done|].
    by rewrite IH.
  - lia.
  - induction progs; constructor; simpl; done.
Qed.

Lemma sys_step_inv n i σ :
  Z.of_nat n < 2 ^ 64 →
  Inv n σ →
  Inv n (sys_step i σ) ∧ mWriteHead (shared σ) ≤ mWriteHead (shared (sys_step i σ)).
Proof.
  intros Hn [Hsz Htk Hbd Hpcs]. unfold sys_step.
  destruct (threads σ !! i) as [t|] eqn:Hi; [|by split].
  destruct (thread_step (shared σ) t) as [s' t'] eqn:Hst. simpl.
  assert (pc_ok n (pc t)) as Hpc.
  { rewrite Forall_lookup in Hpcs. by eapply Hpcs. }
  assert (0 ≤ mWriteHead (shared σ)) as H0 by (rewrite <- Htk; lia).
  destruct (thread_step_spec n _ _ _ _ Hn Hsz (conj H0 Hbd) Hpc Hst)
    as (Hsz' & Hpc' & [Hmono Hbd'] & Heq).
  pose proof (slots_taken_insert _ _ _ t' Hi) as Hins.
  assert (weight t ≤ slots_taken (threads σ))%nat as Hle.
  { unfold slots_taken. fold weight. clear -Hi.
    revert i Hi. induction (threads σ) as [|a ts IH]; intros [|i] Hi;
      simplify_eq/=; [lia|]. specialize (IH _ Hi). lia. }
  split; [split; simpl|]; try done.
  - lia.
  - by apply Forall_insert.
Qed.

Lemma run_inv n sched σ :
  Z.of_nat n < 2 ^ 64 →
  Inv n σ →
  Inv n (run sched σ) ∧ mWriteHead (shared σ) ≤ mWriteHead (shared (run sched σ)).
Proof.
  intros Hn. revert σ. induction sched as [|i sched IH]; intros σ HI; simpl.
  - by split.
  - destruct (sys_step_inv n i σ Hn HI) as [HI' Hle].
    destruct (IH _ HI') as [HI'' Hle']. split; [done|].
    unfold run in *. lia.
Qed.

Lemma run_app s1 s2 σ : run (s1 ++ s2) σ = run s2 (run s1 σ).
Proof. unfold run. by rewrite foldl_app. Qed.

Lemma inv_pushes_le n σ : Inv n σ → (pushes_succeeded σ ≤ n)%nat.
Proof.
  intros [_ Htk Hbd _]. unfold pushes_succeeded.
  pose proof (pushed_le_slots (threads σ)). lia.
Qed.

Lemma inv_full n σ :
  Inv n σ → pushes_succeeded σ = n → mWriteHead (shared σ) = Z.of_nat n.
Proof.
  intros [_ Htk Hbd _] Hp. unfold pushes_succeeded in Hp.
  pose proof (pushed_le_slots (threads σ)). lia.
Qed.

(** What the last finished call of the single thread returned. *)
Definition returned (σ : System) : list Event :=
  match threads σ with
  | t :: _ => rev (log t)
  | [] => []
  end.

(** [empty()] answers whether the head stands at the capacity, whatever the
    number of elements. *)
Lemma empty_compares_with_size s :
  step s EmptyLoad = (s, Idle, Some (EvEmpty (mHead s =? size s))).
Proof. reflexivity. Qed.

(** [pop] fails exactly when the head is zero. *)
Lemma pop_fails_iff_head_zero s :
  (∃ r, step s PopLoad = (s, Idle, Some (EvPop false r))) ↔ mHead s = 0.
Proof.
  simpl. split.
  - intros [r Hr]. destruct (mHead s =? 0) eqn:E; [by apply Z.eqb_eq|done].
  - intros ->. simpl. by eexists.
Qed.

(** C9 (the code at the failing input).  On a fresh stack of capacity 1,
    which holds no element, [empty()] returns false and the [pop] that
    follows fails; after one [push] the stack holds an element, [empty()]
    returns true and [pop] succeeds. *)
Theorem empty_is_true_when_full_not_when_empty :
  returned (run_seq 4 (create 1) [OpEmpty; OpPop])
    = [EvEmpty false; EvPop false nullptr] ∧
  returned (run_seq 13 (create 1) [OpPush 7; OpEmpty; OpPop])
    = [EvPush 7 true; EvEmpty true; EvPop true 7].
Proof. split; vm_compute; reflexivity. Qed.

(** C10.  A stack built with capacity [n], used by any number of threads
    under any schedule: at most [n] pushes ever return true; the write head
    never decreases; and once [n] pushes have returned true the write head
    stands at the capacity for good, so that every push that starts later
    returns false, whatever has been popped in between. *)
Theorem at_most_capacity_pushes_succeed (n : nat) (progs : list (list Op))
    (sched : list nat) :
  Z.of_nat n < 2 ^ 64 →
  let σ := run sched (init n progs) in
  (pushes_succeeded σ ≤ n)%nat ∧
  (∀ later, mWriteHead (shared σ) ≤ mWriteHead (shared (run later σ))) ∧
  (pushes_succeeded σ = n →
   ∀ later e,
     let s := shared (run later σ) in
     step s (PushLoad e) = (s, Idle, Some (EvPush e false))).
Proof.
  intros Hn σ.
  destruct (run_inv n sched _ Hn (init_inv n progs)) as [HI _]. fold σ in HI.
  split; [by eapply inv_pushes_le|]. split.
  - intros later. by apply (run_inv n later σ Hn HI).
  - intros Hfull later e s.
    destruct (run_inv n later σ Hn HI) as [HI' Hle]. fold s in HI', Hle.
    pose proof (inv_full n σ HI Hfull) as Hw.
    destruct HI' as [Hsz _ Hbd _]. fold s in Hsz, Hbd.
    simpl. unfold size. rewrite Hsz.
    replace (mWriteHead s) with (Z.of_nat n) by lia.
    by rewrite Z.eqb_refl.
Qed.

(** Capacity 2, one thread: push, push, pop, pop, push.  Both elements are
    popped again and the third push still fails. *)
Lemma at_most_capacity_pushes_succeed_witness :
  Z.of_nat 2 < 2 ^ 64 ∧
  let σ := run (replicate 24 0%nat)
             (init 2 [[OpPush 5; OpPush 6; OpPop; OpPop; OpPush 7]]) in
  (pushes_succeeded σ ≤ 2)%nat ∧
  (∀ later, mWriteHead (shared σ) ≤ mWriteHead (shared (run later σ))) ∧
  (pushes_succeeded σ = 2%nat →
   ∀ later e,
     let s := shared (run later σ) in
     step s (PushLoad e) = (s, Idle, Some (EvPush e false))).
Proof.
  split; [lia|].
  apply (at_most_capacity_pushes_succeed 2
           [[OpPush 5; OpPush 6; OpPop; OpPop; OpPush 7]] (replicate 24 0%nat)).
  lia.
Defined.

Example push_after_pops_fails :
  returned (run (replicate 24 0%nat)
              (init 2 [[OpPush 5; OpPush 6; OpPop; OpPop; OpPush 7]]))
    = [EvPush 5 true; EvPush 6 true; EvPop true 6; EvPop true 5; EvPush 7 false].
Proof. vm_compute. reflexivity. Qed.

(** *** One thread: last in, first out *)

(** The system of a single thread. *)
Definition solo (s : Stack) (t : Thread) : System := mkSystem s [t].

Lemma run_solo_S k s t :
  run (replicate (S k) 0%nat) (solo s t)
  = run (replicate k 0%nat) (solo (fst (thread_step s t)) (snd (thread_step s t))).
Proof.
  simpl. unfold sys_step, solo. simpl. by destruct (thread_step s t).
Qed.

Lemma run_solo_add a b s t :
  run (replicate (a + b) 0%nat) (solo s t)
  = run (replicate b 0%nat) (run (replicate a 0%nat) (solo s t)).
Proof. by rewrite replicate_add, run_app. Qed.

(** A push on a stack whose head has caught up with the write head takes
    seven steps. *)
Lemma push_steps s x os lg :
  mHead s = mWriteHead s → 0 ≤ mWriteHead s < size s → size s < 2 ^ 64 →
  run (replicate 7 0%nat) (solo s (mkThread Idle (OpPush x :: os) lg))
  = solo (mkStack (<[Z.to_nat (mWriteHead s) := x]> (mVec s))
            (mHead s + 1) (mWriteHead s + 1))
         (mkThread Idle os (EvPush x true :: lg)).
Proof.
  intros Hh Hw Hn. destruct s as [vec h w]. unfold size in Hw, Hn.
  simpl in Hh, Hw, Hn. subst h. cbn [mWriteHead mHead mVec].
  do 2 rewrite run_solo_S. cbn [thread_step pc todo log begin step fst snd mWriteHead
                                 mHead mVec size].
  unfold size. cbn [mVec].
  replace (w =? Z.of_nat (length vec)) with false by (symmetry; apply Z.eqb_neq; lia).
  cbn [fst snd].
  rewrite run_solo_S. cbn [thread_step pc todo log step fst snd mWriteHead mHead mVec].
  rewrite Z.eqb_refl. cbn [fst snd].
  rewrite run_solo_S. cbn [thread_step pc todo log step fst snd mWriteHead mHead mVec].
  rewrite run_solo_S. cbn [thread_step pc todo log step fst snd mWriteHead mHead mVec].
  rewrite Z.leb_refl, Z.eqb_refl. cbn [fst snd].
  rewrite run_solo_S. cbn [thread_step pc todo log step fst snd mWriteHead mHead mVec].
  rewrite run_solo_S. cbn [thread_step pc todo log step fst snd mWriteHead mHead mVec].
  rewrite !wrap64_small by lia.
  replace (w + 1 <=? w) with false by (symmetry; apply Z.leb_gt; lia).
  reflexivity.
Qed.

(** A pop on a stack whose head is not zero takes four steps. *)
Lemma pop_steps s os lg :
  1 ≤ mHead s < 2 ^ 64 →
  run (replicate 4 0%nat) (solo s (mkThread Idle (OpPop :: os) lg))
  = solo (mkStack (mVec s) (mHead s - 1) (mWriteHead s))
         (mkThread Idle os
            (EvPop true (default nullptr (mVec s !! Z.to_nat (mHead s - 1))) :: lg)).
Proof.
  intros Hh. destruct s as [vec h w]. simpl in Hh. cbn [mWriteHead mHead mVec].
  do 2 rewrite run_solo_S. cbn [thread_step pc todo log begin step fst snd mWriteHead
                                 mHead mVec].
  replace (h =? 0) with false by (symmetry; apply Z.eqb_neq; lia).
  cbn [fst snd].
  rewrite run_solo_S. cbn [thread_step pc todo log step fst snd mWriteHead mHead mVec].
  rewrite run_solo_S. cbn [thread_step pc todo log step fst snd mWriteHead mHead mVec].
  rewrite Z.eqb_refl. cbn [fst snd]. rewrite wrap64_small by lia. reflexivity.
Qed.

(** A pop on a stack whose head is zero takes two steps. *)
Lemma pop_fail_steps s os lg :
  mHead s = 0 →
  run (replicate 2 0%nat) (solo s (mkThread Idle (OpPop :: os) lg))
  = solo s (mkThread Idle os (EvPop false nullptr :: lg)).
Proof.
  intros Hh. destruct s as [vec h w]. simpl in Hh. subst h.
  do 2 rewrite run_solo_S. reflexivity.
Qed.

(** The stack that holds [ys], bottom first, with [m] free slots and both
    heads at [length ys]. *)
Definition holding (ys : list Z) (m : nat) : Stack :=
  mkStack (ys ++ replicate m nullptr) (Z.of_nat (length ys)) (Z.of_nat (length ys)).

Lemma push_all xs : ∀ ys m os lg,
  Z.of_nat (length ys + length xs + m) < 2 ^ 64 →
  run (replicate (7 * length xs) 0%nat)
      (solo (holding ys (length xs + m)) (mkThread Idle (map OpPush xs ++ os) lg))
  = solo (holding (ys ++ xs) m)
         (mkThread Idle os (rev (map (λ x, EvPush x true) xs) ++ lg)).
Proof.
  induction xs as [|x xs IH]; intros ys m os lg Hn.
  - simpl. by rewrite app_nil_r.
  - replace (7 * length (x :: xs))%nat with (7 + 7 * length xs)%nat by (simpl; lia).
    rewrite run_solo_add. cbn [map app]. rewrite push_steps.
    + assert (mkStack
                (<[Z.to_nat (mWriteHead (holding ys (length (x :: xs) + m))) := x]>
                   (mVec (holding ys (length (x :: xs) + m))))
                (mHead (holding ys (length (x :: xs) + m)) + 1)
                (mWriteHead (holding ys (length (x :: xs) + m)) + 1)
              = holding (ys ++ [x]) (length xs + m)) as ->.
      { unfold holding. cbn [mVec mHead mWriteHead]. rewrite Nat2Z.id. f_equal.
        - simpl. rewrite insert_app_r_alt, Nat.sub_diag by lia. simpl.
          by rewrite <- app_assoc.
        - rewrite length_app. simpl. lia.
        - rewrite length_app. simpl. lia. }
      rewrite IH by (rewrite length_app; simpl in *; lia).
      rewrite <- app_assoc. simpl. by rewrite <- app_assoc.
    + done.
    + unfold holding, size. cbn [mVec mHead mWriteHead].
      rewrite length_app, length_replicate. simpl. lia.
    + unfold holding, size. cbn [mVec mHead mWriteHead].
      rewrite length_app, length_replicate. simpl in *. lia.
Qed.

Lemma pop_all ys : ∀ rest w os lg,
  Z.of_nat (length ys) < 2 ^ 64 →
  run (replicate (4 * length ys) 0%nat)
      (solo (mkStack (ys ++ rest) (Z.of_nat (length ys)) w)
            (mkThread Idle (replicate (length ys) OpPop ++ os) lg))
  = solo (mkStack (ys ++ rest) 0 w)
         (mkThread Idle os (map (EvPop true) ys ++ lg)).
Proof.
  induction ys as [|y ys IH] using rev_ind; intros rest w os lg Hn; [done|].
  rewrite length_app in *. simpl length in *.
  replace (4 * (length ys + 1))%nat with (4 + 4 * length ys)%nat by lia.
  replace (length ys + 1)%nat with (S (length ys)) by lia.
  rewrite run_solo_add. cbn [replicate app]. rewrite pop_steps by (simpl; lia).
  cbn [mVec mHead mWriteHead].
  replace (Z.of_nat (S (length ys)) - 1) with (Z.of_nat (length ys)) by lia.
  rewrite Nat2Z.id, <- app_assoc.
  rewrite lookup_app_r, Nat.sub_diag by lia. simpl.
  rewrite IH by lia. rewrite map_app. simpl. by rewrite <- app_assoc.
Qed.

(** X8.  Used by one thread, the stack is last in, first out: after pushing
    the elements [xs] onto a fresh stack with room for them, every push has
    returned true, as many pops return the elements in the reverse order,
    and one more pop fails with nullptr. *)
Theorem one_thread_is_last_in_first_out (n : nat) (xs : list Z) :
  (length xs ≤ n)%nat → Z.of_nat n < 2 ^ 64 →
  returned (run_seq (11 * length xs + 2) (create n)
              (map OpPush xs ++ replicate (length xs) OpPop ++ [OpPop]))
  = map (λ x, EvPush x true) xs ++ map (EvPop true) (rev xs)
    ++ [EvPop false nullptr].
Proof.
  intros Hlen Hn. unfold run_seq. fold (solo (create n) (mkThread Idle
    (map OpPush xs ++ replicate (length xs) OpPop ++ [OpPop]) [])).
  replace (11 * length xs + 2)%nat
    with (7 * length xs + (4 * length xs + 2))%nat by lia.
  rewrite run_solo_add.
  replace (create n) with (holding [] (length xs + (n - length xs))).
  2:{ unfold holding, create. simpl. f_equal. f_equal. lia. }
  rewrite push_all by (simpl; lia). simpl app.
  rewrite run_solo_add. unfold holding.
  rewrite pop_all by lia.
  rewrite pop_fail_steps by done.
  unfold returned, solo. simpl threads. cbn [log].
  rewrite app_nil_r. simpl.
  rewrite rev_app_distr, rev_involutive, <- map_rev, <- app_assoc. done.
Qed.

Lemma one_thread_is_last_in_first_out_witness :
  returned (run_seq (11 * length [5; 6; 7] + 2) (create 3)
              (map OpPush [5; 6; 7] ++ replicate (length [5; 6; 7]) OpPop ++ [OpPop]))
  = map (λ x, EvPush x true) [5; 6; 7] ++ map (EvPop true) (rev [5; 6; 7])
    ++ [EvPop false nullptr].
Proof.
  apply (one_thread_is_last_in_first_out 3 [5; 6; 7]); simpl; lia.
Defined.

(** *** A push behind a pop *)

(** A push that waits for the head to reach its slot, with the head below
    it: every step leaves it where it is. *)
Lemma push_waits k s x w os lg :
  mHead s < w →
  run (replicate k 0%nat) (solo s (mkThread (PushHead x w) os lg))
  = solo s (mkThread (PushHead x w) os lg).
Proof.
  intros Hh. induction k as [|k IH]; [done|].
  rewrite run_solo_S. cbn [thread_step pc todo log step fst snd].
  replace (mHead s <=? w) with true by (symmetry; apply Z.leb_le; lia).
  replace (mHead s =? w) with false by (symmetry; apply Z.eqb_neq; lia).
  exact IH.
Qed.

(** X9.  Once an element has been popped the stack takes no further push,
    even with free slots: when the head is below the write head and no push
    is under way, a push by a single thread claims the next slot, stores its
    element and then waits for ever for the head to reach that slot.  It
    never returns, whatever the number of steps, and the calls behind it are
    never started. *)
Theorem push_behind_a_pop_never_returns (s : Stack) (x : Z) (os : list Op)
    (lg : list Event) (fuel : nat) :
  0 ≤ mHead s → mHead s < mWriteHead s → mWriteHead s < size s → size s < 2 ^ 64 →
  let σ := run (replicate fuel 0%nat) (solo s (mkThread Idle (OpPush x :: os) lg)) in
  returned σ = rev lg ∧
  ((4 ≤ fuel)%nat →
   σ = solo (mkStack (<[Z.to_nat (mWriteHead s) := x]> (mVec s)) (mHead s)
               (mWriteHead s + 1))
            (mkThread (PushHead x (mWriteHead s)) os lg)).
Proof.
  intros H0 Hh Hw Hn σ. subst σ. destruct s as [vec h w]. unfold size in *.
  simpl in H0, Hh, Hw, Hn. cbn [mVec mHead mWriteHead].
  destruct fuel as [|fuel]; [split; [done|lia]|].
  rewrite run_solo_S. cbn [thread_step pc todo log begin step fst snd].
  destruct fuel as [|fuel]; [split; [done|lia]|].
  rewrite run_solo_S. cbn [thread_step pc todo log begin step fst snd mWriteHead
                           mHead mVec size].
  unfold size. cbn [mVec].
  replace (w =? Z.of_nat (length vec)) with false by (symmetry; apply Z.eqb_neq; lia).
  cbn [fst snd].
  destruct fuel as [|fuel]; [split; [done|lia]|].
  rewrite run_solo_S. cbn [thread_step pc todo log step fst snd mWriteHead mHead mVec].
  rewrite Z.eqb_refl. cbn [fst snd].
  destruct fuel as [|fuel]; [split; [done|lia]|].
  rewrite run_solo_S. cbn [thread_step pc todo log step fst snd mWriteHead mHead mVec].
  rewrite wrap64_small by lia.
  rewrite push_waits by (simpl; lia). split; done.
Qed.

(** Capacity 3: after one push and one pop the stack holds nothing and two
    slots were never used. *)
Lemma push_behind_a_pop_never_returns_witness :
  let s := shared (run_seq 11 (create 3) [OpPush 5; OpPop]) in
  let σ := run (replicate 1000 0%nat) (solo s (mkThread Idle [OpPush 6; OpPop] [])) in
  returned σ = rev [] ∧
  ((4 ≤ 1000)%nat →
   σ = solo (mkStack (<[Z.to_nat (mWriteHead s) := 6]> (mVec s)) (mHead s)
               (mWriteHead s + 1))
            (mkThread (PushHead 6 (mWriteHead s)) [OpPop] [])).
Proof.
  intros s.
  apply (push_behind_a_pop_never_returns s 6 [OpPop] [] 1000);
    vm_compute; done.
Defined.

(** *** The head under concurrent pushes and pops *)


(** *** The slots that pushes write *)

(** A thread between its load of the write head and its return holds a slot
    index: not negative, and below the write head once its CAS has
    succeeded. *)
Definition slot_ok (w : Z) (p : Pc) : Prop :=
  match p with
  | PushCas _ wHead => 0 ≤ wHead
  | PushStore _ wHead | PushHead _ wHead | PushInc _ wHead => 0 ≤ wHead < w
  | _ => True
  end.

Lemma slot_ok_mono w w' p : w ≤ w' → slot_ok w p → slot_ok w' p.
Proof. intros Hw. destruct p; simpl; lia. Qed.

Lemma thread_step_slot n s t s' t' :
  Z.of_nat n < 2 ^ 64 →
  0 ≤ mWriteHead s ≤ Z.of_nat n →
  pc_ok n (pc t) → slot_ok (mWriteHead s) (pc t) →
  thread_step s t = (s', t') →
  slot_ok (mWriteHead s') (pc t').
Proof.
  intros Hn Hw Hpc Hslot Hstep.
  destruct t as [p td lg]. unfold thread_step in Hstep. simpl in *.
  destruct p; simpl in *.
  - destruct td as [|o os]; simplify_eq/=; [done|]. by destruct o.
  - destruct (mHead s =? 0); by simplify_eq/=.
  - by simplify_eq/=.
  - destruct (mHead s =? head); by simplify_eq/=.
  - destruct (mWriteHead s =? size s); simplify_eq/=; [done|lia].
  - destruct (mWriteHead s =? wHead) eqn:E; simplify_eq/=; [|done].
    apply Z.eqb_eq in E. subst wHead. rewrite wrap64_small by lia. lia.
  - by simplify_eq/=.
  - destruct (mHead s <=? wHead); [destruct (mHead s =? wHead)|]; by simplify_eq/=.
  - by simplify_eq/=.
  - by simplify_eq/=.
Qed.

Lemma run_slots n sched : ∀ σ,
  Z.of_nat n < 2 ^ 64 → Inv n σ → 0 ≤ mWriteHead (shared σ) →
  Forall (λ t, slot_ok (mWriteHead (shared σ)) (pc t)) (threads σ) →
  Forall (λ t, slot_ok (mWriteHead (shared (run sched σ))) (pc t))
    (threads (run sched σ)).
Proof.
  induction sched as [|i sched IH]; intros σ Hn HI H0 Hs; [done|].
  simpl. destruct (sys_step_inv n i σ Hn HI) as [HI' Hle].
  apply IH; try done; [lia|].
  revert Hle. unfold sys_step.
  destruct (threads σ !! i) as [t|] eqn:Hi; [|done].
  destruct (thread_step (shared σ) t) as [s' t'] eqn:Hst. simpl. intros Hle.
  destruct HI as [_ _ Hbd Hpcs].
  rewrite Forall_lookup in Hpcs. rewrite Forall_lookup in Hs.
  apply Forall_insert.
  - apply Forall_lookup. intros j u Hu. eapply slot_ok_mono; [exact Hle|].
    by eapply Hs.
  - eapply (thread_step_slot n (shared σ) t); try done; [by eapply Hpcs|].
    by eapply Hs.
Qed.

(** X20.  Pushes never write outside the vector.  On a stack of capacity
    [n] used by any number of threads under any schedule, a thread that is
    about to execute [mVec[wHead] = element] holds an index that is inside
    the vector, and so does every thread that waits for the head after its
    store. *)
Theorem pushes_write_inside_the_vector (n : nat) (progs : list (list Op))
    (sched : list nat) (i : nat) (t : Thread) (e wHead : Z) :
  Z.of_nat n < 2 ^ 64 →
  let σ := run sched (init n progs) in
  threads σ !! i = Some t →
  pc t = PushStore e wHead ∨ pc t = PushHead e wHead ∨ pc t = PushInc e wHead →
  0 ≤ wHead < size (shared σ) ∧ wHead < mWriteHead (shared σ) ∧
  is_Some (mVec (shared σ) !! Z.to_nat wHead).
Proof.
  intros Hn σ Hi Hpc.
  destruct (run_inv n sched _ Hn (init_inv n progs)) as [HI _]. fold σ in HI.
  assert (Forall (λ t, slot_ok (mWriteHead (shared σ)) (pc t)) (threads σ)) as Hs.
  { apply (run_slots n sched (init n progs) Hn (init_inv n progs)); [simpl; lia|].
    simpl. clear. induction progs; constructor; simpl; done. }
  rewrite Forall_lookup in Hs. specialize (Hs i t Hi).
  destruct HI as [Hsz _ Hbd _]. unfold size. rewrite Hsz.
  assert (0 ≤ wHead < mWriteHead (shared σ)) as Hw
    by (destruct Hpc as [Hp|[Hp|Hp]]; rewrite Hp in Hs; exact Hs).
  split_and!; try lia. apply lookup_lt_is_Some. lia.
Qed.

Lemma pushes_write_inside_the_vector_witness :
  let σ := run [0; 0; 0; 1; 1; 1]%nat (init 2 [[OpPush 5]; [OpPush 6]]) in
  threads σ !! 1%nat = Some (mkThread (PushStore 6 1) [] []) ∧
  0 ≤ 1 < size (shared σ) ∧ 1 < mWriteHead (shared σ) ∧
  is_Some (mVec (shared σ) !! Z.to_nat 1).
Proof.
  split; [reflexivity|].
  apply (pushes_write_inside_the_vector 2 [[OpPush 5]; [OpPush 6]]
           [0; 0; 0; 1; 1; 1]%nat 1 (mkThread (PushStore 6 1) [] []) 6 1).
  - lia.
  - reflexivity.
  - by left.
Defined.

(** *** A full stack under concurrent use *)

(** The results of the pops of a log that returned true. *)
Definition pop_results (lg : list Event) : list Z :=
  omap (λ ev, match ev with EvPop true r => Some r | _ => None end) lg.

(** Everything the threads have popped. *)
Definition popped (σ : System) : list Z :=
  threads σ ≫= (λ t, pop_results (log t)).

(** Where a thread can stand while the write head is at the capacity: no
    push gets past its first test, and a pop holds a head between the
    current one and the one the run started with. *)
Definition full_pc_ok (vec : list Z) (h h0 : Z) (p : Pc) : Prop :=
  match p with
  | Idle | PopLoad | PushLoad _ | EmptyLoad => True
  | PopRead head => 0 < head ∧ h ≤ head ≤ h0
  | PopCas head result =>
      0 < head ∧ h ≤ head ≤ h0 ∧ vec !! Z.to_nat (head - 1) = Some result
  | _ => False
  end.

Record Full (vec : list Z) (h0 : Z) (σ : System) : Prop := mkFull {
  full_vec : mVec (shared σ) = vec;
  full_write : mWriteHead (shared σ) = Z.of_nat (length vec);
  full_head : 0 ≤ mHead (shared σ) ≤ h0;
  full_pcs : Forall (λ t, full_pc_ok vec (mHead (shared σ)) h0 (pc t)) (threads σ);
  full_pushes : Forall (λ t, pushed t = 0%nat) (threads σ);
  full_popped :
    popped σ ≡ₚ take (Z.to_nat (h0 - mHead (shared σ)))
                  (drop (Z.to_nat (mHead (shared σ))) vec)
}.

Lemma full_pc_ok_mono vec h h' h0 p : h' ≤ h → full_pc_ok vec h h0 p → full_pc_ok vec h' h0 p.
Proof. destruct p; simpl; try done; intros; split_and?; try tauto; lia. Qed.

Lemma thread_step_full vec h0 s t s' t' :
  Z.of_nat (length vec) < 2 ^ 64 → h0 ≤ Z.of_nat (length vec) →
  mVec s = vec → mWriteHead s = Z.of_nat (length vec) → 0 ≤ mHead s ≤ h0 →
  full_pc_ok vec (mHead s) h0 (pc t) → pushed t = 0%nat →
  thread_step s t = (s', t') →
  mVec s' = vec ∧ mWriteHead s' = Z.of_nat (length vec) ∧
  full_pc_ok vec (mHead s') h0 (pc t') ∧ pushed t' = 0%nat ∧
  ((mHead s' = mHead s ∧ pop_results (log t') = pop_results (log t)) ∨
   (0 < mHead s ∧ mHead s' = mHead s - 1 ∧
    ∃ r, vec !! Z.to_nat (mHead s - 1) = Some r ∧
         pop_results (log t') = r :: pop_results (log t))).
Proof.
  intros Hn Hh0 <- Hw Hh Hpc Hpu Hstep.
  destruct t as [p td lg]. unfold thread_step in Hstep. unfold pushed in *.
  simpl in *. destruct p; simpl in *; try done.
  - destruct td as [|o os]; simplify_eq/=; [split_and!; try done; by left|].
    destruct o; simpl; split_and!; try done; by left.
  - destruct (mHead s =? 0) eqn:E; simplify_eq/=.
    + split_and!; try done. by left.
    + apply Z.eqb_neq in E. split_and!; try done; try lia. by left.
  - destruct Hpc as [H0 Hb].
    destruct (lookup_lt_is_Some_2 (mVec s) (Z.to_nat (head - 1)) ltac:(lia)) as [r Hr].
    simplify_eq/=. rewrite Hr. simpl. split_and!; try done; try lia. by left.
  - destruct Hpc as (H0 & Hb & Hr).
    destruct (mHead s =? head) eqn:E; simplify_eq/=.
    + apply Z.eqb_eq in E. subst head. rewrite wrap64_small by lia.
      split_and!; try done. right. split_and!; try done. by exists result.
    + split_and!; try done. by left.
  - unfold size in Hstep. rewrite Hw, Z.eqb_refl in Hstep. simplify_eq/=.
    split_and!; try done. by left.
  - simplify_eq/=. split_and!; try done. by left.
Qed.

Lemma bind_insert_perm {A B} (f : A → list B) ts i t t' pre :
  ts !! i = Some t → f t' = pre ++ f t →
  <[i := t']> ts ≫= f ≡ₚ pre ++ (ts ≫= f).
Proof.
  revert i. induction ts as [|a ts IH]; intros [|i] Hi Hf; simplify_eq/=.
  - by rewrite Hf, <- app_assoc.
  - rewrite (IH _ Hi Hf). rewrite !app_assoc. f_equiv. apply Permutation_app_comm.
Qed.

Lemma sys_step_full vec h0 i σ :
  Z.of_nat (length vec) < 2 ^ 64 → h0 ≤ Z.of_nat (length vec) →
  Full vec h0 σ → Full vec h0 (sys_step i σ).
Proof.
  intros Hn Hh0 HF. pose proof HF as [Hvec Hw Hh Hpcs Hpus Hpop]. unfold sys_step.
  destruct (threads σ !! i) as [t|] eqn:Hi; [|done].
  destruct (thread_step (shared σ) t) as [s' t'] eqn:Hst. simpl.
  assert (full_pc_ok vec (mHead (shared σ)) h0 (pc t)) as Hpc.
  { rewrite Forall_lookup in Hpcs. by eapply Hpcs. }
  assert (pushed t = 0%nat) as Hpu.
  { rewrite Forall_lookup in Hpus. by eapply Hpus. }
  destruct (thread_step_full vec h0 _ _ _ _ Hn Hh0 Hvec Hw Hh Hpc Hpu Hst)
    as (Hvec' & Hw' & Hpc' & Hpu' & Hcase).
  assert (mHead s' ≤ mHead (shared σ)) as Hle by (destruct Hcase as [[]|(?&?&?)]; lia).
  split; simpl; try done.
  - destruct Hcase as [[]|(?&?&?)]; lia.
  - apply Forall_insert; [|done].
    eapply Forall_impl; [exact Hpcs|]. intros u. by apply full_pc_ok_mono.
  - by apply Forall_insert.
  - unfold popped in *. simpl.
    destruct Hcase as [[He Hr]|(H0 & He & r & Hr & Hlog)].
    + rewrite (bind_insert_perm _ _ _ t t' [] Hi) by done. simpl.
      by rewrite He.
    + rewrite (bind_insert_perm _ _ _ t t' [r] Hi) by done. simpl.
      rewrite Hpop, He.
      replace (Z.to_nat (h0 - (mHead (shared σ) - 1)))
        with (S (Z.to_nat (h0 - mHead (shared σ)))) by lia.
      rewrite (drop_S _ _ _ Hr). simpl.
      by replace (S (Z.to_nat (mHead (shared σ) - 1)))
        with (Z.to_nat (mHead (shared σ))) by lia.
Qed.

Lemma run_full vec h0 sched : ∀ σ,
  Z.of_nat (length vec) < 2 ^ 64 → h0 ≤ Z.of_nat (length vec) →
  Full vec h0 σ → Full vec h0 (run sched σ).
Proof.
  induction sched as [|i sched IH]; intros σ Hn Hh0 HF; [done|].
  simpl. apply IH; try done. by apply sys_step_full.
Qed.

(** X21.  A full stack hands out each slot once.  When the write head
    stands at the capacity (every slot has been claimed), under any schedule
    of any threads that pop, push and ask [empty]: no push succeeds, the
    vector and the write head stay as they are, the head only goes down, and
    the results of all the pops that returned true are, in some order, the
    slots between the new head and the old one, each of them once.  So if
    the elements below the old head are distinct, no element is returned by
    two pops. *)
Theorem full_stack_hands_out_each_slot_once (s : Stack) (progs : list (list Op))
    (sched : list nat) :
  mWriteHead s = size s → 0 ≤ mHead s ≤ size s → size s < 2 ^ 64 →
  let σ := run sched (mkSystem s (map (λ p, mkThread Idle p []) progs)) in
  mVec (shared σ) = mVec s ∧ mWriteHead (shared σ) = mWriteHead s ∧
  0 ≤ mHead (shared σ) ≤ mHead s ∧
  pushes_succeeded σ = 0%nat ∧
  popped σ ≡ₚ take (Z.to_nat (mHead s - mHead (shared σ)))
                (drop (Z.to_nat (mHead (shared σ))) (mVec s)) ∧
  (NoDup (take (Z.to_nat (mHead s)) (mVec s)) → NoDup (popped σ)).
Proof.
  intros Hw Hh Hn σ. unfold size in *.
  assert (Full (mVec s) (mHead s) (mkSystem s (map (λ p, mkThread Idle p []) progs)))
    as HF.
  { split; simpl; try done; try lia.
    - induction progs; constructor; simpl; done.
    - induction progs; constructor; simpl; done.
    - unfold popped. simpl. rewrite Z.sub_diag. simpl.
      induction progs as [|p ps IH]; simpl; [done|]. exact IH. }
  apply (run_full _ _ sched _ Hn (proj2 Hh)) in HF. fold σ in HF.
  destruct HF as [Hvec Hw' Hh' _ Hpus Hpop].
  split_and!; try done; try lia.
  - unfold pushes_succeeded. clear -Hpus.
    induction Hpus as [|t ts Ht _ IH]; simpl; [done|]. by rewrite Ht, IH.
  - intros Hnd. rewrite Hpop.
    set (h := Z.to_nat (mHead (shared σ))).
    replace (Z.to_nat (mHead s)) with (h + Z.to_nat (mHead s - mHead (shared σ)))%nat
      in Hnd by lia.
    rewrite <- take_take_drop in Hnd. apply NoDup_app in Hnd. tauto.
Qed.

Lemma full_stack_hands_out_each_slot_once_witness :
  let s := mkStack [5; 6; 7] 3 3 in
  let σ := run [0; 1; 0; 1; 0; 1; 0; 1; 1; 1; 1; 1; 0; 0]%nat
             (mkSystem s (map (λ p, mkThread Idle p [])
                            [[OpPop; OpPush 9]; [OpPop; OpPop]])) in
  mVec (shared σ) = mVec s ∧ mWriteHead (shared σ) = mWriteHead s ∧
  0 ≤ mHead (shared σ) ≤ mHead s ∧
  pushes_succeeded σ = 0%nat ∧
  popped σ ≡ₚ take (Z.to_nat (mHead s - mHead (shared σ)))
                (drop (Z.to_nat (mHead (shared σ))) (mVec s)) ∧
  (NoDup (take (Z.to_nat (mHead s)) (mVec s)) → NoDup (popped σ)).
Proof.
  apply (full_stack_hands_out_each_slot_once (mkStack [5; 6; 7] 3 3)
           [[OpPop; OpPush 9]; [OpPop; OpPop]]
           [0; 1; 0; 1; 0; 1; 0; 1; 1; 1; 1; 1; 0; 0]%nat).
  - reflexivity.
  - unfold size. simpl. lia.
  - unfold size. simpl. lia.
Defined.

(** Two threads pop from a full stack of three, their steps interleaved:
    the first thread's CAS wins, the second retries; between them they get
    7 and 6, the head stands at 1, and the push of the first thread
    fails. *)
Example two_threads_pop :
  let σ := run [0; 1; 0; 1; 0; 1; 0; 1; 1; 1; 1; 1; 0; 0]%nat
             (mkSystem (mkStack [5; 6; 7] 3 3)
                (map (λ p, mkThread Idle p []) [[OpPop; OpPush 9]; [OpPop; OpPop]])) in
  (log <$> threads σ) = [[EvPush 9 false; EvPop true 7]; [EvPop true 6]] ∧
  popped σ = [7; 6] ∧ mHead (shared σ) = 1.
Proof. vm_compute. done. Qed.

End FixedSizeStack.

(** ** server/ServerSocket.cpp *)

Module Server.

(** [crossbow::buffer_reader]: the bytes of the request and the read
    position. *)
Record buffer_reader := mkReader {
  bytes : list Z;
  pos : nat
}.

Definition byte_at (m : buffer_reader) (i : nat) : Z :=
  default 0 (bytes m !! i).

(** [read<uint8_t>()] *)
Definition read_u8 (m : buffer_reader) : Z * buffer_reader :=
  (byte_at m (pos m), mkReader (bytes m) (pos m + 1)).

Fixpoint le_bytes (m : buffer_reader) (i n : nat) : Z :=
  match n with
  | O => 0
  | S n' => Z.lor (byte_at m i) (Z.shiftl (le_bytes m (S i) n') 8)
  end.

(** [read<uint64_t>()] *)
Definition read_u64 (m : buffer_reader) : Z * buffer_reader :=
  (le_bytes m (pos m) 8, mkReader (bytes m) (pos m + 8)).

(** [align(alignment)] *)
Definition align (a : nat) (m : buffer_reader) : buffer_reader :=
  mkReader (bytes m) (Nat.div (pos m + (a - 1)) a * a).

(** The error codes of tellstore/ErrorCode.hpp that ServerSocket.cpp uses. *)
Inductive error :=
| unkown_request
| invalid_table
| invalid_snapshot
| invalid_scan
| server_overlad.

(** What the socket does with a request: [writeErrorResponse] or the
    handler's own response. *)
Inductive Outcome (R : Type) :=
| ErrorResponse (ec : error)
| Handled (r : R).
Arguments ErrorResponse {R} ec.
Arguments Handled {R} r.

Section HandleSnapshot.

(** [commitmanager::SnapshotDescriptor], its [version()] and its
    [deserialize] are declared outside the sources; the handler only uses
    these three. *)
Context {SnapshotDescriptor : Type}.
Variable version : SnapshotDescriptor → Z.
Variable deserialize : buffer_reader → SnapshotDescriptor.

(** [mSnapshots.emplace(key, value)]: the map, and whether the insertion
    took place. *)
Definition emplace (k : Z) (v : SnapshotDescriptor) (m : gmap Z SnapshotDescriptor)
    : gmap Z SnapshotDescriptor * SnapshotDescriptor * bool :=
  match m !! k with
  | Some old => (m, old, false)
  | None => (<[k := v]> m, v, true)
  end.

(** [ServerSocket::handleSnapshot] *)
Definition handleSnapshot {R : Type} (message : buffer_reader)
    (f : SnapshotDescriptor → R) (mSnapshots : gmap Z SnapshotDescriptor)
    : Outcome R * gmap Z SnapshotDescriptor :=
  let '(c, message) := read_u8 message in
  let cached := negb (c =? 0) in
  let '(h, message) := read_u8 message in
  let hasDescriptor := negb (h =? 0) in
  let message := align 8 message in
  if cached then
    if negb hasDescriptor then
      let '(v, message) := read_u64 message in
      match mSnapshots !! v with
      | None => (ErrorResponse invalid_snapshot, mSnapshots)
      | Some i => (Handled (f i), mSnapshots)
      end
    else
      let snapshot := deserialize message in
      let '(m', i, inserted) := emplace (version snapshot) snapshot mSnapshots in
      if negb inserted then (ErrorResponse invalid_snapshot, m')
      else (Handled (f i), m')
  else if hasDescriptor then
    let snapshot := deserialize message in
    (Handled (f snapshot), mSnapshots)
  else (ErrorResponse invalid_snapshot, mSnapshots).

(** [ServerSocket::removeSnapshot] *)
Definition removeSnapshot (v : Z) (mSnapshots : gmap Z SnapshotDescriptor)
    : gmap Z SnapshotDescriptor :=
  match mSnapshots !! v with
  | None => mSnapshots
  | Some _ => delete v mSnapshots
  end.

(** The storage calls behind the handlers (Storage is declared outside the
    sources). *)
Variable storage_revert : Z → Z → SnapshotDescriptor → bool.
Variable storage_remove : Z → Z → SnapshotDescriptor → bool.

(** [ServerSocket::handleRevert]: the response is the byte [succeeded]. *)
Definition handleRevert (request : buffer_reader)
    (mSnapshots : gmap Z SnapshotDescriptor) : Outcome Z * gmap Z SnapshotDescriptor :=
  let '(tableId, request) := read_u64 request in
  let '(key, request) := read_u64 request in
  handleSnapshot request
    (λ snapshot, if storage_revert tableId key snapshot then 1 else 0) mSnapshots.

(** [ServerSocket::handleRemove] *)
Definition handleRemove (request : buffer_reader)
    (mSnapshots : gmap Z SnapshotDescriptor) : Outcome Z * gmap Z SnapshotDescriptor :=
  let '(tableId, request) := read_u64 request in
  let '(key, request) := read_u64 request in
  handleSnapshot request
    (λ snapshot, if storage_remove tableId key snapshot then 1 else 0) mSnapshots.

(** The three fields of the snapshot part of a request, as the handler
    reads them. *)
Definition cached_flag (message : buffer_reader) : bool :=
  negb (fst (read_u8 message) =? 0).
Definition descriptor_flag (message : buffer_reader) : bool :=
  negb (fst (read_u8 (snd (read_u8 message))) =? 0).
Definition body (message : buffer_reader) : buffer_reader :=
  align 8 (snd (read_u8 (snd (read_u8 message)))).

(** The misuse cases. *)
Definition misuse (message : buffer_reader) (mSnapshots : gmap Z SnapshotDescriptor)
    : Prop :=
  (cached_flag message = false ∧ descriptor_flag message = false) ∨
  (cached_flag message = true ∧ descriptor_flag message = false ∧
   mSnapshots !! fst (read_u64 (body message)) = None) ∨
  (cached_flag message = true ∧ descriptor_flag message = true ∧
   is_Some (mSnapshots !! version (deserialize (body message)))).

(** The misuse cases in the words of the claim: the third case is any
    request that sends a descriptor whose version is in the cache, whether or
    not the descriptor is to be cached. *)
Definition misuse_as_stated (message : buffer_reader)
    (mSnapshots : gmap Z SnapshotDescriptor) : Prop :=
  (cached_flag message = false ∧ descriptor_flag message = false) ∨
  (cached_flag message = true ∧ descriptor_flag message = false ∧
   mSnapshots !! fst (read_u64 (body message)) = None) ∨
  (descriptor_flag message = true ∧
   is_Some (mSnapshots !! version (deserialize (body message)))).

(** The snapshot a well-formed request resolves to, and the cache after
    it. *)
Definition resolved (message : buffer_reader) (mSnapshots : gmap Z SnapshotDescriptor)
    (s : SnapshotDescriptor) (m' : gmap Z SnapshotDescriptor) : Prop :=
  (cached_flag message = true ∧ descriptor_flag message = false ∧
   mSnapshots !! fst (read_u64 (body message)) = Some s ∧ m' = mSnapshots) ∨
  (cached_flag message = true ∧ descriptor_flag message = true ∧
   s = deserialize (body message) ∧ mSnapshots !! version s = None ∧
   m' = <[version s := s]> mSnapshots) ∨
  (cached_flag message = false ∧ descriptor_flag message = true ∧
   s = deserialize (body message) ∧ m' = mSnapshots).

(** The handler, by the two flags. *)
Lemma handleSnapshot_cases {R : Type} (message : buffer_reader)
    (f : SnapshotDescriptor → R) (mSnapshots : gmap Z SnapshotDescriptor) :
  handleSnapshot message f mSnapshots =
  if cached_flag message then
    if descriptor_flag message then
      let s := deserialize (body message) in
      match mSnapshots !! version s with
      | Some _ => (ErrorResponse invalid_snapshot, mSnapshots)
      | None => (Handled (f s), <[version s := s]> mSnapshots)
      end
    else
      match mSnapshots !! fst (read_u64 (body message)) with
      | None => (ErrorResponse invalid_snapshot, mSnapshots)
      | Some i => (Handled (f i), mSnapshots)
      end
  else if descriptor_flag message then
    (Handled (f (deserialize (body message))), mSnapshots)
  else (ErrorResponse invalid_snapshot, mSnapshots).
Proof.
  unfold handleSnapshot, cached_flag, descriptor_flag, body, emplace.
  destruct (read_u8 message) as [c m1]. cbn [fst snd].
  destruct (read_u8 m1) as [h m2]. cbn [fst snd].
  destruct (negb (c =? 0)); destruct (negb (h =? 0)); cbn [negb]; try reflexivity.
  cbv zeta. by destruct (mSnapshots !! version (deserialize (align 8 m2))).
Qed.

(** C8.  The handler answers invalid-snapshot exactly in the three misuse
    cases (neither a cached version nor a descriptor; a cached version that
    is not in the cache; a descriptor to be cached whose version is already
    there), leaving the cache as it was; in every other case it runs the
    operation on the resolved snapshot. *)
Theorem invalid_snapshot_iff_misuse {R : Type} (message : buffer_reader)
    (f : SnapshotDescriptor → R) (mSnapshots : gmap Z SnapshotDescriptor) :
  (fst (handleSnapshot message f mSnapshots) = ErrorResponse invalid_snapshot
   ↔ misuse message mSnapshots) ∧
  (misuse message mSnapshots →
   snd (handleSnapshot message f mSnapshots) = mSnapshots) ∧
  (¬ misuse message mSnapshots →
   ∃ s, resolved message mSnapshots s (snd (handleSnapshot message f mSnapshots)) ∧
        fst (handleSnapshot message f mSnapshots) = Handled (f s)).
Proof.
  rewrite handleSnapshot_cases. unfold misuse, resolved.
  destruct (cached_flag message); destruct (descriptor_flag message); cbv zeta.
  - destruct (mSnapshots !! version (deserialize (body message))) as [old|] eqn:El;
      cbn [fst snd].
    + split; [|split]; [naive_solver..|].
      intros Hn. exfalso. apply Hn. right. right. eauto.
    + split; [|split].
      * split; [done|]. intros [[? ?]|[(_ & ? & _)|(_ & _ & [? ?])]]; done.
      * intros [[? ?]|[(_ & ? & _)|(_ & _ & [? ?])]]; done.
      * intros _. eexists. split; [|done]. right. left. done.
  - destruct (mSnapshots !! (read_u64 (body message)).1) as [i|] eqn:El;
      cbn [fst snd].
    + split; [|split].
      * split; [done|]. intros [[? ?]|[(_ & _ & ?)|(_ & ? & _)]]; done.
      * done.
      * intros _. exists i. split; [|done]. left. done.
    + split; [|split]; [naive_solver..|].
      intros Hn. exfalso. apply Hn. right. left. done.
  - cbn [fst snd]. split; [|split].
    + split; [done|]. intros [[? ?]|[(? & _)|(? & _)]]; done.
    + done.
    + intros _. eexists. split; [|done]. right. right. done.
  - cbn [fst snd]. split; [|split]; [naive_solver..|].
    intros Hn. exfalso. apply Hn. by left.
Qed.

End HandleSnapshot.

(** Modelled from the spec: the wire format of a snapshot descriptor of
    section 6 (SnapshotDescriptor and its deserialize are not among the
    sources): 8 bytes lowestActiveVersion, 8 bytes baseVersion, 8 bytes
    version, 4 bytes inFlightLength, padding to 8, then the bitset of
    ceil(inFlightLength / 8) bytes. *)
Record WireDescriptor := mkWire {
  lowestActiveVersion : Z;
  baseVersion : Z;
  wversion : Z;
  inFlightLength : Z;
  inFlight : list Z
}.

(** [read<uint32_t>()] *)
Definition read_u32 (m : buffer_reader) : Z * buffer_reader :=
  (le_bytes m (pos m) 4, mkReader (bytes m) (pos m + 4)).

Definition deserialize_wire (m : buffer_reader) : WireDescriptor :=
  let '(lowest, m) := read_u64 m in
  let '(base, m) := read_u64 m in
  let '(v, m) := read_u64 m in
  let '(len, m) := read_u32 m in
  let m := align 8 m in
  mkWire lowest base v len
         (take (Z.to_nat ((len + 7) `div` 8)) (drop (pos m) (bytes m))).

(** The descriptor (lowest active 5, base 6, version 7, nothing in flight)
    on the wire. *)
Definition descriptor7 : list Z :=
  [5; 0; 0; 0; 0; 0; 0; 0;  6; 0; 0; 0; 0; 0; 0; 0;
   7; 0; 0; 0; 0; 0; 0; 0;  0; 0; 0; 0; 0; 0; 0; 0].

(** cached = 0, hasDescriptor = 1, padding, descriptor. *)
Definition uncached_request : buffer_reader :=
  mkReader ([0; 1; 0; 0; 0; 0; 0; 0] ++ descriptor7) 0.

(** cached = 1, hasDescriptor = 0, padding, version 7. *)
Definition cached_request : buffer_reader :=
  mkReader [1; 0; 0; 0; 0; 0; 0; 0;  7; 0; 0; 0; 0; 0; 0; 0] 0.

Definition cache7 : gmap Z WireDescriptor := {[7 := mkWire 5 6 7 0 []]}.

(** A cached version that the connection has not seen is refused; once the
    descriptor is in the cache it is served. *)
Example handleSnapshot_cached_version :
  fst (handleSnapshot wversion deserialize_wire cached_request wversion ∅)
    = ErrorResponse invalid_snapshot ∧
  fst (handleSnapshot wversion deserialize_wire cached_request wversion cache7)
    = Handled 7.
Proof. split; reflexivity. Qed.

(** C8 (the claim as stated fails).  A request that is not to be cached and
    carries the descriptor of version 7, on a connection whose cache holds
    version 7: it sends a descriptor whose version is already present in the
    cache, and the operation is executed all the same. *)
Lemma uncached_descriptor_of_cached_version_is_served :
  misuse_as_stated wversion deserialize_wire uncached_request cache7 ∧
  handleSnapshot wversion deserialize_wire uncached_request wversion cache7
    = (Handled 7, cache7) ∧
  ¬ (fst (handleSnapshot wversion deserialize_wire uncached_request wversion cache7)
       = ErrorResponse invalid_snapshot
     ↔ misuse_as_stated wversion deserialize_wire uncached_request cache7).
Proof.
  assert (misuse_as_stated wversion deserialize_wire uncached_request cache7) as Hm.
  { right. right. split; [reflexivity|]. exists (mkWire 5 6 7 0 []). reflexivity. }
  split; [exact Hm|]. split; [reflexivity|].
  intros [_ H]. specialize (H Hm). discriminate H.
Qed.

(** *** The snapshot cache of a connection *)

Section SnapshotCache.

Context {SnapshotDescriptor : Type}.
Variable version : SnapshotDescriptor → Z.
Variable deserialize : buffer_reader → SnapshotDescriptor.

(** X11.  A descriptor sent to be cached is found again by its version: the
    request that caches it is served with it and puts it into the cache; a
    later request that names the version alone is served with the same
    descriptor and leaves the cache as it is; sending the descriptor to be
    cached a second time is refused; and after [removeSnapshot] the cache is
    what it was before and the version alone is refused. *)
Theorem cached_descriptor_is_found_by_version {R : Type}
    (first later : buffer_reader) (f g : SnapshotDescriptor → R)
    (mSnapshots : gmap Z SnapshotDescriptor) :
  cached_flag first = true → descriptor_flag first = true →
  mSnapshots !! version (deserialize (body first)) = None →
  cached_flag later = true → descriptor_flag later = false →
  fst (read_u64 (body later)) = version (deserialize (body first)) →
  let s := deserialize (body first) in
  let cache := <[version s := s]> mSnapshots in
  handleSnapshot version deserialize first f mSnapshots = (Handled (f s), cache) ∧
  handleSnapshot version deserialize later g cache = (Handled (g s), cache) ∧
  handleSnapshot version deserialize first f cache
  = (ErrorResponse invalid_snapshot, cache) ∧
  removeSnapshot (version s) cache = mSnapshots ∧
  handleSnapshot version deserialize later g (removeSnapshot (version s) cache)
  = (ErrorResponse invalid_snapshot, mSnapshots).
Proof.
  intros Hc1 Hd1 Hnew Hc2 Hd2 Hv s cache.
  assert (removeSnapshot (version s) cache = mSnapshots) as Hrm.
  { unfold removeSnapshot, cache. rewrite lookup_insert_eq.
    by rewrite delete_insert_id. }
  rewrite Hrm, !handleSnapshot_cases, Hc1, Hd1, Hc2, Hd2. cbv zeta.
  fold s. rewrite Hv. fold s. unfold cache. fold s in Hnew.
  rewrite Hnew, lookup_insert_eq. done.
Qed.

(** X12.  Serving a request never evicts or replaces a cached snapshot:
    every version cached before is cached after with the same descriptor,
    and the only version that can be new is the one of a descriptor sent to
    be cached.  A request that is refused leaves the cache as it is. *)
Theorem handleSnapshot_keeps_the_cache {R : Type} (message : buffer_reader)
    (f : SnapshotDescriptor → R) (mSnapshots : gmap Z SnapshotDescriptor) :
  let cache := snd (handleSnapshot version deserialize message f mSnapshots) in
  mSnapshots ⊆ cache ∧
  (∀ v s, cache !! v = Some s → mSnapshots !! v = None →
          cached_flag message = true ∧ descriptor_flag message = true ∧
          s = deserialize (body message) ∧ v = version s) ∧
  (∀ ec, fst (handleSnapshot version deserialize message f mSnapshots)
         = ErrorResponse ec → ec = invalid_snapshot ∧ cache = mSnapshots).
Proof.
  intros cache. subst cache. rewrite handleSnapshot_cases.
  destruct (cached_flag message); destruct (descriptor_flag message); cbv zeta.
  - destruct (mSnapshots !! version (deserialize (body message))) as [old|] eqn:El;
      cbn [fst snd].
    + split_and!; [done|congruence|]. by intros ec [= <-].
    + split_and!.
      * by apply insert_subseteq.
      * intros v s Hv Hn. split_and!; try done;
          destruct (decide (v = version (deserialize (body message)))) as [->|Hne];
          try (rewrite lookup_insert_eq in Hv; congruence);
          rewrite lookup_insert_ne in Hv by done; congruence.
      * done.
  - destruct (mSnapshots !! (read_u64 (body message)).1); cbn [fst snd];
      (split_and!; [done|congruence|]); [done|by intros ec [= <-]].
  - cbn [fst snd]. split_and!; [done|congruence|done].
  - cbn [fst snd]. split_and!; [done|congruence|]. by intros ec [= <-].
Qed.

End SnapshotCache.

Lemma cached_descriptor_is_found_by_version_witness :
  let first := mkReader ([1; 1; 0; 0; 0; 0; 0; 0] ++ descriptor7) 0 in
  let s := deserialize_wire (body first) in
  let cache := <[wversion s := s]> (∅ : gmap Z WireDescriptor) in
  handleSnapshot wversion deserialize_wire first lowestActiveVersion ∅
  = (Handled (lowestActiveVersion s), cache) ∧
  handleSnapshot wversion deserialize_wire cached_request baseVersion cache
  = (Handled (baseVersion s), cache) ∧
  handleSnapshot wversion deserialize_wire first lowestActiveVersion cache
  = (ErrorResponse invalid_snapshot, cache) ∧
  removeSnapshot (wversion s) cache = ∅ ∧
  handleSnapshot wversion deserialize_wire cached_request baseVersion
    (removeSnapshot (wversion s) cache)
  = (ErrorResponse invalid_snapshot, ∅).
Proof.
  apply (cached_descriptor_is_found_by_version wversion deserialize_wire
           (mkReader ([1; 1; 0; 0; 0; 0; 0; 0] ++ descriptor7) 0) cached_request
           lowestActiveVersion baseVersion ∅); reflexivity.
Defined.

(** *** The handlers of get and insert *)

(** [read<uint16_t>()] *)
Definition read_u16 (m : buffer_reader) : Z * buffer_reader :=
  (le_bytes m (pos m) 2, mkReader (bytes m) (pos m + 2)).

(** [read(length)]: the bytes at the position, which moves behind them. *)
Definition read (n : Z) (m : buffer_reader) : list Z * buffer_reader :=
  (take (Z.to_nat n) (drop (pos m) (bytes m)), mkReader (bytes m) (pos m + Z.to_nat n)).

(** [crossbow::buffer_writer] on a fresh message: the bytes written so far;
    the position is their number.  [align] moves the position forward; the
    bytes it skips are shown as 0. *)
Definition buffer_writer := list Z.

Fixpoint le_encode (n : nat) (v : Z) : list Z :=
  match n with
  | O => []
  | S n' => v `mod` 256 :: le_encode n' (v `div` 256)
  end.

(** [write<uint8_t>(v)], [write<uint16_t>(v)], [write<uint32_t>(v)],
    [write<uint64_t>(v)] *)
Definition write_u8 (v : Z) (w : buffer_writer) : buffer_writer := w ++ le_encode 1 v.
Definition write_u16 (v : Z) (w : buffer_writer) : buffer_writer := w ++ le_encode 2 v.
Definition write_u32 (v : Z) (w : buffer_writer) : buffer_writer := w ++ le_encode 4 v.
Definition write_u64 (v : Z) (w : buffer_writer) : buffer_writer := w ++ le_encode 8 v.

(** [write(data, size)] *)
Definition write (data : list Z) (size : Z) (w : buffer_writer) : buffer_writer :=
  w ++ take (Z.to_nat size) data.

(** [align(alignment)] of the writer *)
Definition walign (a : nat) (w : buffer_writer) : buffer_writer :=
  w ++ replicate (Nat.div (length w + (a - 1)) a * a - length w) 0.

(** The response types of tellstore/MessageTypes.hpp that ServerSocket.cpp
    uses. *)
Inductive ResponseType := CREATE_TABLE | GET_TABLE | GET | MODIFICATION | SCAN.

(** [writeResponse(messageId, type, messageLength, fun)]: the type, the
    length the message was allocated with and what [fun] wrote into it. *)
Record Response := mkResponse {
  responseType : ResponseType;
  messageLength : Z;
  payload : list Z
}.

(** Little-endian words: what [write<T>] writes, [read<T>] reads. *)
Lemma lor_shift_byte a b :
  0 ≤ a < 256 → 0 ≤ b → Z.lor a (Z.shiftl b 8) = a + 256 * b.
Proof.
  intros Ha Hb. rewrite Z.shiftl_mul_pow2 by lia.
  rewrite <- Z.lxor_lor, <- Z.add_nocarry_lxor; [lia| |].
  all: apply Z.bits_inj'; intros i Hi; rewrite Z.land_spec, Z.bits_0;
    destruct (Z.lt_ge_cases i 8) as [Hlt|Hge];
    [rewrite Z.mul_pow2_bits_low by lia; apply andb_false_r
    |replace a with (a mod 2 ^ 8) by (apply Z.mod_small; lia);
     rewrite Z.mod_pow2_bits_high by lia; done].
Qed.

Lemma le_bytes_encode n : ∀ v pre post p,
  0 ≤ v < 2 ^ (8 * Z.of_nat n) →
  le_bytes (mkReader (pre ++ le_encode n v ++ post) p) (length pre) n = v.
Proof.
  induction n as [|n IH]; intros v pre post p Hv.
  - simpl in *. lia.
  - cbn [le_encode le_bytes]. unfold byte_at. cbn [bytes].
    rewrite lookup_app_r, Nat.sub_diag by lia. cbn [app lookup list_lookup default].
    assert (0 ≤ v `div` 256 < 2 ^ (8 * Z.of_nat n)) as Hd.
    { replace (2 ^ (8 * Z.of_nat (S n))) with (256 * 2 ^ (8 * Z.of_nat n)) in Hv.
      - split; [apply Z.div_pos; lia|]. apply Z.div_lt_upper_bound; lia.
      - replace (8 * Z.of_nat (S n)) with (8 + 8 * Z.of_nat n) by lia.
        rewrite Z.pow_add_r by lia. done. }
    specialize (IH (v `div` 256) (pre ++ [v `mod` 256]) post p Hd).
    rewrite length_app in IH. simpl in IH.
    replace (length pre + 1)%nat with (S (length pre)) in IH by lia.
    rewrite <- app_assoc in IH. simpl in IH. rewrite IH.
    unfold id.
    rewrite lor_shift_byte; [|pose proof (Z.mod_pos_bound v 256); lia|lia].
    pose proof (Z.div_mod v 256). lia.
Qed.

Lemma le_encode_length n v : length (le_encode n v) = n.
Proof. revert v. induction n as [|n IH]; intros v; simpl; [done|]. by rewrite IH. Qed.

Section Handlers.

Context {SnapshotDescriptor Storage : Type}.
Variable version : SnapshotDescriptor → Z.
Variable deserialize : buffer_reader → SnapshotDescriptor.

(** [Storage::insert(tableId, key, size, data, snapshot, succeeded)]: the
    storage after the call and the value it writes through [succeeded] when
    that pointer is not null.  [Storage::get] leaves the storage as it is and
    returns (success, data, version, isNewest); [size] is the length of
    [data]. *)
Variable storage_insert :
  Z → Z → Z → list Z → SnapshotDescriptor → Storage → Storage * bool.
Variable storage_get :
  Z → Z → SnapshotDescriptor → Storage → bool * list Z * Z * bool.

(** What a handler leaves behind: the response or the error, the snapshot
    cache and the storage. *)
Definition run_handler {R : Type}
    (r : Outcome (Storage → R * Storage) * gmap Z SnapshotDescriptor)
    (storage : Storage) : Outcome R * gmap Z SnapshotDescriptor * Storage :=
  match r with
  | (ErrorResponse ec, m) => (ErrorResponse ec, m, storage)
  | (Handled k, m) => let '(resp, storage') := k storage in (Handled resp, m, storage')
  end.

(** [ServerSocket::handleInsert] *)
Definition handleInsert (request : buffer_reader)
    (mSnapshots : gmap Z SnapshotDescriptor) (storage : Storage)
    : Outcome Response * gmap Z SnapshotDescriptor * Storage :=
  let '(tableId, request) := read_u64 request in
  let '(key, request) := read_u64 request in
  let '(w, request) := read_u8 request in
  let wantsSucceeded := negb (w =? 0) in
  let request := align 4 request in
  let '(dataLength, request) := read_u32 request in
  let '(data, request) := read dataLength request in
  let request := align 8 request in
  run_handler
    (handleSnapshot version deserialize request
       (λ snapshot storage,
          let '(storage, result) :=
            storage_insert tableId key dataLength data snapshot storage in
          let succeeded := if wantsSucceeded then result else false in
          (mkResponse MODIFICATION 1 (write_u8 (if succeeded then 1 else 0) []),
           storage))
       mSnapshots)
    storage.

(** [ServerSocket::handleGet] *)
Definition handleGet (request : buffer_reader)
    (mSnapshots : gmap Z SnapshotDescriptor) (storage : Storage)
    : Outcome Response * gmap Z SnapshotDescriptor * Storage :=
  let '(tableId, request) := read_u64 request in
  let '(key, request) := read_u64 request in
  run_handler
    (handleSnapshot version deserialize request
       (λ snapshot storage,
          let '(success, data, v, isNewest) := storage_get tableId key snapshot storage in
          let size := Z.of_nat (length data) in
          let messageLength := wrap32 (2 * 8 + size) in
          let message := write_u64 v [] in
          let message := write_u8 (if isNewest then 1 else 0) message in
          let message := walign 4 message in
          let message := write_u32 size message in
          let message := if size >? 0 then write data size message else message in
          (mkResponse GET messageLength message, storage))
       mSnapshots)
    storage.

Lemma handleSnapshot_misuse {R : Type} message (f : SnapshotDescriptor → R) m :
  misuse version deserialize message m →
  handleSnapshot version deserialize message f m = (ErrorResponse invalid_snapshot, m).
Proof.
  rewrite handleSnapshot_cases. unfold misuse.
  intros [[-> ->]|[(-> & -> & ->)|(-> & -> & [s ->])]]; done.
Qed.

Lemma handleSnapshot_resolved {R : Type} message (f : SnapshotDescriptor → R) m s m' :
  resolved version deserialize message m s m' →
  handleSnapshot version deserialize message f m = (Handled (f s), m').
Proof.
  rewrite handleSnapshot_cases. unfold resolved.
  intros [(-> & -> & -> & ->)|[(-> & -> & -> & Hn & ->)|(-> & -> & -> & ->)]];
    cbv zeta; [done| |done].
  by rewrite Hn.
Qed.

(** X13.  The insert request on the wire and what is reported back.  The
    handler takes the table at offset 0, the key at 8, the flag
    [wantsSucceeded] at 16, the length of the tuple at 20, the tuple at 24
    and the snapshot part at the next multiple of 8.  A request whose
    snapshot part is refused touches neither the storage nor the cache.
    Otherwise the insert is carried out with the resolved snapshot and the
    one-byte answer is 1 only if the client asked for the result and the
    insert succeeded: without [wantsSucceeded] the answer is 0 whatever the
    insert did. *)
Theorem handleInsert_reports_only_on_request (request : buffer_reader)
    (mSnapshots : gmap Z SnapshotDescriptor) (storage : Storage) :
  pos request = 0%nat →
  let tableId := le_bytes request 0 8 in
  let key := le_bytes request 8 8 in
  let wantsSucceeded := negb (byte_at request 16 =? 0) in
  let dataLength := le_bytes request 20 4 in
  let data := take (Z.to_nat dataLength) (drop 24 (bytes request)) in
  let snapshotPart := align 8 (mkReader (bytes request) (24 + Z.to_nat dataLength)) in
  (misuse version deserialize snapshotPart mSnapshots →
   handleInsert request mSnapshots storage
   = (ErrorResponse invalid_snapshot, mSnapshots, storage)) ∧
  (∀ s m', resolved version deserialize snapshotPart mSnapshots s m' →
     let '(storage', result) := storage_insert tableId key dataLength data s storage in
     handleInsert request mSnapshots storage
     = (Handled (mkResponse MODIFICATION 1 [if wantsSucceeded && result then 1 else 0]),
        m', storage')).
Proof.
  intros Hpos tableId key wantsSucceeded dataLength data snapshotPart.
  assert (handleInsert request mSnapshots storage
          = run_handler
              (handleSnapshot version deserialize snapshotPart
                 (λ snapshot storage,
                    let '(storage, result) :=
                      storage_insert tableId key dataLength data snapshot storage in
                    (mkResponse MODIFICATION 1
                       (write_u8 (if (if wantsSucceeded then result else false)
                                  then 1 else 0) []), storage))
                 mSnapshots) storage) as ->.
  { unfold handleInsert, read_u64, read_u8, read_u32, read.
    cbn [pos bytes align]. rewrite Hpos. reflexivity. }
  split.
  - intros Hm. by rewrite handleSnapshot_misuse.
  - intros s m' Hr. rewrite (handleSnapshot_resolved _ _ _ _ _ Hr). cbn [run_handler].
    destruct (storage_insert tableId key dataLength data s storage) as [storage' result].
    by destruct wantsSucceeded, result.
Qed.

(** X14.  The answer to a get.  For a request that is served, the handler
    writes exactly the [messageLength] bytes it has allocated, 16 and the
    tuple: read back with the reader of the requests, the message gives the
    version, the flag [isNewest], after alignment to 4 the size, and then the
    tuple; the storage and, but for a descriptor to be cached, the cache are
    as before. *)
Theorem handleGet_writes_what_it_allocates (request : buffer_reader)
    (mSnapshots : gmap Z SnapshotDescriptor) (storage : Storage) s m' :
  pos request = 0%nat →
  let tableId := le_bytes request 0 8 in
  let key := le_bytes request 8 8 in
  let snapshotPart := mkReader (bytes request) 16 in
  resolved version deserialize snapshotPart mSnapshots s m' →
  let '(success, data, v, isNewest) := storage_get tableId key s storage in
  0 ≤ v < 2 ^ 64 → Z.of_nat (length data) + 16 < 2 ^ 32 →
  ∃ resp,
    handleGet request mSnapshots storage = (Handled resp, m', storage) ∧
    responseType resp = GET ∧
    messageLength resp = 16 + Z.of_nat (length data) ∧
    Z.of_nat (length (payload resp)) = messageLength resp ∧
    let r0 := mkReader (payload resp) 0 in
    fst (read_u64 r0) = v ∧
    fst (read_u8 (snd (read_u64 r0))) = (if isNewest then 1 else 0) ∧
    let r2 := Server.align 4 (snd (read_u8 (snd (read_u64 r0)))) in
    fst (read_u32 r2) = Z.of_nat (length data) ∧
    fst (read (Z.of_nat (length data)) (snd (read_u32 r2))) = data.
Proof.
  intros Hpos tableId key snapshotPart Hr.
  destruct (storage_get tableId key s storage) as [[[success data] v] isNewest] eqn:Eg.
  intros Hv Hsz.
  assert (handleGet request mSnapshots storage
          = run_handler
              (handleSnapshot version deserialize snapshotPart
                 (λ snapshot storage,
                    let '(success, data, v, isNewest) :=
                      storage_get tableId key snapshot storage in
                    let size := Z.of_nat (length data) in
                    (mkResponse GET (wrap32 (2 * 8 + size))
                       (let message :=
                          write_u32 size
                            (walign 4 (write_u8 (if isNewest then 1 else 0)
                                         (write_u64 v []))) in
                        if size >? 0 then write data size message else message),
                     storage))
                 mSnapshots) storage) as ->.
  { unfold handleGet, read_u64. cbn [pos bytes]. rewrite Hpos. reflexivity. }
  rewrite (handleSnapshot_resolved _ _ _ _ _ Hr). cbn [run_handler].
  rewrite Eg. cbv zeta. eexists. split; [reflexivity|]. cbn [responseType messageLength payload].
  set (size := Z.of_nat (length data)).
  assert (walign 4 (write_u8 (if isNewest then 1 else 0) (write_u64 v []))
          = le_encode 8 v ++ [if isNewest then 1 else 0] ++ [0; 0; 0]) as Hal.
  { unfold walign, write_u8, write_u64.
    rewrite app_nil_l, length_app, !le_encode_length, <- app_assoc.
    by destruct isNewest. }
  rewrite Hal.
  assert (∀ w : buffer_writer,
            (if size >? 0 then write data size w else w) = w ++ data) as Hw.
  { intros w. unfold write, size. rewrite Nat2Z.id, firstn_all.
    destruct (Z.of_nat (length data) >? 0) eqn:E; [done|].
    assert (data = []) as ->.
    { destruct data as [|d ds]; [done|]. exfalso.
      rewrite Z.gtb_ltb in E. apply Z.ltb_ge in E. simpl length in E. lia. }
    by rewrite app_nil_r. }
  rewrite Hw. unfold write_u32. rewrite <- !app_assoc.
  split_and!.
  - done.
  - apply wrap32_small. unfold size in *. lia.
  - rewrite wrap32_small by (unfold size in *; lia).
    rewrite !length_app, !le_encode_length. simpl. unfold size. lia.
  - unfold read_u64. cbn [fst pos].
    apply (le_bytes_encode 8 v [] _ 0). simpl. lia.
  - unfold read_u64, read_u8, byte_at. cbn [fst snd pos bytes].
    rewrite lookup_app_r by (rewrite le_encode_length; lia).
    rewrite le_encode_length. by destruct isNewest.
  - unfold read_u64, read_u8, read_u32, Server.align. cbn [fst snd pos bytes].
    change (Nat.div (0 + 8 + 1 + (4 - 1)) 4 * 4)%nat with 12%nat.
    pose proof (le_bytes_encode 4 size
                  (le_encode 8 v ++ [if isNewest then 1 else 0] ++ [0; 0; 0]) data
                  12) as Hle.
    rewrite !length_app, le_encode_length in Hle. simpl length in Hle.
    rewrite <- !app_assoc in Hle. apply Hle. unfold size. simpl. lia.
  - unfold read_u64, read_u8, read_u32, read, Server.align. cbn [fst snd pos bytes].
    change (Nat.div (0 + 8 + 1 + (4 - 1)) 4 * 4 + 4)%nat with 16%nat.
    unfold size. rewrite Nat2Z.id.
    rewrite !app_assoc, drop_app_length'; [by rewrite firstn_all|].
    rewrite !length_app, !le_encode_length. done.
Qed.

End Handlers.

(** A storage for the examples: one table, the tuples by key.  An insert
    succeeds when the key is new; a get finds the tuple or nothing. *)
Definition example_insert (tableId key size : Z) (data : list Z) (s : WireDescriptor)
    (storage : gmap Z (list Z)) : gmap Z (list Z) * bool :=
  match storage !! key with
  | Some _ => (storage, false)
  | None => (<[key := data]> storage, true)
  end.

Definition example_get (tableId key : Z) (s : WireDescriptor)
    (storage : gmap Z (list Z)) : bool * list Z * Z * bool :=
  match storage !! key with
  | Some data => (true, data, wversion s, true)
  | None => (false, [], 0, false)
  end.

(** Insert of the tuple [9; 9] at key 42 into table 1, result not wanted,
    with the uncached descriptor of version 7. *)
Definition insert_request : buffer_reader :=
  mkReader ([1; 0; 0; 0; 0; 0; 0; 0;  42; 0; 0; 0; 0; 0; 0; 0;
             0; 0; 0; 0;  2; 0; 0; 0;  9; 9; 0; 0; 0; 0; 0; 0]
            ++ [0; 1; 0; 0; 0; 0; 0; 0] ++ descriptor7) 0.

(** Get of key 42 of table 1 with the same descriptor. *)
Definition get_request : buffer_reader :=
  mkReader ([1; 0; 0; 0; 0; 0; 0; 0;  42; 0; 0; 0; 0; 0; 0; 0]
            ++ [0; 1; 0; 0; 0; 0; 0; 0] ++ descriptor7) 0.

Lemma handleInsert_reports_only_on_request_witness :
  let request := insert_request in
  let mSnapshots := (∅ : gmap Z WireDescriptor) in
  let storage := (∅ : gmap Z (list Z)) in
  let tableId := le_bytes request 0 8 in
  let key := le_bytes request 8 8 in
  let wantsSucceeded := negb (byte_at request 16 =? 0) in
  let dataLength := le_bytes request 20 4 in
  let data := take (Z.to_nat dataLength) (drop 24 (bytes request)) in
  let snapshotPart := align 8 (mkReader (bytes request) (24 + Z.to_nat dataLength)) in
  (misuse wversion deserialize_wire snapshotPart mSnapshots →
   handleInsert wversion deserialize_wire example_insert request mSnapshots storage
   = (ErrorResponse invalid_snapshot, mSnapshots, storage)) ∧
  (∀ s m', resolved wversion deserialize_wire snapshotPart mSnapshots s m' →
     let '(storage', result) := example_insert tableId key dataLength data s storage in
     handleInsert wversion deserialize_wire example_insert request mSnapshots storage
     = (Handled (mkResponse MODIFICATION 1 [if wantsSucceeded && result then 1 else 0]),
        m', storage')).
Proof.
  apply (handleInsert_reports_only_on_request wversion deserialize_wire example_insert
           insert_request ∅ ∅).
  reflexivity.
Defined.

(** The insert is carried out and the answer is 0; the get that follows
    finds the tuple. *)
Example insert_then_get :
  handleInsert wversion deserialize_wire example_insert insert_request ∅ ∅
  = (Handled (mkResponse MODIFICATION 1 [0]), ∅, {[42 := [9; 9]]}) ∧
  handleGet wversion deserialize_wire example_get get_request ∅ {[42 := [9; 9]]}
  = (Handled (mkResponse GET 18
                [7; 0; 0; 0; 0; 0; 0; 0;  1; 0; 0; 0;  2; 0; 0; 0;  9; 9]),
     ∅, {[42 := [9; 9]]}).
Proof. split; vm_compute; reflexivity. Qed.

Lemma handleGet_writes_what_it_allocates_witness :
  let request := get_request in
  let storage := ({[42 := [9; 9]]} : gmap Z (list Z)) in
  let s := deserialize_wire (body (mkReader (bytes request) 16)) in
  let '(success, data, v, isNewest) :=
    example_get (le_bytes request 0 8) (le_bytes request 8 8) s storage in
  ∃ resp,
    handleGet wversion deserialize_wire example_get request ∅ storage
    = (Handled resp, ∅, storage) ∧
    responseType resp = GET ∧
    messageLength resp = 16 + Z.of_nat (length data) ∧
    Z.of_nat (length (payload resp)) = messageLength resp ∧
    let r0 := mkReader (payload resp) 0 in
    fst (read_u64 r0) = v ∧
    fst (read_u8 (snd (read_u64 r0))) = (if isNewest then 1 else 0) ∧
    let r2 := align 4 (snd (read_u8 (snd (read_u64 r0)))) in
    fst (read_u32 r2) = Z.of_nat (length data) ∧
    fst (read (Z.of_nat (length data)) (snd (read_u32 r2))) = data.
Proof.
  pose proof (handleGet_writes_what_it_allocates wversion deserialize_wire example_get
                get_request ∅ {[42 := [9; 9]]}
                (deserialize_wire (body (mkReader (bytes get_request) 16))) ∅
                eq_refl) as H.
  cbv zeta in H.
  assert (resolved wversion deserialize_wire (mkReader (bytes get_request) 16) ∅
            (deserialize_wire (body (mkReader (bytes get_request) 16))) ∅) as Hr.
  { right. right. split_and!; reflexivity. }
  specialize (H Hr). cbv zeta.
  destruct (example_get (le_bytes get_request 0 8) (le_bytes get_request 8 8)
              (deserialize_wire (body (mkReader (bytes get_request) 16)))
              {[42 := [9; 9]]}) as [[[success data] v] isNewest] eqn:E.
  vm_compute in E. injection E as <- <- <- <-.
  apply H; simpl; lia.
Defined.

(** *** Scans *)

Section Scans.

Context {SnapshotDescriptor Storage MessageId : Type}.
Variable version : SnapshotDescriptor → Z.
Variable deserialize : buffer_reader → SnapshotDescriptor.

(** What the handler hands to the constructor of [ServerScanQuery], without
    the collaborators (the record of the table, the scan buffer manager, the
    socket).  [scanSnapshot] is the copy that [SnapshotDescriptor::create]
    makes of the resolved snapshot. *)
Record ServerScanQuery := mkScanQuery {
  scanId : Z;
  messageId : MessageId;
  queryType : Z;
  selection : list Z;
  query : list Z;
  scanSnapshot : SnapshotDescriptor;
  remoteRegion : Z * Z * Z
}.

(** [Storage::scan(tableId, scanData)]: the storage after the call and
    whether the scan was accepted. *)
Variable storage_scan : Z → ServerScanQuery → Storage → Storage * bool.

(** [ServerSocket::handleScan]: the error written, if any (a scan that was
    accepted is answered later, by [onWrite]), the snapshot cache, [mScans]
    and the storage. *)
Definition handleScan (mid : MessageId) (request : buffer_reader)
    (mSnapshots : gmap Z SnapshotDescriptor) (mScans : gmap Z ServerScanQuery)
    (storage : Storage)
    : option error * gmap Z SnapshotDescriptor * gmap Z ServerScanQuery * Storage :=
  let '(tableId, request) := read_u64 request in
  let '(sid, request) := read_u16 request in
  let request := align 8 request in
  let '(remoteAddress, request) := read_u64 request in
  let '(remoteLength, request) := read_u64 request in
  let '(remoteKey, request) := read_u32 request in
  let '(selectionLength, request) := read_u32 request in
  let '(selectionData, request) := read selectionLength request in
  let '(qt, request) := read_u8 request in
  let request := align 4 request in
  let '(queryLength, request) := read_u32 request in
  let '(queryData, request) := read queryLength request in
  let request := align 8 request in
  match
    handleSnapshot version deserialize request
      (λ snapshot (mScans : gmap Z ServerScanQuery) (storage : Storage),
         let scanData :=
           mkScanQuery sid mid qt selectionData queryData snapshot
             (remoteAddress, remoteLength, remoteKey) in
         match mScans !! sid with
         | Some _ => (Some invalid_scan, mScans, storage)
         | None =>
             let mScans := <[sid := scanData]> mScans in
             let '(storage, succeeded) := storage_scan tableId scanData storage in
             if succeeded then (None, mScans, storage)
             else (Some server_overlad, delete sid mScans, storage)
         end)
      mSnapshots
  with
  | (ErrorResponse ec, m) => (Some ec, m, mScans, storage)
  | (Handled k, m) => let '(e, scans, storage) := k mScans storage in (e, m, scans, storage)
  end.

(** [ScanStatusIndicator::ONGOING] and [DONE] (tellstore/MessageTypes.hpp)
    and [InfinibandBuffer::INVALID_ID] are declared outside the sources. *)
Variable ONGOING DONE INVALID_ID : Z.

(** What [onWrite] leaves behind: whether it went to [handleSocketError],
    the responses written, [mScans] and the buffers given back to the scan
    buffer manager. *)
Record WriteResult := mkWriteResult {
  socketError : bool;
  responses : list (MessageId * Response);
  scans : gmap Z ServerScanQuery;
  released : list Z
}.

(** [ServerSocket::onWrite] *)
Definition onWrite (userId bufferId : Z) (ec : bool)
    (mScans : gmap Z ServerScanQuery) (buffers : list Z) : WriteResult :=
  if ec then mkWriteResult true [] mScans buffers
  else
    let buffers := if negb (bufferId =? INVALID_ID) then bufferId :: buffers
                   else buffers in
    let status := Z.land userId 65535 in
    if status =? ONGOING then mkWriteResult false [] mScans buffers
    else if status =? DONE then
      let sid := Z.land (Z.shiftr userId 16) 65535 in
      match mScans !! sid with
      | None => mkWriteResult false [] mScans buffers
      | Some q =>
          mkWriteResult false
            [(messageId q, mkResponse SCAN 2 (write_u16 sid []))]
            (delete sid mScans) buffers
      end
    else mkWriteResult false [] mScans buffers.

(** X15.  A scan is registered under its id only while it runs.  The
    handler takes the table at offset 0, the scan id at 8, the remote region
    at 16, the selection at 36, then the query type, the query and the
    snapshot part.  With the snapshot part served: a request whose id is
    already registered is answered with invalid-scan and changes neither
    [mScans] nor the storage; a request with a free id is handed to the
    storage with the fields of the request, and is registered without an
    answer if the storage accepts it, or answered with the overload error
    and not registered if it does not. *)
Theorem handleScan_registers_free_ids (mid : MessageId) (request : buffer_reader)
    (mSnapshots : gmap Z SnapshotDescriptor) (mScans : gmap Z ServerScanQuery)
    (storage : Storage) s m' :
  pos request = 0%nat →
  let tableId := le_bytes request 0 8 in
  let sid := le_bytes request 8 2 in
  let remote := (le_bytes request 16 8, le_bytes request 24 8, le_bytes request 32 4) in
  let selectionLength := le_bytes request 36 4 in
  let selectionData := take (Z.to_nat selectionLength) (drop 40 (bytes request)) in
  let typeAt := (40 + Z.to_nat selectionLength)%nat in
  let lengthAt := pos (align 4 (mkReader (bytes request) (typeAt + 1))) in
  let queryLength := le_bytes request lengthAt 4 in
  let queryData := take (Z.to_nat queryLength) (drop (lengthAt + 4) (bytes request)) in
  let snapshotPart :=
    align 8 (mkReader (bytes request) (lengthAt + 4 + Z.to_nat queryLength)) in
  resolved version deserialize snapshotPart mSnapshots s m' →
  let q := mkScanQuery sid mid (byte_at request typeAt) selectionData queryData s
             remote in
  (is_Some (mScans !! sid) →
   handleScan mid request mSnapshots mScans storage
   = (Some invalid_scan, m', mScans, storage)) ∧
  (mScans !! sid = None →
   let '(storage', accepted) := storage_scan tableId q storage in
   handleScan mid request mSnapshots mScans storage
   = if accepted then (None, m', <[sid := q]> mScans, storage')
     else (Some server_overlad, m', mScans, storage')).
Proof.
  intros Hpos tableId sid remote selectionLength selectionData typeAt lengthAt
    queryLength queryData snapshotPart Hr q.
  assert (handleScan mid request mSnapshots mScans storage
          = match
              handleSnapshot version deserialize snapshotPart
                (λ snapshot (mScans : gmap Z ServerScanQuery) (storage : Storage),
                   let scanData :=
                     mkScanQuery sid mid (byte_at request typeAt) selectionData
                       queryData snapshot remote in
                   match mScans !! sid with
                   | Some _ => (Some invalid_scan, mScans, storage)
                   | None =>
                       let mScans := <[sid := scanData]> mScans in
                       let '(storage, succeeded) :=
                         storage_scan tableId scanData storage in
                       if succeeded then (None, mScans, storage)
                       else (Some server_overlad, delete sid mScans, storage)
                   end)
                mSnapshots
            with
            | (ErrorResponse ec, m) => (Some ec, m, mScans, storage)
            | (Handled k, m) =>
                let '(e, scans, storage) := k mScans storage in (e, m, scans, storage)
            end) as ->.
  { unfold handleScan, read_u64, read_u16, read_u32, read_u8, read.
    cbn [pos bytes align]. rewrite Hpos. reflexivity. }
  rewrite (handleSnapshot_resolved _ _ _ _ _ _ _ Hr). fold q. split.
  - intros [old Hold]. by rewrite Hold.
  - intros Hfree. rewrite Hfree. cbv zeta.
    destruct (storage_scan tableId q storage) as [storage' accepted].
    destruct accepted; [done|]. by rewrite delete_insert_id.
Qed.

(** X16.  The end of a scan.  [onWrite] takes the status from the low 16
    bits of [userId] and the scan id from the next 16.  A write that failed
    goes to the socket error handler and changes nothing: the buffer is not
    given back and the scan stays registered.  Otherwise the buffer is given
    back unless its id is the invalid one, and on DONE for a registered scan
    the scan response, the two bytes of the id, is written to the message
    that started the scan and the id is free again; a second DONE for the
    same id writes nothing. *)
Theorem onWrite_answers_a_scan_once (sid bufferId : Z) (q : ServerScanQuery)
    (mScans : gmap Z ServerScanQuery) (buffers : list Z) :
  ONGOING ≠ DONE → 0 ≤ DONE < 2 ^ 16 → 0 ≤ sid < 2 ^ 16 →
  mScans !! sid = Some q →
  let userId := sid * 2 ^ 16 + DONE in
  let given := if bufferId =? INVALID_ID then buffers else bufferId :: buffers in
  onWrite userId bufferId true mScans buffers = mkWriteResult true [] mScans buffers ∧
  onWrite userId bufferId false mScans buffers
  = mkWriteResult false [(messageId q, mkResponse SCAN 2 (le_encode 2 sid))]
      (delete sid mScans) given ∧
  onWrite userId INVALID_ID false (delete sid mScans) given
  = mkWriteResult false [] (delete sid mScans) given.
Proof.
  intros Hne Hd Hs Hq userId given.
  assert (Z.land userId 65535 = DONE) as Hst.
  { change 65535 with (Z.ones 16). rewrite Z.land_ones by lia. unfold userId.
    rewrite Z.add_comm, Z.mod_add by lia. apply Z.mod_small. lia. }
  assert (Z.land (Z.shiftr userId 16) 65535 = sid) as Hid.
  { change 65535 with (Z.ones 16). rewrite Z.land_ones, Z.shiftr_div_pow2 by lia.
    unfold userId. rewrite Z.add_comm, Z.div_add by lia.
    rewrite Z.div_small by lia. apply Z.mod_small. lia. }
  unfold onWrite. cbn [negb]. rewrite Hst, Hid, Z.eqb_refl.
  replace (DONE =? ONGOING) with false by (symmetry; apply Z.eqb_neq; lia).
  rewrite Hq, lookup_delete_eq, Z.eqb_refl. unfold given, write_u16.
  destruct (bufferId =? INVALID_ID); simpl; done.
Qed.

End Scans.

(** *** Connections *)

(** What [createConnection] does: it throws [std::logic_error], or
    [mProcessors.at] throws [std::out_of_range], or the new socket runs on a
    processor.  With no processor the index [thread % 0] is undefined. *)
Inductive Connection (P : Type) :=
| LogicError
| OutOfRange
| Undefined
| Connected (processor : P).
Arguments LogicError {P}.
Arguments OutOfRange {P}.
Arguments Undefined {P}.
Arguments Connected {P} processor.

(** [ServerManager::createConnection] *)
Definition createConnection {P : Type} (mProcessors : list P) (data : list Z)
    : Connection P :=
  if (length data <? 8)%nat then LogicError
  else
    let thread := le_bytes (mkReader data 0) 0 8 in
    if (length mProcessors =? 0)%nat then Undefined
    else
      match mProcessors !! Z.to_nat (thread `mod` Z.of_nat (length mProcessors)) with
      | Some p => Connected p
      | None => OutOfRange
      end.

(** X17.  A connection always lands on an existing processor.  With at
    least one processor and at least the 8 bytes of the thread number in the
    connection data, [createConnection] never throws: the socket runs on the
    processor whose index is the thread number modulo the number of
    processors.  With fewer than 8 bytes it throws the logic error, whatever
    the processors. *)
Theorem createConnection_picks_a_processor {P : Type} (mProcessors : list P)
    (data : list Z) :
  ((length data < 8)%nat → createConnection mProcessors data = LogicError) ∧
  ((8 ≤ length data)%nat → mProcessors ≠ [] →
   let thread := le_bytes (mkReader data 0) 0 8 in
   ∃ p, createConnection mProcessors data = Connected p ∧
        mProcessors !! Z.to_nat (thread `mod` Z.of_nat (length mProcessors)) = Some p).
Proof.
  unfold createConnection. split.
  - intros H. apply Nat.ltb_lt in H. by rewrite H.
  - intros H Hne. apply Nat.ltb_ge in H. rewrite H.
    set (thread := le_bytes (mkReader data 0) 0 8).
    assert (length mProcessors ≠ 0)%nat as Hl by (by destruct mProcessors).
    apply Nat.eqb_neq in Hl as Hl'. rewrite Hl'. cbv zeta.
    pose proof (Z.mod_pos_bound thread (Z.of_nat (length mProcessors)) ltac:(lia)) as Hb.
    destruct (lookup_lt_is_Some_2 mProcessors
                (Z.to_nat (thread `mod` Z.of_nat (length mProcessors))) ltac:(lia))
      as [p Hp].
    rewrite Hp. by exists p.
Qed.

(** A scan of table 1 with id 3: remote region (4096, 64, 5), selection
    [1; 2], query type 1, query [7; 8; 9], and the uncached descriptor of
    version 7. *)
Definition scan_request : buffer_reader :=
  mkReader ([1; 0; 0; 0; 0; 0; 0; 0;  3; 0;  0; 0; 0; 0; 0; 0;
             0; 16; 0; 0; 0; 0; 0; 0;  64; 0; 0; 0; 0; 0; 0; 0;
             5; 0; 0; 0;  2; 0; 0; 0;  1; 2;  1;  0;
             3; 0; 0; 0;  7; 8; 9;  0; 0; 0; 0; 0]
            ++ [0; 1; 0; 0; 0; 0; 0; 0] ++ descriptor7) 0.

(** A storage for the examples that runs at most two scans. *)
Definition ExampleScan : Type :=
  ServerScanQuery (SnapshotDescriptor := WireDescriptor) (MessageId := Z).

Definition example_scan (tableId : Z) (q : ExampleScan) (running : list Z)
    : list Z * bool :=
  if (length running <? 2)%nat then (scanId q :: running, true) else (running, false).

Definition scan3 : ExampleScan :=
  mkScanQuery 3 100 1 [1; 2] [7; 8; 9] (mkWire 5 6 7 0 []) (4096, 64, 5).

Lemma handleScan_registers_free_ids_witness :
  let request := scan_request in
  let mScans := (∅ : gmap Z ExampleScan) in
  let storage := ([] : list Z) in
  (is_Some (mScans !! 3) →
   handleScan wversion deserialize_wire example_scan 100 request ∅ mScans storage
   = (Some invalid_scan, ∅, mScans, storage)) ∧
  (mScans !! 3 = None →
   let '(storage', accepted) := example_scan 1 scan3 storage in
   handleScan wversion deserialize_wire example_scan 100 request ∅ mScans storage
   = if accepted then (None, ∅, <[3 := scan3]> mScans, storage')
     else (Some server_overlad, ∅, mScans, storage')).
Proof.
  apply (handleScan_registers_free_ids wversion deserialize_wire example_scan 100
           scan_request ∅ ∅ [] (mkWire 5 6 7 0 []) ∅ eq_refl).
  right. right. split_and!; reflexivity.
Defined.

(** The scan is registered without an answer; the same request again is
    refused; DONE (taken as 2, with ONGOING as 1) for scan 3 answers message
    100 and frees the id. *)
Example scan_life :
  handleScan wversion deserialize_wire example_scan 100 scan_request ∅ ∅ []
  = (None, ∅, {[3 := scan3]}, [3]) ∧
  handleScan wversion deserialize_wire example_scan 101 scan_request ∅
    {[3 := scan3]} [3]
  = (Some invalid_scan, ∅, {[3 := scan3]}, [3]) ∧
  onWrite 1 2 65535 (3 * 65536 + 2) 9 false {[3 := scan3]} []
  = mkWriteResult false [(100, mkResponse SCAN 2 [3; 0])] ∅ [9].
Proof. split_and!; vm_compute; reflexivity. Qed.

Lemma onWrite_answers_a_scan_once_witness :
  let mScans := ({[3 := scan3]} : gmap Z ExampleScan) in
  let userId := 3 * 2 ^ 16 + 2 in
  let given := if 9 =? 65535 then [] else [9] in
  onWrite 1 2 65535 userId 9 true mScans [] = mkWriteResult true [] mScans [] ∧
  onWrite 1 2 65535 userId 9 false mScans []
  = mkWriteResult false [(messageId scan3, mkResponse SCAN 2 (le_encode 2 3))]
      (delete 3 mScans) given ∧
  onWrite 1 2 65535 userId 65535 false (delete 3 mScans) given
  = mkWriteResult false [] (delete 3 mScans) given.
Proof.
  apply (onWrite_answers_a_scan_once 1 2 65535 3 9 scan3 {[3 := scan3]} []);
    try lia; reflexivity.
Defined.

Lemma createConnection_picks_a_processor_witness :
  let mProcessors := [10; 11; 12] in
  let data := [7; 0; 0; 0; 0; 0; 0; 0; 99] in
  ((length data < 8)%nat → createConnection mProcessors data = LogicError) ∧
  ((8 ≤ length data)%nat → mProcessors ≠ [] →
   let thread := le_bytes (mkReader data 0) 0 8 in
   ∃ p, createConnection mProcessors data = Connected p ∧
        mProcessors !! Z.to_nat (thread `mod` Z.of_nat (length mProcessors)) = Some p).
Proof.
  exact (createConnection_picks_a_processor [10; 11; 12] [7; 0; 0; 0; 0; 0; 0; 0; 99]).
Defined.

(** Thread 7 of three processors runs on the second one; seven bytes are
    not enough. *)
Example createConnection_examples :
  createConnection [10; 11; 12] [7; 0; 0; 0; 0; 0; 0; 0; 99] = Connected 11 ∧
  createConnection [10; 11; 12] [7; 0; 0; 0; 0; 0; 0] = LogicError.
Proof. split; reflexivity. Qed.

End Server.

(** ** deltamain/colstore/ColumnMapPage.cpp: the shared memory *)

Module DeltaMain.

(** Modelled from the spec: the tag in the two low bits of [newest]
    (NewestPointerTag is declared in a header that is not among the
    sources; section 3 lists the tags Delta, Main, Invalid, Reserved in this
    order).  An untagged word is a pointer into the update log, or zero. *)
Definition UPDATE : Z := 0.
Definition MAIN : Z := 1.
Definition INVALID : Z := 2.

Definition tagOf (w : Z) : Z := Z.land w 3.

(** [RecordType::DATA] and [RecordType::DELETE] of an update log entry. *)
Inductive RecordType := DATA | DELETE.

Global Instance RecordType_eq_dec : EqDecision RecordType.
Proof. solve_decision. Defined.

(** An entry of the update log, as the compactor reads it: [key], [version],
    [previous] of UpdateLogEntry, [type()] and [size()] of its LogEntry
    header. *)
Record UpdateLogEntry := mkUpdate {
  ukey : Z;
  uversion : Z;
  previous : Z;
  utype : RecordType;
  usize : Z
}.

(** Modelled from the spec: the layout of a main entry (ColumnMapPage.hpp is
    not among the sources; section 3 gives the per-row entry as key, version
    and the atomic [newest]), 8 bytes each.  [newestOf p] is [&p->newest]. *)
Definition newestOf (entry : Z) : Z := entry + 16.

(** The memory the compactor shares with the writers: the atomic [newest]
    words by address, the update log by address, the end of the log.
    [history] is a ghost record of the deltas that writers have published
    ([slot], entry), newest first. *)
Record Shared := mkShared {
  mem : gmap Z Z;
  log : gmap Z UpdateLogEntry;
  logHead : Z;
  history : list (Z * Z)
}.

(** [atomic.load()] *)
Definition load (sh : Shared) (p : Z) : Z := default 0 (mem sh !! p).

(** [atomic.store(v)] *)
Definition store (p v : Z) (sh : Shared) : Shared :=
  mkShared (<[p := v]> (mem sh)) (log sh) (logHead sh) (history sh).

(** [atomic.compare_exchange_strong(expected, desired)]: whether it
    succeeded, the value left in [expected], the memory. *)
Definition compare_exchange_strong (p expected desired : Z) (sh : Shared)
    : bool * Z * Shared :=
  if load sh p =? expected then (true, expected, store p desired sh)
  else (false, load sh p, sh).

(** A writer publishes a delta for the record whose [newest] lives at
    [slot]. *)
Record Arrival := mkArrival {
  slot : Z;
  akey : Z;
  aversion : Z;
  atype : RecordType;
  asize : Z
}.

(** Modelled from the spec: the write path of section 4.4 and the log
    append of section 4.2 (the writers are not among the sources).  The
    writer appends an entry at the 8-byte aligned end of the log, sets its
    [previous] to the head it observed and swings [newest] to it by CAS; the
    successful CAS is the atomic step modelled here.  A record whose
    [newest] carries the Main or Invalid tag takes no delta at this word. *)
Definition arrive (a : Arrival) (sh : Shared) : Shared :=
  let head := load sh (slot a) in
  if tagOf head =? UPDATE then
    let e := logHead sh in
    mkShared (<[slot a := e]> (mem sh))
             (<[e := mkUpdate (akey a) (aversion a) head (atype a) (asize a)]> (log sh))
             (e + 8 * (1 + Z.max 0 (asize a) `div` 8))
             ((slot a, e) :: history sh)
  else sh.

(** What the writers do between two atomic accesses of the compactor. *)
Abbreviation Burst := (list Arrival).
Abbreviation Env := (list (list Arrival)).

Definition run_burst (b : Burst) (sh : Shared) : Shared :=
  foldl (λ sh a, arrive a sh) sh b.

(** The compactor reaches its next atomic access: the writers' next burst
    happens first.  Once the list is used up the writers are silent. *)
Definition interfere (env : Env) (sh : Shared) : Shared * Env :=
  match env with
  | [] => (sh, [])
  | b :: env' => (run_burst b sh, env')
  end.

(** The deltas published at [slot], newest first. *)
Definition arrivals (sh : Shared) (p : Z) : list Z :=
  (filter (λ x, fst x = p) (history sh)).*2.

(** [e] is on the chain that starts at [h] and follows [previous]. *)
Inductive Reach (lg : gmap Z UpdateLogEntry) : Z → Z → Prop :=
| Reach_here h : Reach lg h h
| Reach_step h u e :
    lg !! h = Some u → Reach lg (previous u) e → Reach lg h e.

(** A deferred CAS: [ptr] is the address of the source record's [newest],
    [expected] the head that was snapshotted, [desired] the new main
    entry. *)
Record PointerAction := mkPointerAction {
  ptr : Z;
  expected : Z;
  desired : Z
}.

(** The loop of flushFillPage over one pointer action:
[[
    auto desired = reinterpret_cast<uintptr_t>(action.desired) | MAIN;
    while (!action.ptr->compare_exchange_strong(action.expected, desired)) {
        action.desired->newest.store(action.expected);
    }
]]
    The writers may run before the CAS and before the store. *)
Fixpoint adjustNewest (fuel : nat) (env : Env) (action : PointerAction)
    (sh : Shared) : option (Shared * Env) :=
  match fuel with
  | O => None
  | S fuel' =>
      let '(sh, env) := interfere env sh in
      let desiredWord := Z.lor (desired action) MAIN in
      match compare_exchange_strong (ptr action) (expected action) desiredWord sh with
      | (true, _, sh) => Some (sh, env)
      | (false, observed, sh) =>
          let '(sh, env) := interfere env sh in
          let sh := store (newestOf (desired action)) observed sh in
          adjustNewest fuel' env
            (mkPointerAction (ptr action) observed (desired action)) sh
      end
  end.

(** [for (auto& action : mPointerActions) ...] *)
Fixpoint adjustAll (fuel : nat) (env : Env) (actions : list PointerAction)
    (sh : Shared) : option (Shared * Env) :=
  match actions with
  | [] => Some (sh, env)
  | a :: rest =>
      match adjustNewest fuel env a sh with
      | None => None
      | Some (sh, env) => adjustAll fuel env rest sh
      end
  end.

(** *** The publish loop carries the delta chain forward *)







Lemma arrivals_cons_eq sh p e h :
  arrivals (mkShared (mem sh) (log sh) (logHead sh) ((p, e) :: h)) p
  = e :: arrivals (mkShared (mem sh) (log sh) (logHead sh) h) p.
Proof. unfold arrivals. simpl. rewrite filter_cons_True; done. Qed.










(** The state in which the loop of one pointer action ends. *)
Record published (a : PointerAction) (sh : Shared) : Prop := mkPublished {
  pub_main : load sh (ptr a) = Z.lor (desired a) MAIN;
  pub_reach : ∀ e, e ∈ arrivals sh (ptr a) →
                Reach (log sh) (load sh (newestOf (desired a))) e;
  pub_head : ∀ e rest, arrivals sh (ptr a) = e :: rest →
               load sh (newestOf (desired a)) = e
}.



(** *** All pointer actions of a flush *)














(** One failed CAS: the observed head goes into the new entry's [newest],
    and the loop goes on with the observed head as [expected]. *)
Lemma adjustNewest_failure fuel action sh :
  load sh (ptr action) ≠ expected action →
  adjustNewest (S fuel) [] action sh
  = adjustNewest fuel []
      (mkPointerAction (ptr action) (load sh (ptr action)) (desired action))
      (store (newestOf (desired action)) (load sh (ptr action)) sh).
Proof.
  intros Hne. simpl. unfold compare_exchange_strong.
  apply Z.eqb_neq in Hne. by rewrite Hne.
Qed.


(** One source record at word 1000 whose head is the log entry 64; the new
    main entry is at 5000.  A writer publishes a delta (at 128) before the
    first CAS and another (at 144) before the store. *)
Definition shared_example : Shared :=
  mkShared {[1000 := 64]} {[64 := mkUpdate 7 10 0 DATA 8]} 128 [].

Definition env_example : Env :=
  [[mkArrival 1000 7 20 DATA 8]; [mkArrival 1000 7 30 DELETE 0]].


Example publish_example :
  match adjustAll 4 env_example [mkPointerAction 1000 64 5000] shared_example with
  | Some (sh', _) =>
      load sh' 1000 = 5001 ∧ load sh' (newestOf 5000) = 144 ∧
      arrivals sh' 1000 = [144; 128] ∧
      previous <$> log sh' !! 144 = Some 128 ∧
      previous <$> log sh' !! 128 = Some 64
  | None => False
  end.
Proof. vm_compute. repeat split. Qed.

End DeltaMain.

(** ** Revert on a delta chain *)

Module Revert.

(** Modelled from the spec: the log entry of section 3 with the reverted
    bit of section 4.4 (deltamain/Record.hpp only declares
    [void revert(uint64_t version)] under a TODO; the implementation and
    the Storage it is called on are not among the sources). *)
Inductive Kind := Insert | Update | Delete.

Record LogEntry := mkEntry {
  kind : Kind;
  version : Z;
  reverted : bool;
  payload : list Z
}.

(** Modelled from the spec: the snapshot of the glossary.  A version is
    visible iff it is at most [version] and not in flight. *)
Record Snapshot := mkSnapshot {
  sversion : Z;
  inFlight : list Z
}.

Definition visible (S : Snapshot) (v : Z) : bool :=
  (v <=? sversion S) && negb (bool_decide (v ∈ inFlight S)).

Inductive GetResult :=
| NotFound
| Found (v : Z) (data : list Z).

(** Modelled from the spec: the read path of section 4.4 over the versions
    of one record, newest first (the delta chain, then the main), skipping
    reverted entries. *)
Fixpoint get (S : Snapshot) (chain : list LogEntry) : GetResult :=
  match chain with
  | [] => NotFound
  | e :: rest =>
      if reverted e then get S rest
      else if visible S (version e) then
        match kind e with
        | Delete => NotFound
        | _ => Found (version e) (payload e)
        end
      else get S rest
  end.

Definition mark (e : LogEntry) : LogEntry :=
  mkEntry (kind e) (version e) true (payload e).

(** Modelled from the spec: revert(version) marks the log entry at
    [version] as reverted and returns false if there is nothing to
    revert. *)
Fixpoint revert (v : Z) (chain : list LogEntry) : list LogEntry * bool :=
  match chain with
  | [] => ([], false)
  | e :: rest =>
      if (version e =? v) && negb (reverted e) then (mark e :: rest, true)
      else let '(rest', ok) := revert v rest in (e :: rest', ok)
  end.







(** Scenario E5: the key was inserted at version 40 and updated at version
    50; the update is reverted; a snapshot at version 60 reads the value of
    version 40. *)
Definition chain_e5 : list LogEntry :=
  [mkEntry Update 50 false [2]; mkEntry Insert 40 false [1]].


Example revert_e5 :
  get (mkSnapshot 60 []) chain_e5 = Found 50 [2] ∧
  revert 50 chain_e5
    = ([mkEntry Update 50 true [2]; mkEntry Insert 40 false [1]], true) ∧
  get (mkSnapshot 60 []) (fst (revert 50 chain_e5)) = Found 40 [1] ∧
  revert 45 chain_e5 = (chain_e5, false) ∧
  revert 50 (fst (revert 50 chain_e5)) = (fst (revert 50 chain_e5), false).
Proof. repeat split. Qed.

End Revert.

(** ** deltamain/colstore/ColumnMapPage.cpp: the page modifier *)

Module ColumnMap.
Import DeltaMain.

(** The values of ColumnMapContext that the modifier reads
    (ColumnMapContext.hpp is not among the sources), and
    [sizeof(UpdateLogEntry)]. *)
Record ColumnMapContext := mkContext {
  entryOverhead : Z;
  fixedSize : Z;
  MAX_DATA_SIZE : Z;
  sizeofUpdateLogEntry : Z
}.

Definition UINT64_MAX : Z := 2 ^ 64 - 1.
Definition TELL_PAGE_SIZE : Z := 2097152.

(** A row of [entries[]]: key and version.  The atomic [newest] of the row
    lives in the shared memory, at [newestOf] of the row's address. *)
Record ColumnMapMainEntry := mkEntry {
  key : Z;
  version : Z
}.

(** A main page: its address, [entries[]] and [sizes[]].  [count] is the
    number of rows.  The record data columns and the variable-size heap are
    not part of the model: no statement below reads a payload. *)
Record ColumnMapMainPage := mkPage {
  base : Z;
  entries : list ColumnMapMainEntry;
  sizes : list Z
}.

Definition count (page : ColumnMapMainPage) : nat := length (entries page).

Definition entryAt (page : ColumnMapMainPage) (i : nat) : ColumnMapMainEntry :=
  default (mkEntry 0 0) (entries page !! i).

Definition sizeAt (page : ColumnMapMainPage) (i : nat) : Z :=
  default 0 (sizes page !! i).

(** Modelled from the spec: the page layout of section 6, the header
    [count] (padded to 8 bytes) followed by the entries of 24 bytes.
    [entryPtr b i] is [entryData() + i] of the page at [b]. *)
Definition entryPtr (b : Z) (i : Z) : Z := b + 8 + 24 * i.

(** [&entries[i].newest] of a source page. *)
Definition newestSlot (page : ColumnMapMainPage) (i : nat) : Z :=
  newestOf (entryPtr (base page) (Z.of_nat i)).

(** The page a clean action copies from: a source main page or the update
    page of the modifier. *)
Inductive PageRef :=
| Source (page : ColumnMapMainPage)
| UpdatePage.

(** [CleanAction{page, startIdx, endIdx, offsetCorrection}], without the
    heap offset correction. *)
Record CleanAction := mkCleanAction {
  caPage : PageRef;
  startIdx : Z;
  endIdx : Z
}.

(** The members of ColumnMapPageModifier, with the collaborators it holds by
    reference: the update page ([sizeData()] only), the fill page (address
    and [entryData()]), the hash index view [mMainTableModifier] (key to
    entry address), the page manager (the next page it hands out) and the
    memory shared with the writers.  The counters are [uint32_t].  A page
    array is a map from the index to the value; a word never written reads as
    zero, as the page manager hands out zeroed pages. *)
Record Modifier := mkModifier {
  mUpdateSizes : gmap Z Z;
  mUpdateStartIdx : Z;
  mUpdateEndIdx : Z;
  mUpdateIdx : Z;
  mFillPage : Z;
  mFillEntries : gmap Z ColumnMapMainEntry;
  mFillEndIdx : Z;
  mFillIdx : Z;
  mFillSize : Z;
  mCleanActions : list CleanAction;
  mPointerActions : list PointerAction;
  mPageList : list ColumnMapMainPage;
  mMainTableModifier : gmap Z Z;
  mNextPage : Z;
  shared : Shared
}.

(** Assignments to one member. *)
Definition set_mUpdateSizes (v : gmap Z Z) (st : Modifier) : Modifier :=
  mkModifier v (mUpdateStartIdx st) (mUpdateEndIdx st) (mUpdateIdx st) (mFillPage st) (mFillEntries st) (mFillEndIdx st) (mFillIdx st) (mFillSize st) (mCleanActions st) (mPointerActions st) (mPageList st) (mMainTableModifier st) (mNextPage st) (shared st).
Definition set_mUpdateStartIdx (v : Z) (st : Modifier) : Modifier :=
  mkModifier (mUpdateSizes st) v (mUpdateEndIdx st) (mUpdateIdx st) (mFillPage st) (mFillEntries st) (mFillEndIdx st) (mFillIdx st) (mFillSize st) (mCleanActions st) (mPointerActions st) (mPageList st) (mMainTableModifier st) (mNextPage st) (shared st).
Definition set_mUpdateEndIdx (v : Z) (st : Modifier) : Modifier :=
  mkModifier (mUpdateSizes st) (mUpdateStartIdx st) v (mUpdateIdx st) (mFillPage st) (mFillEntries st) (mFillEndIdx st) (mFillIdx st) (mFillSize st) (mCleanActions st) (mPointerActions st) (mPageList st) (mMainTableModifier st) (mNextPage st) (shared st).
Definition set_mUpdateIdx (v : Z) (st : Modifier) : Modifier :=
  mkModifier (mUpdateSizes st) (mUpdateStartIdx st) (mUpdateEndIdx st) v (mFillPage st) (mFillEntries st) (mFillEndIdx st) (mFillIdx st) (mFillSize st) (mCleanActions st) (mPointerActions st) (mPageList st) (mMainTableModifier st) (mNextPage st) (shared st).
Definition set_mFillPage (v : Z) (st : Modifier) : Modifier :=
  mkModifier (mUpdateSizes st) (mUpdateStartIdx st) (mUpdateEndIdx st) (mUpdateIdx st) v (mFillEntries st) (mFillEndIdx st) (mFillIdx st) (mFillSize st) (mCleanActions st) (mPointerActions st) (mPageList st) (mMainTableModifier st) (mNextPage st) (shared st).
Definition set_mFillEntries (v : gmap Z ColumnMapMainEntry) (st : Modifier) : Modifier :=
  mkModifier (mUpdateSizes st) (mUpdateStartIdx st) (mUpdateEndIdx st) (mUpdateIdx st) (mFillPage st) v (mFillEndIdx st) (mFillIdx st) (mFillSize st) (mCleanActions st) (mPointerActions st) (mPageList st) (mMainTableModifier st) (mNextPage st) (shared st).
Definition set_mFillEndIdx (v : Z) (st : Modifier) : Modifier :=
  mkModifier (mUpdateSizes st) (mUpdateStartIdx st) (mUpdateEndIdx st) (mUpdateIdx st) (mFillPage st) (mFillEntries st) v (mFillIdx st) (mFillSize st) (mCleanActions st) (mPointerActions st) (mPageList st) (mMainTableModifier st) (mNextPage st) (shared st).
Definition set_mFillIdx (v : Z) (st : Modifier) : Modifier :=
  mkModifier (mUpdateSizes st) (mUpdateStartIdx st) (mUpdateEndIdx st) (mUpdateIdx st) (mFillPage st) (mFillEntries st) (mFillEndIdx st) v (mFillSize st) (mCleanActions st) (mPointerActions st) (mPageList st) (mMainTableModifier st) (mNextPage st) (shared st).
Definition set_mFillSize (v : Z) (st : Modifier) : Modifier :=
  mkModifier (mUpdateSizes st) (mUpdateStartIdx st) (mUpdateEndIdx st) (mUpdateIdx st) (mFillPage st) (mFillEntries st) (mFillEndIdx st) (mFillIdx st) v (mCleanActions st) (mPointerActions st) (mPageList st) (mMainTableModifier st) (mNextPage st) (shared st).
Definition set_mCleanActions (v : list CleanAction) (st : Modifier) : Modifier :=
  mkModifier (mUpdateSizes st) (mUpdateStartIdx st) (mUpdateEndIdx st) (mUpdateIdx st) (mFillPage st) (mFillEntries st) (mFillEndIdx st) (mFillIdx st) (mFillSize st) v (mPointerActions st) (mPageList st) (mMainTableModifier st) (mNextPage st) (shared st).
Definition set_mPointerActions (v : list PointerAction) (st : Modifier) : Modifier :=
  mkModifier (mUpdateSizes st) (mUpdateStartIdx st) (mUpdateEndIdx st) (mUpdateIdx st) (mFillPage st) (mFillEntries st) (mFillEndIdx st) (mFillIdx st) (mFillSize st) (mCleanActions st) v (mPageList st) (mMainTableModifier st) (mNextPage st) (shared st).
Definition set_mPageList (v : list ColumnMapMainPage) (st : Modifier) : Modifier :=
  mkModifier (mUpdateSizes st) (mUpdateStartIdx st) (mUpdateEndIdx st) (mUpdateIdx st) (mFillPage st) (mFillEntries st) (mFillEndIdx st) (mFillIdx st) (mFillSize st) (mCleanActions st) (mPointerActions st) v (mMainTableModifier st) (mNextPage st) (shared st).
Definition set_mMainTableModifier (v : gmap Z Z) (st : Modifier) : Modifier :=
  mkModifier (mUpdateSizes st) (mUpdateStartIdx st) (mUpdateEndIdx st) (mUpdateIdx st) (mFillPage st) (mFillEntries st) (mFillEndIdx st) (mFillIdx st) (mFillSize st) (mCleanActions st) (mPointerActions st) (mPageList st) v (mNextPage st) (shared st).
Definition set_mNextPage (v : Z) (st : Modifier) : Modifier :=
  mkModifier (mUpdateSizes st) (mUpdateStartIdx st) (mUpdateEndIdx st) (mUpdateIdx st) (mFillPage st) (mFillEntries st) (mFillEndIdx st) (mFillIdx st) (mFillSize st) (mCleanActions st) (mPointerActions st) (mPageList st) (mMainTableModifier st) v (shared st).
Definition set_shared (v : Shared) (st : Modifier) : Modifier :=
  mkModifier (mUpdateSizes st) (mUpdateStartIdx st) (mUpdateEndIdx st) (mUpdateIdx st) (mFillPage st) (mFillEntries st) (mFillEndIdx st) (mFillIdx st) (mFillSize st) (mCleanActions st) (mPointerActions st) (mPageList st) (mMainTableModifier st) (mNextPage st) v.

Definition inc32 (z : Z) : Z := wrap32 (z + 1).
Definition dec32 (z : Z) : Z := wrap32 (z - 1).

(** The loop variables of [clean]: [i], [mainStartIdx], [mainEndIdx]. *)
Record Loop := mkLoop {
  idx : nat;
  mainStartIdx : nat;
  mainEndIdx : nat
}.

Section Modifier.

Variable ctx : ColumnMapContext.
Variable mMinVersion : Z.

(** UpdateRecordIterator is declared outside the sources: [updateIter log
    newest baseVersion] is the sequence of update entries it yields for the
    chain that starts at [newest]. *)
Variable updateIter : gmap Z UpdateLogEntry → Z → Z → list UpdateLogEntry.

Definition fillEntryAt (st : Modifier) (i : Z) : ColumnMapMainEntry :=
  default (mkEntry 0 0) (mFillEntries st !! i).

(** [new (mFillPage->entryData() + mFillIdx) ColumnMapMainEntry(key, version)] *)
Definition writeFillEntry (k v : Z) (st : Modifier) : Modifier :=
  set_mFillEntries (<[mFillIdx st := mkEntry k v]> (mFillEntries st)) st.

(** [ColumnMapPageModifier::writeUpdate]: the entry in the fill page, the
    size in the update page (0 for a delete), both counters. *)
Definition writeUpdate (e : UpdateLogEntry) (st : Modifier) : Modifier :=
  let st := writeFillEntry (ukey e) (uversion e) st in
  let size := if decide (utype e = DELETE) then 0
              else wrap32 (usize e - sizeofUpdateLogEntry ctx) in
  let st := set_mUpdateSizes (<[mUpdateIdx st := size]> (mUpdateSizes st)) st in
  let st := set_mFillIdx (inc32 (mFillIdx st)) st in
  set_mUpdateIdx (inc32 (mUpdateIdx st)) st.

(** The loop of [ColumnMapPageModifier::processUpdates] over the entries the
    iterator yields.  [lowest] is the iterator's [lowestVersion()], the
    smallest version it has stood on (modelled from the spec, section 4.7
    step 2).  The result is the return value, [lowestVersion], [wasDelete]
    and the modifier. *)
Fixpoint processUpdatesLoop (updates : list UpdateLogEntry) (lowest : Z)
    (wasDelete : bool) (st : Modifier) : bool * Z * bool * Modifier :=
  match updates with
  | [] => (true, lowest, wasDelete, st)
  | e :: rest =>
      let lowest := Z.min lowest (uversion e) in
      let size := entryOverhead ctx in
      if wasDelete && (uversion e <? mMinVersion) then
        let st := set_mUpdateIdx (dec32 (mUpdateIdx st)) st in
        let st := set_mFillIdx (dec32 (mFillIdx st)) st in
        let st := set_mFillSize (wrap32 (mFillSize st - (size + fixedSize ctx))) st in
        (true, lowest, false, st)
      else if bool_decide (utype e = DELETE) && (uversion e <=? mMinVersion) then
        (true, lowest, wasDelete, st)
      else
        let '(size, wasDelete) :=
          if bool_decide (utype e = DELETE)
          then (wrap32 (size + fixedSize ctx), true)
          else (wrap32 (size + (usize e - sizeofUpdateLogEntry ctx)), false) in
        let st := set_mFillSize (wrap32 (mFillSize st + size)) st in
        if mFillSize st >? MAX_DATA_SIZE ctx then (false, lowest, wasDelete, st)
        else
          let st := writeUpdate e st in
          if uversion e <=? mMinVersion then (true, lowest, wasDelete, st)
          else processUpdatesLoop rest lowest wasDelete st
  end.

(** [ColumnMapPageModifier::processUpdates] *)
Definition processUpdates (newest baseVersion : Z) (wasDelete : bool)
    (st : Modifier) : bool * Z * bool * Modifier :=
  processUpdatesLoop (updateIter (log (shared st)) newest baseVersion)
    UINT64_MAX wasDelete st.

(** [ColumnMapPageModifier::addCleanAction], without the heap copy. *)
Definition addCleanAction (page : ColumnMapMainPage) (startIdx endIdx : nat)
    (st : Modifier) : Modifier :=
  set_mCleanActions
    (mCleanActions st ++ [mkCleanAction (Source page) (Z.of_nat startIdx) (Z.of_nat endIdx)])
    st.

(** The block
[[
    if (mainStartIdx != mainEndIdx) {
        addCleanAction(page, mainStartIdx, mainEndIdx);
        mainStartIdx = 0; mainEndIdx = 0;
    }
]] *)
Definition flushPending (page : ColumnMapMainPage) (L : Loop) (st : Modifier)
    : Loop * Modifier :=
  if negb (mainStartIdx L =? mainEndIdx L)%nat
  then (mkLoop (idx L) 0 0, addCleanAction page (mainStartIdx L) (mainEndIdx L) st)
  else (L, st).

(** [sizeData()] of the page a clean action refers to. *)
Definition sizeData (st : Modifier) (r : PageRef) (i : Z) : Z :=
  match r with
  | Source page => sizeAt page (Z.to_nat i)
  | UpdatePage => default 0 (mUpdateSizes st !! i)
  end.

(** The rows [startIdx, endIdx) of an array. *)
Definition slice {A} (f : Z → A) (startIdx endIdx : Z) : list A :=
  f <$> seqZ startIdx (endIdx - startIdx).

(** [ColumnMapPageModifier::flushFillPage]: the pending update action, the
    page with its count, entries and copied sizes on the page list, then the
    pointer actions. *)
Definition flushFillPage (fuel : nat) (env : Env) (st : Modifier)
    : option (Env * Modifier) :=
  let st :=
    if negb (mUpdateStartIdx st =? mUpdateEndIdx st) then
      set_mUpdateStartIdx (mUpdateEndIdx st)
        (set_mCleanActions
           (mCleanActions st ++
              [mkCleanAction UpdatePage (mUpdateStartIdx st) (mUpdateEndIdx st)]) st)
    else st in
  let page :=
    mkPage (mFillPage st) (slice (fillEntryAt st) 0 (mFillEndIdx st))
      (concat ((λ a, slice (sizeData st (caPage a)) (startIdx a) (endIdx a))
                 <$> mCleanActions st)) in
  let st := set_mPageList (mPageList st ++ [page]) st in
  let st := set_mCleanActions [] st in
  match adjustAll fuel env (mPointerActions st) (shared st) with
  | None => None
  | Some (sh, env) => Some (env, set_mPointerActions [] (set_shared sh st))
  end.

(** [ColumnMapPageModifier::flush] *)
Definition flush (fuel : nat) (env : Env) (st : Modifier) : option (Env * Modifier) :=
  match flushFillPage fuel env st with
  | None => None
  | Some (env, st) =>
      let st :=
        if negb (mUpdateIdx st =? 0) then
          set_mUpdateIdx 0 (set_mUpdateEndIdx 0 (set_mUpdateStartIdx 0
            (set_mUpdateSizes ∅ st)))
        else st in
      let st := set_mNextPage (mNextPage st + TELL_PAGE_SIZE)
                  (set_mFillPage (mNextPage st) st) in
      let st := set_mFillEntries ∅ st in
      Some (env, set_mFillSize 0 (set_mFillIdx 0 (set_mFillEndIdx 0 st)))
  end.

(** [for (; i < page->count && cond(entries[i]); ++i) {}] *)
Fixpoint skipWhile (cond : ColumnMapMainEntry → bool) (page : ColumnMapMainPage)
    (fuel : nat) (i : nat) : nat :=
  match fuel with
  | O => i
  | S fuel' =>
      match entries page !! i with
      | Some e => if cond e then skipWhile cond page fuel' (S i) else i
      | None => i
      end
  end.

(** Skip to the next key. *)
Definition skipKey (page : ColumnMapMainPage) (k : Z) (i : nat) : nat :=
  skipWhile (λ e, key e =? k) page (count page) i.

(** How the copy loop of [clean] over the main versions of one key ends:
    with the page full, or at index [i] (by [break] or because the key's run
    is over). *)
Inductive CopyResult :=
| CopyOverflow (st : Modifier)
| CopyDone (i : nat) (wasDelete : bool) (copyEndIdx : nat) (st : Modifier).

(** The loop
[[
    for (; i < page->count && entries[i].key == entries[baseIdx].key; ++i)
]]
    of [clean] that copies the surviving main versions. *)
Fixpoint copyMain (fuel : nat) (page : ColumnMapMainPage) (k : Z) (i : nat)
    (wasDelete : bool) (copyStartIdx copyEndIdx : nat) (st : Modifier) : CopyResult :=
  match fuel with
  | O => CopyDone i wasDelete copyEndIdx st
  | S fuel' =>
      match entries page !! i with
      | None => CopyDone i wasDelete copyEndIdx st
      | Some e =>
          if negb (key e =? k) then CopyDone i wasDelete copyEndIdx st
          else
            let size := entryOverhead ctx in
            if wasDelete && (version e <? mMinVersion) then
              let st := set_mFillIdx (dec32 (mFillIdx st)) st in
              let st := set_mFillSize (wrap32 (mFillSize st - (size + fixedSize ctx))) st in
              if (copyStartIdx =? copyEndIdx)%nat
              then CopyDone i false copyEndIdx (set_mUpdateIdx (dec32 (mUpdateIdx st)) st)
              else CopyDone i false (copyEndIdx - 1) st
            else if (sizeAt page i =? 0) && (version e <=? mMinVersion) then
              CopyDone i wasDelete copyEndIdx st
            else
              let '(size, wasDelete) :=
                if sizeAt page i =? 0
                then (wrap32 (size + fixedSize ctx), true)
                else (wrap32 (size + sizeAt page i), false) in
              let st := set_mFillSize (wrap32 (mFillSize st + size)) st in
              if mFillSize st >? MAX_DATA_SIZE ctx then CopyOverflow st
              else
                let st := writeFillEntry k (version e) st in
                let st := set_mFillIdx (inc32 (mFillIdx st)) st in
                let copyEndIdx := S copyEndIdx in
                if version e <=? mMinVersion
                then CopyDone i wasDelete copyEndIdx st
                else copyMain fuel' page k (S i) wasDelete copyStartIdx copyEndIdx st
      end
  end.

(** Invalidate the source record and remove the key from the hash index:
[[
    if (!entries[baseIdx].newest.compare_exchange_strong(newest, INVALID)) ...
    mMainTableModifier.remove(entries[baseIdx].key);
]]
    The result tells whether the CAS succeeded. *)
Definition invalidate (slot newest k : Z) (env : Env) (st : Modifier)
    : bool * Env * Modifier :=
  let '(sh, env) := interfere env (shared st) in
  match compare_exchange_strong slot newest INVALID sh with
  | (true, _, sh) =>
      (true, env, set_mMainTableModifier (delete k (mMainTableModifier st))
                    (set_shared sh st))
  | (false, _, sh) => (false, env, set_shared sh st)
  end.

(** Record the pointer action and post the new entry to the hash index:
[[
    auto fillEntry = mFillPage->entryData() + mFillEndIdx;
    mPointerActions.emplace_back(&entries[baseIdx].newest, newest, fillEntry);
    mMainTableModifier.insert(entries[baseIdx].key, fillEntry, true);
]] *)
Definition enqueuePointer (slot newest k : Z) (st : Modifier) : Modifier :=
  let fillEntry := entryPtr (mFillPage st) (mFillEndIdx st) in
  let st := set_mPointerActions
              (mPointerActions st ++ [mkPointerAction slot newest fillEntry]) st in
  set_mMainTableModifier (<[k := fillEntry]> (mMainTableModifier st)) st.

(** How one round of the loop of [clean] ends: the page was full (flush and
    restart), nothing was emitted and the record was invalidated, nothing was
    emitted and the invalidation failed (restart), or the record's entries
    were committed and its pointer action recorded. *)
Inductive Outcome := PageFull | Invalidated | InvalidateFailed | Enqueued.

(** The second half of one round of the loop of [clean]: from "Process all
    main entries" to "Skip to next key". *)
Definition cleanMain (fuel : nat) (page : ColumnMapMainPage) (baseIdx : nat)
    (newest : Z) (i : nat) (wasDelete : bool) (L : Loop) (env : Env)
    (st : Modifier) : option (Outcome * Loop * Env * Modifier) :=
  let k := key (entryAt page baseIdx) in
  let slot := newestSlot page baseIdx in
  let copyStartIdx := i in
  match copyMain (count page) page k i wasDelete copyStartIdx copyStartIdx st with
  | CopyOverflow st =>
      let '(L, st) := flushPending page L st in
      match flush fuel env st with
      | None => None
      | Some (env, st) =>
          Some (PageFull, mkLoop baseIdx (mainStartIdx L) (mainEndIdx L), env, st)
      end
  | CopyDone i wasDelete copyEndIdx st =>
      if mFillIdx st =? mFillEndIdx st then
        match invalidate slot newest k env st with
        | (false, env, st) =>
            Some (InvalidateFailed,
                  mkLoop baseIdx (mainStartIdx L) (mainEndIdx L), env, st)
        | (true, env, st) =>
            Some (Invalidated,
                  mkLoop (skipKey page k i) (mainStartIdx L) (mainEndIdx L), env, st)
        end
      else
        let st := enqueuePointer slot newest k st in
        let '(L, st) :=
          if (mainEndIdx L =? copyStartIdx)%nat && (mUpdateIdx st =? mUpdateStartIdx st)
          then (mkLoop (idx L) (mainStartIdx L) copyEndIdx, st)
          else
            let '(L, st) := flushPending page L st in
            let st := set_mUpdateEndIdx (mUpdateIdx st) st in
            if negb (copyStartIdx =? copyEndIdx)%nat then
              let st :=
                if negb (mUpdateStartIdx st =? mUpdateEndIdx st) then
                  set_mUpdateStartIdx (mUpdateEndIdx st)
                    (set_mCleanActions
                       (mCleanActions st ++
                          [mkCleanAction UpdatePage (mUpdateStartIdx st) (mUpdateEndIdx st)])
                       st)
                else st in
              (mkLoop (idx L) copyStartIdx copyEndIdx, st)
            else (L, st) in
        let st := set_mFillEndIdx (mFillIdx st) st in
        Some (Enqueued,
              mkLoop (skipKey page k i) (mainStartIdx L) (mainEndIdx L), env, st)
  end.

(** One round of [while (i < page->count)] of [clean], from the label START
    to the next test of the loop. *)
Definition cleanRound (fuel : nat) (page : ColumnMapMainPage) (L : Loop)
    (env : Env) (st : Modifier) : option (Outcome * Loop * Env * Modifier) :=
  let baseIdx := idx L in
  let k := key (entryAt page baseIdx) in
  let slot := newestSlot page baseIdx in
  let newest := load (shared st) slot in
  if negb (newest =? 0) then
    let '(L, st) := flushPending page L st in
    match processUpdates newest (version (entryAt page baseIdx)) false st with
    | (false, _, _, st) =>
        let '(L, st) := flushPending page L st in
        match flush fuel env st with
        | None => None
        | Some (env, st) => Some (PageFull, L, env, st)
        end
    | (true, lowestVersion, wasDelete, st) =>
        if lowestVersion <=? mMinVersion then
          if mUpdateIdx st =? mUpdateEndIdx st then
            match invalidate slot newest k env st with
            | (false, env, st) => Some (InvalidateFailed, L, env, st)
            | (true, env, st) =>
                Some (Invalidated,
                      mkLoop (skipKey page k (S baseIdx)) (mainStartIdx L) (mainEndIdx L),
                      env, st)
            end
          else
            let st := enqueuePointer slot newest k st in
            let st := set_mUpdateEndIdx (mUpdateIdx st) st in
            let st := set_mFillEndIdx (mFillIdx st) st in
            Some (Enqueued,
                  mkLoop (skipKey page k (S baseIdx)) (mainStartIdx L) (mainEndIdx L),
                  env, st)
        else
          let i := skipWhile (λ e, (key e =? k) && (version e >=? lowestVersion))
                     page (count page) baseIdx in
          cleanMain fuel page baseIdx newest i wasDelete L env st
    end
  else cleanMain fuel page baseIdx newest baseIdx false L env st.

(** Whether the round that starts at [L] runs out of room: [processUpdates]
    returns false or the copy loop reaches its overflow branch. *)
Definition roundOverflows (page : ColumnMapMainPage) (L : Loop) (st : Modifier)
    : bool :=
  let baseIdx := idx L in
  let k := key (entryAt page baseIdx) in
  let newest := load (shared st) (newestSlot page baseIdx) in
  let copyOverflows i wasDelete st :=
    match copyMain (count page) page k i wasDelete i i st with
    | CopyOverflow _ => true
    | CopyDone _ _ _ _ => false
    end in
  if negb (newest =? 0) then
    let '(L, st) := flushPending page L st in
    match processUpdates newest (version (entryAt page baseIdx)) false st with
    | (false, _, _, _) => true
    | (true, lowestVersion, wasDelete, st) =>
        if lowestVersion <=? mMinVersion then false
        else
          copyOverflows
            (skipWhile (λ e, (key e =? k) && (version e >=? lowestVersion))
               page (count page) baseIdx)
            wasDelete st
    end
  else copyOverflows baseIdx false st.

(** [while (i < page->count) { ... }] and the last pending clean action. *)
Fixpoint cleanLoop (rounds fuel : nat) (page : ColumnMapMainPage) (L : Loop)
    (env : Env) (st : Modifier) : option (Env * Modifier) :=
  match rounds with
  | O => None
  | S rounds' =>
      if (idx L <? count page)%nat then
        match cleanRound fuel page L env st with
        | None => None
        | Some (_, L, env, st) => cleanLoop rounds' fuel page L env st
        end
      else Some (env, snd (flushPending page L st))
  end.

(** The scan of one key's older versions in [needsCleaning]: [None] when a
    version below [mMinVersion] is found, else the index where the scan
    ends. *)
Fixpoint purgeable (fuel : nat) (page : ColumnMapMainPage) (k : Z) (i : nat)
    : option nat :=
  match fuel with
  | O => Some i
  | S fuel' =>
      match entries page !! i with
      | Some e =>
          if key e =? k then
            if version e <? mMinVersion then None
            else purgeable fuel' page k (S i)
          else Some i
      | None => Some i
      end
  end.

(** [ColumnMapPageModifier::needsCleaning] *)
Fixpoint needsCleaningLoop (fuel : nat) (sh : Shared) (page : ColumnMapMainPage)
    (i : nat) : bool :=
  match fuel with
  | O => false
  | S fuel' =>
      if (i <? count page)%nat then
        if negb (load sh (newestSlot page i) =? 0) then true
        else if (i + 1 =? count page)%nat
                || negb (key (entryAt page i) =? key (entryAt page (i + 1)))
        then false
        else
          match purgeable (count page) page (key (entryAt page i)) (S i) with
          | None => true
          | Some i' => needsCleaningLoop fuel' sh page i'
          end
      else false
  end.

Definition needsCleaning (sh : Shared) (page : ColumnMapMainPage) : bool :=
  needsCleaningLoop (S (count page)) sh page 0.

(** [ColumnMapPageModifier::clean].  [rounds] bounds the rounds of the loop
    and [fuel] the retries of one pointer action. *)
Definition clean (rounds fuel : nat) (page : ColumnMapMainPage) (env : Env)
    (st : Modifier) : option (bool * Env * Modifier) :=
  if negb (needsCleaning (shared st) page) then
    Some (false, env, set_mPageList (mPageList st ++ [page]) st)
  else
    match cleanLoop rounds fuel page (mkLoop 0 0 0) env st with
    | None => None
    | Some (env, st) => Some (true, env, st)
    end.

(** [ColumnMapPageModifier::done], without the release of the scratch
    pages: the page list. *)
Definition done (fuel : nat) (env : Env) (st : Modifier)
    : option (Env * list ColumnMapMainPage * Modifier) :=
  if negb (mFillEndIdx st =? 0) then
    match flushFillPage fuel env st with
    | None => None
    | Some (env, st) => Some (env, mPageList st, st)
    end
  else Some (env, mPageList st, st).

(** *** processUpdates: deletes below the low-water mark *)

(** The state after a delete and the data entry it shadows were dropped:
[[
    --mUpdateIdx; --mFillIdx; mFillSize -= size + mContext.fixedSize();
]] *)
Definition dropDelete (st : Modifier) : Modifier :=
  set_mFillSize (wrap32 (mFillSize st - (entryOverhead ctx + fixedSize ctx)))
    (set_mFillIdx (dec32 (mFillIdx st)) (set_mUpdateIdx (dec32 (mUpdateIdx st)) st)).

Lemma wrap32_idem z : wrap32 (wrap32 z) = wrap32 z.
Proof. unfold wrap32. by rewrite Z.mod_mod. Qed.

Lemma wrap32_add_l a b : wrap32 (wrap32 a + b) = wrap32 (a + b).
Proof. unfold wrap32. by rewrite Zplus_mod_idemp_l. Qed.

Lemma wrap32_add_r a b : wrap32 (a + wrap32 b) = wrap32 (a + b).
Proof. unfold wrap32. by rewrite Zplus_mod_idemp_r. Qed.

Lemma wrap32_sub_l a b : wrap32 (wrap32 a - b) = wrap32 (a - b).
Proof. unfold wrap32. by rewrite Zminus_mod_idemp_l. Qed.

Lemma dec32_inc32 z : 0 ≤ z < 2 ^ 32 → dec32 (inc32 z) = z.
Proof.
  intros H. unfold dec32, inc32. rewrite wrap32_sub_l.
  replace (z + 1 - 1) with z by lia. by apply wrap32_small.
Qed.

(** A delete at or below [mMinVersion] ends the loop and is not written. *)
Lemma processUpdates_delete_below e rest lowest wasDelete st :
  utype e = DELETE → uversion e ≤ mMinVersion →
  processUpdatesLoop (e :: rest) lowest wasDelete st
  = if wasDelete && (uversion e <? mMinVersion)
    then (true, Z.min lowest (uversion e), false, dropDelete st)
    else (true, Z.min lowest (uversion e), wasDelete, st).
Proof.
  intros Ht Hv. simpl.
  destruct (wasDelete && (uversion e <? mMinVersion)); [done|].
  rewrite bool_decide_eq_true_2 by done.
  apply Z.leb_le in Hv. by rewrite Hv.
Qed.

(** After a delete, an entry below [mMinVersion] ends the loop and takes the
    delete out of the output again. *)
Lemma processUpdates_cancel e rest lowest st :
  uversion e < mMinVersion →
  processUpdatesLoop (e :: rest) lowest true st
  = (true, Z.min lowest (uversion e), false, dropDelete st).
Proof.
  intros Hv. simpl. apply Z.ltb_lt in Hv. by rewrite Hv.
Qed.

(** A delete above [mMinVersion] is written when the page has room. *)
Lemma processUpdates_delete_above d rest lowest wasDelete st :
  utype d = DELETE → mMinVersion < uversion d →
  wrap32 (mFillSize st + (entryOverhead ctx + fixedSize ctx)) ≤ MAX_DATA_SIZE ctx →
  processUpdatesLoop (d :: rest) lowest wasDelete st
  = processUpdatesLoop rest (Z.min lowest (uversion d)) true
      (writeUpdate d
         (set_mFillSize (wrap32 (mFillSize st + (entryOverhead ctx + fixedSize ctx))) st)).
Proof.
  intros Ht Hv Hfit. simpl.
  assert ((uversion d <? mMinVersion) = false) as -> by (apply Z.ltb_ge; lia).
  assert ((uversion d <=? mMinVersion) = false) as -> by (apply Z.leb_gt; lia).
  rewrite bool_decide_eq_true_2 by done. rewrite !andb_false_r. simpl.
  rewrite wrap32_add_r.
  assert ((wrap32 (mFillSize st + (entryOverhead ctx + fixedSize ctx))
             >? MAX_DATA_SIZE ctx) = false) as ->; [|done].
  rewrite Z.gtb_ltb. apply Z.ltb_ge. lia.
Qed.

(** C3.  In the loop of processUpdates: a Delete whose version is at or
    below minVersion ends the loop without being written, whatever follows
    it on the chain; and when the entry written last was a Delete and the
    current entry's version is strictly below minVersion the loop ends with
    both dropped: the update counter and the fill counter are decremented
    and the bytes of the delete are subtracted, so that after
    "Delete above, data below" the three counters are where they were. *)
Theorem delete_below_min_ends_chain_and_pair_is_dropped
    (d e : UpdateLogEntry) (rest : list UpdateLogEntry) (lowest : Z)
    (wasDelete : bool) (st : Modifier) :
  0 ≤ mFillIdx st < 2 ^ 32 →
  0 ≤ mUpdateIdx st < 2 ^ 32 →
  0 ≤ mFillSize st < 2 ^ 32 →
  (utype e = DELETE → uversion e ≤ mMinVersion →
   ∃ wasDelete' st',
     processUpdatesLoop (e :: rest) lowest wasDelete st
     = (true, Z.min lowest (uversion e), wasDelete', st') ∧
     mFillEntries st' = mFillEntries st ∧ mUpdateSizes st' = mUpdateSizes st ∧
     (wasDelete = false → st' = st)) ∧
  (uversion e < mMinVersion →
   processUpdatesLoop (e :: rest) lowest true st
   = (true, Z.min lowest (uversion e), false, dropDelete st) ∧
   mUpdateIdx (dropDelete st) = dec32 (mUpdateIdx st) ∧
   mFillIdx (dropDelete st) = dec32 (mFillIdx st) ∧
   mFillSize (dropDelete st)
   = wrap32 (mFillSize st - (entryOverhead ctx + fixedSize ctx))) ∧
  (utype d = DELETE → mMinVersion < uversion d → uversion e < mMinVersion →
   wrap32 (mFillSize st + (entryOverhead ctx + fixedSize ctx)) ≤ MAX_DATA_SIZE ctx →
   ∃ st',
     processUpdatesLoop (d :: e :: rest) lowest wasDelete st
     = (true, Z.min (Z.min lowest (uversion d)) (uversion e), false, st') ∧
     mUpdateIdx st' = mUpdateIdx st ∧ mFillIdx st' = mFillIdx st ∧
     mFillSize st' = mFillSize st ∧
     mUpdateEndIdx st' = mUpdateEndIdx st ∧ mFillEndIdx st' = mFillEndIdx st).
Proof.
  intros HF HU HS. split_and!.
  - intros Ht Hv. rewrite processUpdates_delete_below by done.
    destruct (wasDelete && (uversion e <? mMinVersion)) eqn:E.
    + eexists _, _. split; [done|]. split_and!; try done.
      intros ->. done.
    + eexists _, _. split; [done|]. done.
  - intros Hv. split; [by apply processUpdates_cancel|done].
  - intros Ht Hd He Hfit. eexists. split.
    + rewrite processUpdates_delete_above by done.
      by rewrite processUpdates_cancel.
    + unfold dropDelete, writeUpdate, writeFillEntry. simpl.
      rewrite !dec32_inc32 by done. split_and!; try done.
      rewrite wrap32_sub_l.
      replace (mFillSize st + (entryOverhead ctx + fixedSize ctx)
               - (entryOverhead ctx + fixedSize ctx)) with (mFillSize st) by lia.
      by apply wrap32_small.
Qed.

(** *** needsCleaning and the pages that pass through *)

(** A page that [needsCleaning] turns down goes onto the page list as it
    is, and [clean] returns false. *)
Lemma clean_passes_page_through rounds fuel page env st :
  needsCleaning (shared st) page = false →
  clean rounds fuel page env st
  = Some (false, env, set_mPageList (mPageList st ++ [page]) st).
Proof. intros H. unfold clean. by rewrite H. Qed.

(** The first record has no pending update and a single version:
    [needsCleaning] returns false whatever the rest of the page holds. *)
Lemma needsCleaning_single_version_first sh page e0 e1 rest :
  entries page = e0 :: e1 :: rest →
  load sh (newestSlot page 0) = 0 →
  key e0 ≠ key e1 →
  needsCleaning sh page = false.
Proof.
  intros He Hl Hk. unfold needsCleaning. cbn [needsCleaningLoop].
  assert ((0 <? count page)%nat = true) as ->.
  { unfold count. rewrite He. done. }
  rewrite Hl. cbn [Z.eqb negb].
  assert ((key (entryAt page 0) =? key (entryAt page (0 + 1))) = false) as ->.
  { unfold entryAt. rewrite He. simpl. by apply Z.eqb_neq. }
  by rewrite orb_true_r.
Qed.

(** *** What the emission loops leave alone *)

(** The loops that write entries change the fill page, the update page and
    the running counters only. *)
Record frame (st st' : Modifier) : Prop := mkFrame {
  fr_shared : shared st' = shared st;
  fr_index : mMainTableModifier st' = mMainTableModifier st;
  fr_pointers : mPointerActions st' = mPointerActions st;
  fr_actions : mCleanActions st' = mCleanActions st;
  fr_pages : mPageList st' = mPageList st;
  fr_fillEnd : mFillEndIdx st' = mFillEndIdx st;
  fr_updateEnd : mUpdateEndIdx st' = mUpdateEndIdx st;
  fr_updateStart : mUpdateStartIdx st' = mUpdateStartIdx st;
  fr_fillPage : mFillPage st' = mFillPage st;
  fr_nextPage : mNextPage st' = mNextPage st
}.

Lemma frame_refl st : frame st st.
Proof. by split. Qed.

Lemma frame_trans st1 st2 st3 : frame st1 st2 → frame st2 st3 → frame st1 st3.
Proof. intros [] []. split; congruence. Qed.

Lemma wrap32_sub a b : wrap32 (wrap32 a - wrap32 b) = wrap32 (a - b).
Proof. unfold wrap32. by rewrite <- Zminus_mod. Qed.

Lemma writeUpdate_frame e st : frame st (writeUpdate e st).
Proof. by split. Qed.

(** The fill counter and the update counter move together. *)
Definition lockstep (st st' : Modifier) : Prop :=
  wrap32 (mFillIdx st' - mUpdateIdx st') = wrap32 (mFillIdx st - mUpdateIdx st).

Lemma processUpdatesLoop_frame updates : ∀ lowest wasDelete st ok lowest' wasDelete' st',
  processUpdatesLoop updates lowest wasDelete st = (ok, lowest', wasDelete', st') →
  frame st st' ∧ lockstep st st'.
Proof.
  induction updates as [|e rest IH]; intros lowest wd st ok lowest' wd' st' H;
    simpl in H.
  - injection H as <- <- <- <-. split; [apply frame_refl|done].
  - destruct (wd && (uversion e <? mMinVersion)).
    { injection H as <- <- <- <-. split; [by split|].
      unfold lockstep, dec32. simpl. rewrite wrap32_sub. f_equal. lia. }
    destruct (bool_decide (utype e = DELETE) && (uversion e <=? mMinVersion)).
    { injection H as <- <- <- <-. split; [apply frame_refl|done]. }
    destruct (bool_decide (utype e = DELETE)).
    all: match type of H with
         | context [set_mFillSize ?v ?s] => set (st1 := set_mFillSize v s) in *
         end.
    all: match type of H with
         | context [if ?c >? ?m then _ else _] => destruct (c >? m)
         end;
           [injection H as <- <- <- <-; split; [by split|done]|].
    all: assert (frame st (writeUpdate e st1) ∧ lockstep st (writeUpdate e st1)) as [Hf Hl]
           by (split; [by split|];
               unfold lockstep, writeUpdate, writeFillEntry, inc32; simpl;
               rewrite wrap32_sub; f_equal; lia).
    all: destruct (uversion e <=? mMinVersion);
           [injection H as <- <- <- <-; by split|].
    all: destruct (IH _ _ _ _ _ _ _ H) as [Hf' Hl'].
    all: split; [by eapply frame_trans|unfold lockstep in *; congruence].
Qed.

Lemma copyMain_frame fuel page k : ∀ i wasDelete copyStartIdx copyEndIdx st,
  match copyMain fuel page k i wasDelete copyStartIdx copyEndIdx st with
  | CopyOverflow st' => frame st st'
  | CopyDone i' _ _ st' => frame st st' ∧ (i ≤ i')%nat
  end.
Proof.
  induction fuel as [|fuel IH]; intros i wd cs ce st; simpl.
  - split; [apply frame_refl|lia].
  - destruct (entries page !! i) as [e|]; [|split; [apply frame_refl|lia]].
    destruct (negb (key e =? k)); [split; [apply frame_refl|lia]|].
    destruct (wd && (version e <? mMinVersion)).
    { destruct (cs =? ce)%nat; split; try lia; by split. }
    destruct ((sizeAt page i =? 0) && (version e <=? mMinVersion));
      [split; [apply frame_refl|lia]|].
    destruct (sizeAt page i =? 0).
    all: match goal with
         | |- context [set_mFillSize ?v ?s] => set (st1 := set_mFillSize v s)
         end.
    all: match goal with
         | |- context [if ?c >? ?m then _ else _] => destruct (c >? m)
         end; [by split|].
    all: destruct (version e <=? mMinVersion); [split; [by split|lia]|].
    all: match goal with
         | |- context [copyMain ?f ?pg ?kk (S ?ii) ?w ?c1 (S ?c2) ?s] =>
             specialize (IH (S ii) w c1 (S c2) s);
             destruct (copyMain f pg kk (S ii) w c1 (S c2) s)
         end.
    all: try (eapply frame_trans; [|exact IH]; by split).
    all: destruct IH as [IH1 IH2]; split; [|lia].
    all: eapply frame_trans; [|exact IH1]; by split.
Qed.

Lemma skipWhile_ge cond page fuel : ∀ i, (i ≤ skipWhile cond page fuel i)%nat.
Proof.
  induction fuel as [|fuel IH]; intros i; simpl; [lia|].
  destruct (entries page !! i) as [e|]; [|lia].
  destruct (cond e); [|lia]. specialize (IH (S i)). lia.
Qed.

Lemma skipKey_gt page i :
  (i < count page)%nat →
  (i < skipKey page (key (entryAt page i)) i)%nat.
Proof.
  intros Hi. unfold skipKey, entryAt.
  destruct (count page) as [|n] eqn:Hc; [lia|]. simpl.
  destruct (entries page !! i) as [e|] eqn:He.
  - simpl. rewrite Z.eqb_refl.
    pose proof (skipWhile_ge (λ e0, key e0 =? key e) page n (S i)). lia.
  - apply lookup_ge_None in He. unfold count in Hc. lia.
Qed.

(** *** Page overflow *)

Lemma flushPending_frame page L st :
  shared (snd (flushPending page L st)) = shared st ∧
  mMainTableModifier (snd (flushPending page L st)) = mMainTableModifier st ∧
  mPointerActions (snd (flushPending page L st)) = mPointerActions st ∧
  mPageList (snd (flushPending page L st)) = mPageList st ∧
  mFillEndIdx (snd (flushPending page L st)) = mFillEndIdx st ∧
  mFillIdx (snd (flushPending page L st)) = mFillIdx st ∧
  mUpdateEndIdx (snd (flushPending page L st)) = mUpdateEndIdx st ∧
  mUpdateIdx (snd (flushPending page L st)) = mUpdateIdx st ∧
  mFillPage (snd (flushPending page L st)) = mFillPage st ∧
  mNextPage (snd (flushPending page L st)) = mNextPage st ∧
  idx (fst (flushPending page L st)) = idx L.
Proof.
  unfold flushPending. destruct (negb (mainStartIdx L =? mainEndIdx L)%nat); done.
Qed.

(** What [flush] leaves behind: the old fill page is on the page list with
    its committed rows, the fill page is a fresh, empty page, the update
    page is empty, the queues are empty. *)
Lemma flush_spec fuel env st env' st' :
  flush fuel env st = Some (env', st') →
  mFillIdx st' = 0 ∧ mFillEndIdx st' = 0 ∧ mFillSize st' = 0 ∧
  mFillEntries st' = ∅ ∧
  mFillPage st' = mNextPage st ∧ mNextPage st' = mNextPage st + TELL_PAGE_SIZE ∧
  mUpdateIdx st' = 0 ∧ mUpdateStartIdx st' = mUpdateEndIdx st' ∧
  mCleanActions st' = [] ∧ mPointerActions st' = [] ∧
  mMainTableModifier st' = mMainTableModifier st ∧
  adjustAll fuel env (mPointerActions st) (shared st) = Some (shared st', env') ∧
  ∃ pg, mPageList st' = mPageList st ++ [pg] ∧ base pg = mFillPage st ∧
        entries pg = slice (fillEntryAt st) 0 (mFillEndIdx st).
Proof.
  unfold flush, flushFillPage.
  destruct (negb (mUpdateStartIdx st =? mUpdateEndIdx st)) eqn:E0; simpl;
    destruct (adjustAll fuel env (mPointerActions st) (shared st)) as [[sh1 env1]|];
    try done; simpl;
    destruct (negb (mUpdateIdx st =? 0)) eqn:E; simpl; intros [= <- <-]; simpl;
    split_and!; try done; try (by eexists; split_and!);
    try (by apply negb_false_iff, Z.eqb_eq in E);
    by apply negb_false_iff, Z.eqb_eq in E0.
Qed.


(** [processUpdates] returns false only with the fill size above the
    limit. *)
Lemma processUpdatesLoop_false updates : ∀ lowest wasDelete st lowest' wasDelete' st',
  processUpdatesLoop updates lowest wasDelete st = (false, lowest', wasDelete', st') →
  MAX_DATA_SIZE ctx < mFillSize st'.
Proof.
  induction updates as [|e rest IH]; intros lowest wd st lowest' wd' st' H;
    simpl in H; [done|].
  destruct (wd && (uversion e <? mMinVersion)); [done|].
  destruct (bool_decide (utype e = DELETE) && (uversion e <=? mMinVersion)); [done|].
  destruct (bool_decide (utype e = DELETE)).
  all: match type of H with
       | context [if ?c >? ?m then _ else _] => destruct (c >? m) eqn:E
       end;
         [injection H as <- <- <-; simpl; rewrite Z.gtb_ltb in E;
          by apply Z.ltb_lt in E|].
  all: destruct (uversion e <=? mMinVersion); [done|].
  all: by eapply IH.
Qed.

(** An entry that is to be written and does not fit makes [processUpdates]
    return false at once. *)
Lemma processUpdatesLoop_no_room e rest lowest wasDelete st :
  (wasDelete && (uversion e <? mMinVersion)) = false →
  (bool_decide (utype e = DELETE) && (uversion e <=? mMinVersion)) = false →
  MAX_DATA_SIZE ctx
    < wrap32 (mFillSize st
              + (if bool_decide (utype e = DELETE)
                 then entryOverhead ctx + fixedSize ctx
                 else entryOverhead ctx + (usize e - sizeofUpdateLogEntry ctx))) →
  fst (fst (fst (processUpdatesLoop (e :: rest) lowest wasDelete st))) = false.
Proof.
  intros H1 H2 Hbig. simpl. rewrite H1, H2.
  destruct (bool_decide (utype e = DELETE)); simpl; rewrite wrap32_add_r.
  all: match goal with
       | |- context [if ?c >? ?m then _ else _] =>
           assert ((c >? m) = true) as ->; [|done]
       end.
  all: rewrite Z.gtb_ltb; by apply Z.ltb_lt.
Qed.

(** The copy loop reaches its overflow branch only with the fill size above
    the limit. *)
Lemma copyMain_overflow fuel page k : ∀ i wasDelete copyStartIdx copyEndIdx st st',
  copyMain fuel page k i wasDelete copyStartIdx copyEndIdx st = CopyOverflow st' →
  MAX_DATA_SIZE ctx < mFillSize st'.
Proof.
  induction fuel as [|fuel IH]; intros i wd cs ce st st' H; simpl in H; [done|].
  destruct (entries page !! i) as [e|]; [|done].
  destruct (negb (key e =? k)); [done|].
  destruct (wd && (version e <? mMinVersion)); [by destruct (cs =? ce)%nat|].
  destruct ((sizeAt page i =? 0) && (version e <=? mMinVersion)); [done|].
  destruct (sizeAt page i =? 0).
  all: match type of H with
       | context [if ?c >? ?m then _ else _] => destruct (c >? m) eqn:E
       end;
         [injection H as <-; simpl; rewrite Z.gtb_ltb in E; by apply Z.ltb_lt in E|].
  all: destruct (version e <=? mMinVersion); [done|].
  all: by eapply IH.
Qed.

(** *** Records for which nothing is emitted *)

Lemma wrap32_range z : 0 ≤ wrap32 z < 2 ^ 32.
Proof. unfold wrap32. apply Z.mod_pos_bound. lia. Qed.

Lemma wrap32_sub_inj_l a b c :
  0 ≤ a < 2 ^ 32 → 0 ≤ c < 2 ^ 32 →
  wrap32 (a - b) = wrap32 (c - b) → a = c.
Proof.
  unfold wrap32. intros Ha Hc H.
  rewrite (Z.mod_eq (a - b)), (Z.mod_eq (c - b)) in H by lia. nia.
Qed.

Lemma wrap32_sub_inj_r a b d :
  0 ≤ b < 2 ^ 32 → 0 ≤ d < 2 ^ 32 →
  wrap32 (a - b) = wrap32 (a - d) → b = d.
Proof.
  unfold wrap32. intros Hb Hd H.
  rewrite (Z.mod_eq (a - b)), (Z.mod_eq (a - d)) in H by lia. nia.
Qed.

(** The counters stay 32-bit values. *)
Definition in_range (st : Modifier) : Prop :=
  0 ≤ mFillIdx st < 2 ^ 32 ∧ 0 ≤ mUpdateIdx st < 2 ^ 32.

Lemma processUpdatesLoop_range updates : ∀ lowest wasDelete st ok lowest' wasDelete' st',
  in_range st →
  processUpdatesLoop updates lowest wasDelete st = (ok, lowest', wasDelete', st') →
  in_range st'.
Proof.
  induction updates as [|e rest IH]; intros lowest wd st ok lowest' wd' st' Hr H;
    simpl in H.
  - by injection H as <- <- <- <-.
  - destruct (wd && (uversion e <? mMinVersion)).
    { injection H as <- <- <- <-. split; apply wrap32_range. }
    destruct (bool_decide (utype e = DELETE) && (uversion e <=? mMinVersion)).
    { by injection H as <- <- <- <-. }
    destruct (bool_decide (utype e = DELETE)).
    all: match type of H with
         | context [if ?c >? ?m then _ else _] => destruct (c >? m)
         end; [by injection H as <- <- <- <-|].
    all: destruct (uversion e <=? mMinVersion);
           [injection H as <- <- <- <-; split; apply wrap32_range|].
    all: eapply IH; [|exact H]; split; apply wrap32_range.
Qed.

Lemma invalidate_spec slot newest k env st ok env' st' :
  invalidate slot newest k env st = (ok, env', st') →
  let sh1 := fst (interfere env (shared st)) in
  env' = snd (interfere env (shared st)) ∧
  if ok then
    load sh1 slot = newest ∧
    st' = set_mMainTableModifier (delete k (mMainTableModifier st))
            (set_shared (store slot INVALID sh1) st)
  else load sh1 slot ≠ newest ∧ st' = set_shared sh1 st.
Proof.
  unfold invalidate, compare_exchange_strong.
  destruct (interfere env (shared st)) as [sh1 env1]. simpl.
  destruct (load sh1 slot =? newest) eqn:E; intros [= <- <- <-].
  - apply Z.eqb_eq in E. done.
  - apply Z.eqb_neq in E. done.
Qed.

(** How a round that did not run out of room ends, seen from the state [st]
    at the label START.  [newest] is the head loaded at START. *)
Definition round_result (page : ColumnMapMainPage) (baseIdx : nat) (newest : Z)
    (env : Env) (st : Modifier) (out : Outcome) (L' : Loop) (env' : Env)
    (st' : Modifier) : Prop :=
  let slot := newestSlot page baseIdx in
  let k := key (entryAt page baseIdx) in
  let sh1 := fst (interfere env (shared st)) in
  match out with
  | PageFull => True
  | Invalidated =>
      load sh1 slot = newest ∧
      shared st' = store slot INVALID sh1 ∧
      mMainTableModifier st' = delete k (mMainTableModifier st) ∧
      (baseIdx < idx L')%nat ∧
      env' = snd (interfere env (shared st)) ∧
      mFillEndIdx st' = mFillEndIdx st ∧ mFillIdx st' = mFillEndIdx st' ∧
      mPointerActions st' = mPointerActions st
  | InvalidateFailed =>
      load sh1 slot ≠ newest ∧
      shared st' = sh1 ∧
      mMainTableModifier st' = mMainTableModifier st ∧
      idx L' = baseIdx ∧
      env' = snd (interfere env (shared st)) ∧
      mFillEndIdx st' = mFillEndIdx st ∧ mFillIdx st' = mFillEndIdx st' ∧
      mPointerActions st' = mPointerActions st
  | Enqueued =>
      mFillEndIdx st' ≠ mFillEndIdx st ∧
      mPointerActions st'
      = mPointerActions st
        ++ [mkPointerAction slot newest (entryPtr (mFillPage st) (mFillEndIdx st))] ∧
      mMainTableModifier st'
      = <[k := entryPtr (mFillPage st) (mFillEndIdx st)]> (mMainTableModifier st) ∧
      shared st' = shared st ∧ env' = env ∧ (baseIdx < idx L')%nat
  end.

Lemma cleanMain_result fuel page baseIdx newest i wasDelete L env st out L' env' st' :
  (baseIdx < count page)%nat → (baseIdx ≤ i)%nat →
  cleanMain fuel page baseIdx newest i wasDelete L env st = Some (out, L', env', st') →
  round_result page baseIdx newest env st out L' env' st'.
Proof.
  intros Hb Hi. unfold cleanMain.
  pose proof (copyMain_frame (count page) page (key (entryAt page baseIdx))
                i wasDelete i i st) as Hfr.
  destruct (copyMain (count page) page (key (entryAt page baseIdx)) i wasDelete i i st)
    as [st1|i1 wd1 ce1 st1].
  { destruct (flushPending page L st1) as [L1 st2].
    destruct (flush fuel env st2) as [[env2 st3]|]; [|done].
    intros [= <- <- <- <-]. done. }
  destruct Hfr as [Hfr Hle].
  assert (baseIdx < skipKey page (key (entryAt page baseIdx)) i1)%nat as Hskip.
  { destruct (decide (i1 = baseIdx)) as [->|Hne]; [by apply skipKey_gt|].
    pose proof (skipWhile_ge (λ e, key e =? key (entryAt page baseIdx)) page
                  (count page) i1). unfold skipKey. lia. }
  destruct (mFillIdx st1 =? mFillEndIdx st1) eqn:Efill.
  - apply Z.eqb_eq in Efill.
    destruct (invalidate (newestSlot page baseIdx) newest (key (entryAt page baseIdx))
                env st1) as [[ok env1] st2] eqn:Einv.
    apply invalidate_spec in Einv as [Henv Hok].
    destruct Hfr. destruct ok.
    + destruct Hok as [Hl ->]. intros [= <- <- <- <-]. simpl.
      rewrite fr_shared0 in *. split_and!; try done; congruence.
    + destruct Hok as [Hl ->]. intros [= <- <- <- <-]. simpl.
      rewrite fr_shared0 in *. split_and!; try done; congruence.
  - apply Z.eqb_neq in Efill. destruct Hfr.
    destruct ((mainEndIdx L =? i)%nat
              && (mUpdateIdx (enqueuePointer (newestSlot page baseIdx) newest
                                (key (entryAt page baseIdx)) st1)
                  =? mUpdateStartIdx (enqueuePointer (newestSlot page baseIdx) newest
                                        (key (entryAt page baseIdx)) st1))).
    { intros [= <- <- <- <-]. simpl. split_and!; try done; congruence. }
    unfold flushPending.
    destruct (negb (mainStartIdx L =? mainEndIdx L)%nat); simpl;
      destruct (negb (i =? ce1)%nat); simpl;
      try destruct (negb (mUpdateStartIdx st1 =? mUpdateIdx st1)); simpl;
      intros [= <- <- <- <-]; simpl; split_and!; try done; congruence.
Qed.

Lemma cleanRound_result fuel page L env st out L' env' st' :
  (idx L < count page)%nat →
  in_range st → mFillIdx st = mFillEndIdx st → mUpdateIdx st = mUpdateEndIdx st →
  cleanRound fuel page L env st = Some (out, L', env', st') →
  round_result page (idx L) (load (shared st) (newestSlot page (idx L))) env st
    out L' env' st'.
Proof.
  intros Hb Hr Hf Hu. unfold cleanRound.
  set (newest := load (shared st) (newestSlot page (idx L))).
  destruct (negb (newest =? 0)); [|by apply cleanMain_result].
  pose proof (flushPending_frame page L st) as Hfp.
  destruct (flushPending page L st) as [L1 st1]. simpl in Hfp.
  destruct Hfp as (Hs1 & Hi1 & Hp1 & Hl1 & Hfe1 & Hfi1 & Hue1 & Hui1 & Hfpg1 & Hnp1 & Hidx1).
  unfold processUpdates.
  destruct (processUpdatesLoop (updateIter (log (shared st1)) newest
              (version (entryAt page (idx L)))) UINT64_MAX false st1)
    as [[[ok lowest] wd] st2] eqn:Epu.
  destruct (processUpdatesLoop_frame _ _ _ _ _ _ _ _ Epu) as [Hfr Hlock].
  assert (in_range st1) as Hr1 by (unfold in_range; rewrite Hfi1, Hui1; done).
  pose proof (processUpdatesLoop_range _ _ _ _ _ _ _ _ Hr1 Epu) as Hr2.
  destruct Hfr. destruct ok.
  2:{ destruct (flushPending page L1 st2) as [L2 st3].
      destruct (flush fuel env st3) as [[env4 st4]|]; [|done].
      intros [= <- <- <- <-]. done. }
  destruct (lowest <=? mMinVersion).
  - destruct (mUpdateIdx st2 =? mUpdateEndIdx st2) eqn:Eu.
    + apply Z.eqb_eq in Eu.
      assert (mFillIdx st2 = mFillEndIdx st2) as Hfill.
      { unfold lockstep in Hlock. rewrite Eu, fr_updateEnd0, Hue1, <- Hu, Hfi1, Hui1 in Hlock.
        apply wrap32_sub_inj_l in Hlock; [congruence|apply Hr2|apply Hr]. }
      destruct (invalidate (newestSlot page (idx L)) newest
                  (key (entryAt page (idx L))) env st2) as [[ok env1] st3] eqn:Einv.
      apply invalidate_spec in Einv as [Henv Hok].
      rewrite fr_shared0, Hs1 in *.
      pose proof (skipWhile_ge (λ e, key e =? key (entryAt page (idx L))) page
                    (count page) (S (idx L))) as Hsk.
      destruct ok; destruct Hok as [Hl ->]; intros [= <- <- <- <-]; simpl;
        split_and!; try done; try congruence; unfold skipKey; lia.
    + apply Z.eqb_neq in Eu. intros [= <- <- <- <-]. simpl.
      pose proof (skipWhile_ge (λ e, key e =? key (entryAt page (idx L))) page
                    (count page) (S (idx L))) as Hsk.
      split_and!; try congruence; [|unfold skipKey; lia].
      intros Heq. apply Eu.
      unfold lockstep in Hlock.
      assert (mFillIdx st2 = mFillIdx st1) as Hfi2 by congruence.
      rewrite Hfi2 in Hlock.
      apply wrap32_sub_inj_r in Hlock; [congruence|apply Hr2|apply Hr1].
  - intros Hcm.
    pose proof (skipWhile_ge
                  (λ e, (key e =? key (entryAt page (idx L))) && (version e >=? lowest))
                  page (count page) (idx L)) as Hsk.
    apply cleanMain_result in Hcm; [|done|done].
    unfold round_result in *.
    rewrite fr_shared0, fr_index0, fr_pointers0, fr_fillEnd0, fr_fillPage0,
      Hs1, Hi1, Hp1, Hfe1, Hfpg1 in Hcm.
    destruct out; done.
Qed.



(** *** The rows a round writes *)

(** A version above the low-water mark. *)
Definition above (e : ColumnMapMainEntry) : Prop := mMinVersion < version e.

(** The rows of one record in a fill page: every row but the last is above
    the low-water mark, so that at most one version at or below it is kept,
    and it is the oldest one. *)
Definition floor_ok (l : list ColumnMapMainEntry) : Prop :=
  ∃ init tl, l = init ++ tl ∧ Forall above init ∧ (length tl ≤ 1)%nat.

(** The [n] rows of the fill page from index [from] on. *)
Definition rows (st : Modifier) (from : Z) (n : nat) : list ColumnMapMainEntry :=
  (λ j : nat, fillEntryAt st (from + Z.of_nat j)) <$> seq 0 n.

(** The rows below [fe] are as they were. *)
Definition untouched (st st' : Modifier) (fe : Z) : Prop :=
  ∀ j, j < fe → mFillEntries st' !! j = mFillEntries st !! j.

Lemma rows_S st from n :
  rows st from (S n) = rows st from n ++ [fillEntryAt st (from + Z.of_nat n)].
Proof. unfold rows. rewrite seq_S, fmap_app. done. Qed.

Lemma rows_length st from n : length (rows st from n) = n.
Proof. unfold rows. by rewrite length_fmap, length_seq. Qed.

Lemma rows_ext st st' from n :
  (∀ j, (j < n)%nat →
     mFillEntries st' !! (from + Z.of_nat j) = mFillEntries st !! (from + Z.of_nat j)) →
  rows st' from n = rows st from n.
Proof.
  induction n as [|n IH]; intros H; [done|].
  rewrite !rows_S, IH by (intros; apply H; lia).
  unfold fillEntryAt. rewrite H by lia. done.
Qed.

Lemma rows_app st from n m :
  rows st from (n + m) = rows st from n ++ rows st (from + Z.of_nat n) m.
Proof.
  induction m as [|m IH].
  - rewrite Nat.add_0_r. unfold rows at 3. simpl. by rewrite app_nil_r.
  - rewrite Nat.add_succ_r, !rows_S, IH, <- app_assoc.
    replace (from + Z.of_nat n + Z.of_nat m) with (from + Z.of_nat (n + m)) by lia.
    done.
Qed.

Lemma rows_write st st' fe n e :
  mFillEntries st' = <[fe + Z.of_nat n := e]> (mFillEntries st) →
  rows st' fe (S n) = rows st fe n ++ [e] ∧ untouched st st' fe.
Proof.
  intros H. split.
  - rewrite rows_S. f_equal.
    + apply rows_ext. intros j Hj. rewrite H, lookup_insert_ne; [done|lia].
    + unfold fillEntryAt. by rewrite H, lookup_insert_eq.
  - intros j Hj. rewrite H, lookup_insert_ne; [done|lia].
Qed.

Lemma untouched_refl st fe : untouched st st fe.
Proof. by intros j _. Qed.

Lemma untouched_trans st1 st2 st3 fe :
  untouched st1 st2 fe → untouched st2 st3 fe → untouched st1 st3 fe.
Proof. intros H1 H2 j Hj. rewrite H2, H1; done. Qed.

Lemma untouched_entries st st' fe :
  mFillEntries st' = mFillEntries st → untouched st st' fe.
Proof. intros H j _. by rewrite H. Qed.

Lemma rows_entries st st' from n :
  mFillEntries st' = mFillEntries st → rows st' from n = rows st from n.
Proof. intros H. apply rows_ext. intros. by rewrite H. Qed.

Lemma floor_ok_above l : Forall above l → floor_ok l.
Proof. intros H. exists l, []. rewrite app_nil_r. simpl. split_and!; [done|done|lia]. Qed.

Lemma floor_ok_snoc l e : Forall above l → floor_ok (l ++ [e]).
Proof. intros H. exists l, [e]. simpl. split_and!; [done|done|lia]. Qed.

Lemma inc32_small z : 0 ≤ z → z + 1 < 2 ^ 32 → inc32 z = z + 1.
Proof. intros. unfold inc32. apply wrap32_small. lia. Qed.

Lemma dec32_small z : 1 ≤ z → z < 2 ^ 32 → dec32 z = z - 1.
Proof. intros. unfold dec32. apply wrap32_small. lia. Qed.

(** [processUpdates], row by row.  With [n] rows written for the record so
    far, all above the low-water mark, the loop leaves [n'] rows of which all
    but the last are above it; all of them are when the loop ran to the end
    of the chain. *)
Lemma processUpdatesLoop_spec fe ue updates :
  ∀ lowest wasDelete st ok lowest' wasDelete' st' (n : nat),
  0 ≤ fe → 0 ≤ ue →
  fe + Z.of_nat n + Z.of_nat (length updates) < 2 ^ 32 →
  ue + Z.of_nat n + Z.of_nat (length updates) < 2 ^ 32 →
  mFillIdx st = fe + Z.of_nat n → mUpdateIdx st = ue + Z.of_nat n →
  Forall above (rows st fe n) →
  (wasDelete = true → (1 ≤ n)%nat) →
  processUpdatesLoop updates lowest wasDelete st = (ok, lowest', wasDelete', st') →
  untouched st st' fe ∧
  (∃ m : nat, mUpdateIdx st' = ue + Z.of_nat m) ∧
  (ok = true →
   ∃ n' : nat,
     (n' ≤ n + length updates)%nat ∧
     mFillIdx st' = fe + Z.of_nat n' ∧ mUpdateIdx st' = ue + Z.of_nat n' ∧
     floor_ok (rows st' fe n') ∧
     (mMinVersion < lowest' → Forall above (rows st' fe n')) ∧
     (wasDelete' = true → (1 ≤ n')%nat)).
Proof.
  induction updates as [|e rest IH];
    intros lowest wd st ok lowest' wd' st' n Hfe Hue Hbf Hbu Hf Hu Hab Hwd H;
    simpl in H.
  - injection H as <- <- <- <-.
    split_and!; [apply untouched_refl|by exists n|]. intros _.
    exists n. split_and!; try done; [lia|by apply floor_ok_above].
  - simpl in Hbf, Hbu.
    destruct (wd && (uversion e <? mMinVersion)) eqn:Ec.
    { apply andb_true_iff in Ec as [-> _]. specialize (Hwd eq_refl).
      injection H as <- <- <- <-.
      split_and!; [by apply untouched_entries| |].
      { exists (n - 1)%nat. simpl. rewrite Hu, dec32_small by lia. lia. }
      intros _. destruct n as [|m]; [lia|]. exists m. simpl.
      rewrite Hf, Hu, !dec32_small by lia.
      rewrite rows_S in Hab. apply Forall_app in Hab as [Hab _].
      rewrite (rows_entries st) by reflexivity.
      split_and!; try done; try lia. by apply floor_ok_above. }
    destruct (bool_decide (utype e = DELETE) && (uversion e <=? mMinVersion)).
    { injection H as <- <- <- <-.
      split_and!; [apply untouched_refl|by exists n|]. intros _.
      exists n. split_and!; try done; [lia|by apply floor_ok_above]. }
    set (wd1 := if bool_decide (utype e = DELETE) then true else false).
    assert (∃ sz, H = H ∧
              (let st1 := set_mFillSize (wrap32 (mFillSize st + sz)) st in
               (if mFillSize st1 >? MAX_DATA_SIZE ctx
                then (false, Z.min lowest (uversion e), wd1, st1)
                else if uversion e <=? mMinVersion
                     then (true, Z.min lowest (uversion e), wd1, writeUpdate e st1)
                     else processUpdatesLoop rest (Z.min lowest (uversion e)) wd1
                            (writeUpdate e st1))
               = (ok, lowest', wd', st'))) as (sz & _ & H').
    { unfold wd1. destruct (bool_decide (utype e = DELETE)); eexists; split; try done;
        exact H. }
    clear H. simpl in H'.
    set (st1 := set_mFillSize (wrap32 (mFillSize st + sz)) st) in *.
    destruct (wrap32 (mFillSize st + sz) >? MAX_DATA_SIZE ctx).
    { injection H' as <- <- <- <-.
      split_and!; [by apply untouched_entries|by exists n|done]. }
    assert (mFillEntries (writeUpdate e st1)
            = <[fe + Z.of_nat n := mkEntry (ukey e) (uversion e)]> (mFillEntries st))
      as Hent by (unfold writeUpdate, writeFillEntry; simpl; by rewrite Hf).
    destruct (rows_write st (writeUpdate e st1) fe n _ Hent) as [Hrows Hunt].
    assert (mFillIdx (writeUpdate e st1) = fe + Z.of_nat (S n)) as Hf1.
    { unfold writeUpdate, writeFillEntry. simpl. rewrite Hf, inc32_small by lia. lia. }
    assert (mUpdateIdx (writeUpdate e st1) = ue + Z.of_nat (S n)) as Hu1.
    { unfold writeUpdate, writeFillEntry. simpl. rewrite Hu, inc32_small by lia. lia. }
    destruct (uversion e <=? mMinVersion) eqn:Ev.
    + injection H' as <- <- <- <-. split_and!; [done|by exists (S n)|]. intros _.
      exists (S n). rewrite Hrows. apply Z.leb_le in Ev.
      split_and!; try done; try (simpl; lia).
      by apply floor_ok_snoc.
    + apply Z.leb_gt in Ev.
      assert (Forall above (rows (writeUpdate e st1) fe (S n))) as Hab1.
      { rewrite Hrows. apply Forall_app. split; [done|].
        constructor; [|constructor]. unfold above. simpl. lia. }
      destruct (IH _ _ _ _ _ _ _ (S n) Hfe Hue ltac:(lia) ltac:(lia) Hf1 Hu1 Hab1
                  ltac:(lia) H') as (Hunt' & Hm & Hok).
      split_and!; [by eapply untouched_trans|done|]. intros Hk.
      destruct (Hok Hk) as (n' & ? & ? & ? & ? & ? & ?).
      exists n'. split_and!; try done. simpl. lia.
Qed.

(** The copy loop, row by row.  [nu] rows came from the update chain and
    [c] from the main so far, all above the low-water mark. *)
Lemma copyMain_spec fe ue fuel page k cs : ∀ i wasDelete ce st (nu c : nat),
  0 ≤ fe → 0 ≤ ue →
  fe + Z.of_nat nu + Z.of_nat c + Z.of_nat fuel < 2 ^ 32 →
  ue + Z.of_nat nu < 2 ^ 32 →
  ce = (cs + c)%nat →
  mFillIdx st = fe + Z.of_nat (nu + c) → mUpdateIdx st = ue + Z.of_nat nu →
  Forall above (rows st fe (nu + c)) →
  (wasDelete = true → (1 ≤ nu + c)%nat) →
  match copyMain fuel page k i wasDelete cs ce st with
  | CopyOverflow st' => untouched st st' fe
  | CopyDone i' wasDelete' ce' st' =>
      untouched st st' fe ∧
      ∃ nu' c' : nat,
        ce' = (cs + c')%nat ∧
        mFillIdx st' = fe + Z.of_nat (nu' + c') ∧
        mUpdateIdx st' = ue + Z.of_nat nu' ∧
        (nu' ≤ nu)%nat ∧ (nu' + c' ≤ nu + c + fuel)%nat ∧
        floor_ok (rows st' fe (nu' + c'))
  end.
Proof.
  induction fuel as [|fuel IH];
    intros i wd ce st nu c Hfe Hue Hbf Hbu Hce Hf Hu Hab Hwd; simpl.
  { split; [apply untouched_refl|]. exists nu, c.
    split_and!; try done; [lia|by apply floor_ok_above]. }
  assert (untouched st st fe ∧
          ∃ nu' c' : nat,
            ce = (cs + c')%nat ∧ mFillIdx st = fe + Z.of_nat (nu' + c') ∧
            mUpdateIdx st = ue + Z.of_nat nu' ∧
            (nu' ≤ nu)%nat ∧ (nu' + c' ≤ nu + c + S fuel)%nat ∧
            floor_ok (rows st fe (nu' + c'))) as Hstay.
  { split; [apply untouched_refl|]. exists nu, c.
    split_and!; try done; [lia|by apply floor_ok_above]. }
  destruct (entries page !! i) as [e|]; [|done].
  destruct (negb (key e =? k)); [done|].
  destruct (wd && (version e <? mMinVersion)) eqn:Ec.
  { apply andb_true_iff in Ec as [-> _]. specialize (Hwd eq_refl).
    destruct (cs =? ce)%nat eqn:Ecs.
    - apply Nat.eqb_eq in Ecs. assert (c = 0)%nat as -> by lia.
      rewrite Nat.add_0_r in *. destruct nu as [|m]; [lia|].
      split; [by apply untouched_entries|]. exists m, 0%nat. simpl.
      rewrite Hf, Hu, !dec32_small by lia.
      replace (m + 0)%nat with m by lia.
      rewrite (rows_entries st) by reflexivity.
      rewrite rows_S in Hab. apply Forall_app in Hab as [Hab _].
      split_and!; try done; try lia. by apply floor_ok_above.
    - apply Nat.eqb_neq in Ecs. destruct c as [|c']; [lia|].
      split; [by apply untouched_entries|]. exists nu, c'. simpl.
      rewrite Hf, !dec32_small by lia.
      rewrite (rows_entries st) by reflexivity.
      rewrite Nat.add_succ_r, rows_S in Hab. apply Forall_app in Hab as [Hab _].
      split_and!; try done; try lia. by apply floor_ok_above. }
  destruct ((sizeAt page i =? 0) && (version e <=? mMinVersion)); [done|].
  assert (∀ sz wd1,
            match
              (let st0 := set_mFillSize (wrap32 (mFillSize st + sz)) st in
               if mFillSize st0 >? MAX_DATA_SIZE ctx
               then CopyOverflow st0
               else
                 let st3 := set_mFillIdx (inc32 (mFillIdx st))
                              (writeFillEntry k (version e) st0) in
                 if version e <=? mMinVersion
                 then CopyDone i wd1 (S ce) st3
                 else copyMain fuel page k (S i) wd1 cs (S ce) st3)
            with
            | CopyOverflow st' => untouched st st' fe
            | CopyDone i' wasDelete' ce' st' =>
                untouched st st' fe ∧
                ∃ nu' c' : nat,
                  ce' = (cs + c')%nat ∧
                  mFillIdx st' = fe + Z.of_nat (nu' + c') ∧
                  mUpdateIdx st' = ue + Z.of_nat nu' ∧
                  (nu' ≤ nu)%nat ∧ (nu' + c' ≤ nu + c + S fuel)%nat ∧
                  floor_ok (rows st' fe (nu' + c'))
            end) as Hemit.
  { intros sz wd1. simpl.
    set (st1 := set_mFillSize (wrap32 (mFillSize st + sz)) st).
    destruct (wrap32 (mFillSize st + sz) >? MAX_DATA_SIZE ctx);
      [by apply untouched_entries|].
    set (st3 := set_mFillIdx (inc32 (mFillIdx st)) (writeFillEntry k (version e) st1)).
    assert (mFillEntries st3
            = <[fe + Z.of_nat (nu + c) := mkEntry k (version e)]> (mFillEntries st))
      as Hent by (unfold st3, writeFillEntry; simpl; by rewrite Hf).
    destruct (rows_write st st3 fe (nu + c) _ Hent) as [Hrows Hunt].
    assert (mFillIdx st3 = fe + Z.of_nat (nu + S c)) as Hf3.
    { unfold st3. simpl. rewrite Hf, inc32_small by lia. lia. }
    assert (mUpdateIdx st3 = ue + Z.of_nat nu) as Hu3 by done.
    rewrite <- Nat.add_succ_r in Hrows.
    destruct (version e <=? mMinVersion) eqn:Ev.
    - split; [done|]. exists nu, (S c). rewrite Hrows.
      split_and!; try done; try lia. by apply floor_ok_snoc.
    - apply Z.leb_gt in Ev.
      assert (Forall above (rows st3 fe (nu + S c))) as Hab3.
      { rewrite Hrows. apply Forall_app. split; [done|].
        constructor; [|constructor]. unfold above. simpl. lia. }
      specialize (IH (S i) wd1 (S ce) st3 nu (S c) Hfe Hue ltac:(lia) Hbu ltac:(lia)
                    Hf3 Hu3 Hab3 ltac:(lia)).
      destruct (copyMain fuel page k (S i) wd1 cs (S ce) st3) as [st'|i' wd' ce' st'].
      + by eapply untouched_trans.
      + destruct IH as [Hunt' (nu' & c' & ? & ? & ? & ? & ? & ?)].
        split; [by eapply untouched_trans|]. exists nu', c'.
        split_and!; try done. lia. }
  destruct (sizeAt page i =? 0); apply Hemit.
Qed.

(** *** The invariant of the loop of clean *)

(** The update iterator yields at most [U] entries for one record. *)
Variable U : nat.
Hypothesis updateIter_bound : ∀ lg p b, (length (updateIter lg p b) ≤ U)%nat.

(** The committed rows of the fill page. *)
Definition committed (st : Modifier) : list ColumnMapMainEntry :=
  rows st 0 (Z.to_nat (mFillEndIdx st)).

(** The rows the rounds still to come can add. *)
Definition potential (page : ColumnMapMainPage) (L : Loop) : Z :=
  (Z.of_nat (count page) - Z.of_nat (idx L) + 1)
  * (Z.of_nat U + Z.of_nat (count page)).

(** The rows a round has committed: those between the old and the new
    [mFillEndIdx]. *)
Definition roundRows (st st' : Modifier) : list ColumnMapMainEntry :=
  rows st' (mFillEndIdx st) (Z.to_nat (mFillEndIdx st' - mFillEndIdx st)).

(** Ghost state of the proof: the rows by record (one list per round that
    committed rows), for the pages published so far and for the fill
    page. *)
Record Records := mkRecords {
  published : list (list (list ColumnMapMainEntry));
  current : list (list ColumnMapMainEntry)
}.

(** The rows of a page, from its records. *)
Definition pageRows (records : list (list ColumnMapMainEntry))
    : list ColumnMapMainEntry := concat records.

(** What a round adds to the ghost state: a flush closes the page, a round
    that commits rows adds them as one record. *)
Definition record_round (out : Outcome) (st st' : Modifier) (R : Records) : Records :=
  match out with
  | PageFull => mkRecords (published R ++ [current R]) []
  | Enqueued => mkRecords (published R) (current R ++ [roundRows st st'])
  | Invalidated | InvalidateFailed => R
  end.

(** What holds at the label START: the two assertions of the source on the
    counters, the update marks in order, room in the 32-bit counters for the
    rows still to come; the committed rows are the records of the fill page
    and the pages put on the page list since the beginning (when their rows
    were [old]) are the published records; in every record at most the last
    row is at or below the low-water mark. *)
Record round_inv (old : list (list ColumnMapMainEntry)) (R : Records)
    (page : ColumnMapMainPage) (L : Loop) (st : Modifier) : Prop := mkRoundInv {
  ri_fill : mFillIdx st = mFillEndIdx st;
  ri_upd : mUpdateIdx st = mUpdateEndIdx st;
  ri_fe : 0 ≤ mFillEndIdx st;
  ri_us : 0 ≤ mUpdateStartIdx st ≤ mUpdateEndIdx st;
  ri_fbound : mFillEndIdx st + potential page L < 2 ^ 32;
  ri_ubound : mUpdateEndIdx st + potential page L < 2 ^ 32;
  ri_committed : committed st = pageRows (current R);
  ri_pages : entries <$> mPageList st = old ++ (pageRows <$> published R);
  ri_current : Forall floor_ok (current R);
  ri_published : Forall (Forall floor_ok) (published R)
}.

Lemma slice_rows st z : slice (fillEntryAt st) 0 z = rows st 0 (Z.to_nat z).
Proof.
  unfold slice, rows, seqZ. rewrite Z.sub_0_r, <- list_fmap_compose.
  apply list_fmap_ext. intros i j _. simpl. f_equal. lia.
Qed.

Lemma committed_untouched st st' :
  mFillEndIdx st' = mFillEndIdx st → untouched st st' (mFillEndIdx st) →
  committed st' = committed st.
Proof.
  intros He Hu. unfold committed. rewrite He. apply rows_ext.
  intros j Hj. apply Hu. lia.
Qed.

(** After a flush the invariant holds again, at any loop index whose
    potential fits. *)
Lemma flush_round_inv old R page L' fuel env st n env' st' :
  0 ≤ mFillEndIdx st → committed st = pageRows (current R) →
  entries <$> mPageList st = old ++ (pageRows <$> published R) →
  Forall floor_ok (current R) → Forall (Forall floor_ok) (published R) →
  0 ≤ mUpdateEndIdx st → mUpdateIdx st = mUpdateEndIdx st + Z.of_nat n →
  potential page L' < 2 ^ 32 →
  flush fuel env st = Some (env', st') →
  round_inv old (mkRecords (published R ++ [current R]) []) page L' st'.
Proof.
  intros Hfe Hg Hpg Hcur Hpub Hue Hui Hpot Hfl.
  pose proof (flush_spec _ _ _ _ _ Hfl)
    as (Hfi & Hfe' & _ & _ & _ & _ & Hui' & Hus' & _ & _ & _ & _ & pg & Hpl & _ & Hent).
  assert (mUpdateEndIdx st' = 0) as Hue'.
  { unfold flush, flushFillPage in Hfl.
    destruct (adjustAll fuel env _ _) as [[sh1 env1]|]; [|done].
    revert Hfl. simpl.
    destruct (negb (mUpdateStartIdx st =? mUpdateEndIdx st)); simpl;
      destruct (negb (mUpdateIdx st =? 0)) eqn:E; simpl; intros [= <- <-]; simpl;
      try done; apply negb_false_iff, Z.eqb_eq in E; lia. }
  split; simpl; try lia.
  - unfold committed. by rewrite Hfe'.
  - rewrite Hpl, !fmap_app, Hpg, <- app_assoc. simpl.
    rewrite Hent, slice_rows, <- Hg. done.
  - constructor.
  - apply Forall_app. split; [done|]. by constructor.
Qed.

Lemma potential_le page L L' :
  (idx L ≤ idx L')%nat → potential page L' ≤ potential page L.
Proof. unfold potential. nia. Qed.

Lemma potential_lt page L L' (n : nat) :
  (idx L < idx L')%nat → (n ≤ U + count page)%nat →
  potential page L' + Z.of_nat n ≤ potential page L.
Proof. unfold potential. nia. Qed.

(** A round that commits [n] rows of one record, [nu] of them from the
    update chain, keeps the invariant. *)
Lemma step_round_inv old R page L L' st st' (n nu : nat) :
  round_inv old R page L st →
  potential page L' + Z.of_nat n ≤ potential page L → (nu ≤ n)%nat →
  untouched st st' (mFillEndIdx st) →
  floor_ok (rows st' (mFillEndIdx st) n) →
  mFillIdx st' = mFillEndIdx st + Z.of_nat n →
  mFillEndIdx st' = mFillEndIdx st + Z.of_nat n →
  mUpdateIdx st' = mUpdateEndIdx st + Z.of_nat nu →
  mUpdateEndIdx st' = mUpdateEndIdx st + Z.of_nat nu →
  0 ≤ mUpdateStartIdx st' ≤ mUpdateEndIdx st' →
  mPageList st' = mPageList st →
  round_inv old (mkRecords (published R) (current R ++ [roundRows st st'])) page L' st'.
Proof.
  intros [] Hpot Hnu Hunt Hfl Hf Hfe Hu Hue Hus Hpl.
  assert (roundRows st st' = rows st' (mFillEndIdx st) n) as Hrr.
  { unfold roundRows. f_equal. lia. }
  split; simpl; try lia.
  - unfold committed. rewrite Hfe.
    replace (Z.to_nat (mFillEndIdx st + Z.of_nat n))
      with (Z.to_nat (mFillEndIdx st) + n)%nat by lia.
    unfold pageRows in *.
    rewrite rows_app, concat_app, Hrr. simpl. rewrite app_nil_r. f_equal.
    + rewrite <- ri_committed0. apply rows_ext. intros j Hj. apply Hunt. lia.
    + f_equal. lia.
  - by rewrite Hpl.
  - apply Forall_app. split; [done|]. constructor; [|constructor]. by rewrite Hrr.
  - done.
Qed.

(** A round that commits nothing keeps the invariant. *)
Lemma keep_round_inv old R page L L' st st' :
  round_inv old R page L st →
  potential page L' ≤ potential page L →
  untouched st st' (mFillEndIdx st) →
  mFillIdx st' = mFillEndIdx st → mFillEndIdx st' = mFillEndIdx st →
  mUpdateIdx st' = mUpdateEndIdx st → mUpdateEndIdx st' = mUpdateEndIdx st →
  mUpdateStartIdx st' = mUpdateStartIdx st →
  mPageList st' = mPageList st →
  round_inv old R page L' st'.
Proof.
  intros [] Hpot Hunt Hf Hfe Hu Hue Hus Hpl.
  split; try lia; try done.
  - by rewrite (committed_untouched st st').
  - by rewrite Hpl.
Qed.

Lemma floor_ok_nil : floor_ok [].
Proof. by apply floor_ok_above. Qed.

Lemma copyMain_overflow_update fuel page k cs : ∀ i wasDelete ce st st',
  copyMain fuel page k i wasDelete cs ce st = CopyOverflow st' →
  mUpdateIdx st' = mUpdateIdx st.
Proof.
  induction fuel as [|fuel IH]; intros i wd ce st st'; simpl; [done|].
  destruct (entries page !! i) as [e|]; [|done].
  destruct (negb (key e =? k)); [done|].
  destruct (wd && (version e <? mMinVersion)); [by destruct (cs =? ce)%nat|].
  destruct ((sizeAt page i =? 0) && (version e <=? mMinVersion)); [done|].
  destruct (sizeAt page i =? 0); simpl;
    (destruct (_ >? MAX_DATA_SIZE ctx); [by intros [= <-]|]);
    (destruct (version e <=? mMinVersion); [done|]);
    intros H; by rewrite (IH _ _ _ _ _ H).
Qed.

Lemma flushPending_rows page L st :
  mFillEntries (snd (flushPending page L st)) = mFillEntries st ∧
  mUpdateStartIdx (snd (flushPending page L st)) = mUpdateStartIdx st.
Proof. unfold flushPending. by destruct (negb _). Qed.

Lemma potential_room page L :
  (idx L < count page)%nat →
  Z.of_nat U + Z.of_nat (count page) ≤ potential page L.
Proof. unfold potential. nia. Qed.

(** The second half of a round keeps the invariant.  [st0] is the state at
    START and [st] the state after [nu] rows of the update chain, all above
    the low-water mark. *)
Lemma cleanMain_inv old R fuel page L0 newest i wd L env st0 st (nu : nat)
    out L' env' st' :
  (idx L0 < count page)%nat → (idx L0 ≤ i)%nat →
  round_inv old R page L0 st0 →
  mFillEndIdx st = mFillEndIdx st0 → mUpdateEndIdx st = mUpdateEndIdx st0 →
  mUpdateStartIdx st = mUpdateStartIdx st0 → mPageList st = mPageList st0 →
  untouched st0 st (mFillEndIdx st0) →
  mFillIdx st = mFillEndIdx st0 + Z.of_nat nu →
  mUpdateIdx st = mUpdateEndIdx st0 + Z.of_nat nu →
  (nu ≤ U)%nat →
  Forall above (rows st (mFillEndIdx st0) nu) → (wd = true → (1 ≤ nu)%nat) →
  cleanMain fuel page (idx L0) newest i wd L env st = Some (out, L', env', st') →
  round_inv old (record_round out st0 st' R) page L' st'.
Proof.
  intros Hb Hi Hinv Efe Eue Eus Epl Hunt Hf Hu Hnu Hab Hwd Hrun.
  pose proof (cleanMain_result _ _ _ _ _ _ _ _ _ _ _ _ _ Hb Hi Hrun) as Hres.
  assert (out ≠ PageFull →
          (idx L0 ≤ idx L')%nat ∧ (out = Enqueued → (idx L0 < idx L')%nat)) as Hidx.
  { destruct out; simpl in Hres; intros ?; try done; split; try done; try lia;
      intros _; lia. }
  clear Hres. pose proof Hinv as []. pose proof (potential_room page L0 Hb) as Hroom.
  revert Hrun. unfold cleanMain.
  set (k := key (entryAt page (idx L0))).
  assert (mFillIdx st = mFillEndIdx st0 + Z.of_nat (nu + 0)) as Hf0
    by (rewrite Nat.add_0_r; exact Hf).
  assert (Forall above (rows st (mFillEndIdx st0) (nu + 0))) as Hab0
    by (rewrite Nat.add_0_r; exact Hab).
  assert (wd = true → (1 ≤ nu + 0)%nat) as Hwd0
    by (rewrite Nat.add_0_r; exact Hwd).
  pose proof (copyMain_spec (mFillEndIdx st0) (mUpdateEndIdx st0) (count page) page k i
                i wd i st nu 0 ri_fe0 ltac:(lia) ltac:(lia) ltac:(lia) ltac:(lia)
                Hf0 Hu Hab0 Hwd0) as Hspec.
  pose proof (copyMain_frame (count page) page k i wd i i st) as Hfr.
  pose proof (copyMain_overflow_update (count page) page k i i wd i st) as Hov.
  destruct (copyMain (count page) page k i wd i i st) as [stc|i' wd' ce' stc].
  - destruct (flushPending page L stc) as [L1 st1] eqn:Efp.
    pose proof (flushPending_frame page L stc) as Hp.
    pose proof (flushPending_rows page L stc) as [Hr_ent Hr_us].
    rewrite Efp in Hp, Hr_ent, Hr_us. simpl in Hp, Hr_ent, Hr_us.
    destruct Hp as (_ & _ & _ & Hp_pl & Hp_fe & Hp_fi & Hp_ue & Hp_ui & _).
    destruct Hfr. specialize (Hov _ eq_refl).
    destruct (flush fuel env st1) as [[env1 st2]|] eqn:Efl; [|done].
    intros [= <- <- <- <-].
    assert (untouched st0 st1 (mFillEndIdx st0)) as Hunt1.
    { eapply untouched_trans; [exact Hunt|].
      eapply untouched_trans; [exact Hspec|]. by apply untouched_entries. }
    apply (flush_round_inv old R page _ fuel env st1 nu env1 st2); try lia;
      try done.
    + rewrite (committed_untouched st0 st1); [done|lia|].
      exact Hunt1.
    + by rewrite Hp_pl, fr_pages0, Epl.
    + unfold potential in *. simpl. lia.
  - destruct Hspec as (Hunt' & nu' & c' & Hce & Hfi & Hui & Hnu' & Hsum & Hfl).
    destruct Hfr as [[] Hii].
    assert (untouched st0 stc (mFillEndIdx st0)) as Hunt1
      by (eapply untouched_trans; [exact Hunt|exact Hunt']).
    destruct (mFillIdx stc =? mFillEndIdx stc) eqn:E.
    + apply Z.eqb_eq in E.
      assert (nu' + c' = 0)%nat as Hz by lia.
      assert (nu' = 0)%nat as Hz' by lia.
      rewrite Hz in Hfi, Hfl. rewrite Hz' in Hui.
      destruct (invalidate _ newest k env stc) as [[ok env1] st1] eqn:Ei.
      pose proof (invalidate_spec _ _ _ _ _ _ _ _ Ei) as [_ Hst].
      destruct ok; destruct Hst as [_ ->]; intros [= <- <- <- <-];
        destruct (Hidx ltac:(done)) as [Hle _];
        pose proof (potential_le page L0 _ Hle);
        apply (keep_round_inv old R page L0 _ st0); simpl; try done; try lia;
        congruence.
    + apply Z.eqb_neq in E.
      assert (nu' + c' ≤ U + count page)%nat as Hn by lia.
      cbv zeta.
      match goal with
      | |- context [if ?c then _ else _] => destruct c eqn:Eext
      end.
      * apply andb_true_iff in Eext as [_ Eext]. apply Z.eqb_eq in Eext.
        simpl in Eext.
        intros [= <- <- <- <-]. destruct (Hidx ltac:(done)) as [_ Hlt].
        pose proof (potential_lt page L0 _ _ (Hlt eq_refl) Hn).
        apply (step_round_inv old R page L0 _ st0 _ (nu' + c') nu'); simpl;
          try done; try lia; try congruence.
      * clear Eext.
        destruct (flushPending page L _) as [L1 st1] eqn:Efp.
        match type of Efp with flushPending _ _ ?s = _ =>
          pose proof (flushPending_frame page L s) as Hp;
          pose proof (flushPending_rows page L s) as [Hr_ent Hr_us]
        end.
        rewrite Efp in Hp, Hr_ent, Hr_us. simpl in Hp, Hr_ent, Hr_us.
        destruct Hp as (_ & _ & _ & Hp_pl & Hp_fe & Hp_fi & Hp_ue & Hp_ui & _).
        assert (untouched st0 st1 (mFillEndIdx st0)) as Hunt2.
        { eapply untouched_trans; [exact Hunt1|]. by apply untouched_entries. }
        assert (rows st1 (mFillEndIdx st0) (nu' + c')
                = rows stc (mFillEndIdx st0) (nu' + c')) as Hrows
          by (by apply rows_entries).
        destruct (negb (i =? ce')%nat);
          [destruct (negb (mUpdateStartIdx _ =? mUpdateEndIdx _))|];
          intros [= <- <- <- <-]; destruct (Hidx ltac:(done)) as [_ Hlt];
          pose proof (potential_lt page L0 _ _ (Hlt eq_refl) Hn);
          apply (step_round_inv old R page L0 _ st0 _ (nu' + c') nu'); simpl;
          try done; try lia; try congruence;
          rewrite (rows_entries st1) by reflexivity; by rewrite Hrows.
Qed.

(** One round of the loop of [clean] keeps the invariant. *)
Lemma cleanRound_inv old R fuel page L env st out L' env' st' :
  (idx L < count page)%nat → round_inv old R page L st →
  cleanRound fuel page L env st = Some (out, L', env', st') →
  round_inv old (record_round out st st' R) page L' st'.
Proof.
  intros Hb Hinv Hrun.
  pose proof Hinv as []. pose proof (potential_room page L Hb) as Hroom.
  assert (in_range st) as Hrange by (unfold in_range; lia).
  pose proof (cleanRound_result _ _ _ _ _ _ _ _ _ Hb Hrange ri_fill0 ri_upd0 Hrun)
    as Hres.
  assert (out ≠ PageFull →
          (idx L ≤ idx L')%nat ∧ (out = Enqueued → (idx L < idx L')%nat)) as Hidx.
  { destruct out; simpl in Hres; intros ?; try done; split; try done; try lia;
      intros _; lia. }
  clear Hres. revert Hrun. unfold cleanRound.
  set (k := key (entryAt page (idx L))).
  set (newest := load (shared st) (newestSlot page (idx L))).
  destruct (negb (newest =? 0)).
  2:{ intros Hrun.
      apply (cleanMain_inv old R fuel page L newest (idx L) false L env st st 0
               out L' env' st'); try done; lia. }
  destruct (flushPending page L st) as [L1 st1] eqn:Efp.
  pose proof (flushPending_frame page L st) as Hp.
  pose proof (flushPending_rows page L st) as [Hr_ent Hr_us].
  rewrite Efp in Hp, Hr_ent, Hr_us. simpl in Hp, Hr_ent, Hr_us.
  destruct Hp as (_ & _ & _ & Hp_pl & Hp_fe & Hp_fi & Hp_ue & Hp_ui & _ & _ & Hp_idx).
  unfold processUpdates.
  set (updates := updateIter (log (shared st1)) newest (version (entryAt page (idx L)))).
  pose proof (updateIter_bound (log (shared st1)) newest
                (version (entryAt page (idx L)))) as Hlen.
  fold updates in Hlen.
  destruct (processUpdatesLoop updates UINT64_MAX false st1)
    as [[[ok lowest] wd] st2] eqn:Epu.
  pose proof (processUpdatesLoop_frame _ _ _ _ _ _ _ _ Epu) as [[] _].
  assert (rows st1 (mFillEndIdx st) 0 = []) as Hnil by done.
  pose proof (processUpdatesLoop_spec (mFillEndIdx st) (mUpdateEndIdx st) updates
                UINT64_MAX false st1 ok lowest wd st2 0 ri_fe0 ltac:(lia) ltac:(lia)
                ltac:(lia) ltac:(lia) ltac:(lia) (Forall_nil_2 _) ltac:(done) Epu)
    as (Hunt & [m Hm] & Hok).
  assert (untouched st st2 (mFillEndIdx st)) as Hunt2.
  { eapply untouched_trans; [|exact Hunt]. by apply untouched_entries. }
  destruct ok.
  - destruct (Hok eq_refl) as (n' & Hn' & Hfi & Hui & Hfl & Hab & Hwd). clear Hok.
    destruct (lowest <=? mMinVersion) eqn:El.
    + destruct (mUpdateIdx st2 =? mUpdateEndIdx st2) eqn:E.
      * apply Z.eqb_eq in E. assert (n' = 0)%nat as -> by lia.
        destruct (invalidate _ newest k env st2) as [[okc env1] st3] eqn:Ei.
        pose proof (invalidate_spec _ _ _ _ _ _ _ _ Ei) as [_ Hst].
        destruct okc; destruct Hst as [_ ->]; intros [= <- <- <- <-];
          destruct (Hidx ltac:(done)) as [Hle _];
          pose proof (potential_le page L _ Hle);
          apply (keep_round_inv old R page L _ st); simpl; try done; try lia;
          congruence.
      * apply Z.eqb_neq in E. intros [= <- <- <- <-].
        destruct (Hidx ltac:(done)) as [_ Hlt].
        pose proof (potential_lt page L _ n' (Hlt eq_refl) ltac:(simpl in *; lia)).
        apply (step_round_inv old R page L _ st _ n' n'); simpl;
          try done; try lia; congruence.
    + apply Z.leb_gt in El. intros Hrun.
      refine (cleanMain_inv old R fuel page L newest _ wd L1 env st st2 n'
                out L' env' st' _ _ _ _ _ _ _ _ _ _ _ _ _ Hrun);
        try done; try lia; try congruence.
      * apply skipWhile_ge.
      * by apply Hab.
  - destruct (flushPending page L1 st2) as [L2 st3] eqn:Efp2.
    pose proof (flushPending_frame page L1 st2) as Hp2.
    pose proof (flushPending_rows page L1 st2) as [Hr_ent2 Hr_us2].
    rewrite Efp2 in Hp2, Hr_ent2, Hr_us2. simpl in Hp2, Hr_ent2, Hr_us2.
    destruct Hp2 as (_ & _ & _ & Hp_pl2 & Hp_fe2 & Hp_fi2 & Hp_ue2 & Hp_ui2 & _ & _
                     & Hp_idx2).
    destruct (flush fuel env st3) as [[env1 st4]|] eqn:Efl; [|done].
    intros [= <- <- <- <-].
    apply (flush_round_inv old R page _ fuel env st3 m env1 st4); try lia;
      try done.
    + rewrite (committed_untouched st st3); [done|lia|].
      eapply untouched_trans; [exact Hunt2|]. by apply untouched_entries.
    + by rewrite Hp_pl2, fr_pages0, Hp_pl.
    + unfold potential in *. rewrite Hp_idx2, Hp_idx. lia.
Qed.

Lemma flushPending_round_inv old R page L st :
  round_inv old R page L st →
  round_inv old R page L (snd (flushPending page L st)).
Proof.
  intros Hinv.
  pose proof (flushPending_frame page L st)
    as (_ & _ & _ & Hpl & Hfe & Hfi & Hue & Hui & _).
  pose proof (flushPending_rows page L st) as [Hent Hus].
  pose proof Hinv as [].
  apply (keep_round_inv old R page L L st); try done; try lia.
  by apply untouched_entries.
Qed.

(** The loop of [clean], with the ghost state carried along. *)
Fixpoint cleanLoopRecords (rounds fuel : nat) (page : ColumnMapMainPage) (L : Loop)
    (env : Env) (st : Modifier) (R : Records) : option (Env * Modifier * Records) :=
  match rounds with
  | O => None
  | S rounds' =>
      if (idx L <? count page)%nat then
        match cleanRound fuel page L env st with
        | None => None
        | Some (out, L', env', st') =>
            cleanLoopRecords rounds' fuel page L' env' st' (record_round out st st' R)
        end
      else Some (env, snd (flushPending page L st), R)
  end.

(** The ghost state does not change what the loop computes. *)
Lemma cleanLoopRecords_cleanLoop rounds fuel page : ∀ L env st R,
  (λ r, (r.1.1, r.1.2)) <$> cleanLoopRecords rounds fuel page L env st R
  = cleanLoop rounds fuel page L env st.
Proof.
  induction rounds as [|rounds IH]; intros L env st R; simpl; [done|].
  destruct (idx L <? count page)%nat; [|done].
  destruct (cleanRound fuel page L env st) as [[[[out L'] env'] st']|]; [|done].
  apply IH.
Qed.

Lemma cleanLoopRecords_inv old rounds fuel page : ∀ L env st R env' st' R',
  round_inv old R page L st →
  cleanLoopRecords rounds fuel page L env st R = Some (env', st', R') →
  round_inv old R' page L st' ∨ ∃ L', round_inv old R' page L' st'.
Proof.
  induction rounds as [|rounds IH]; intros L env st R env' st' R' Hinv; simpl; [done|].
  destruct (idx L <? count page)%nat eqn:Elt.
  - apply Nat.ltb_lt in Elt.
    destruct (cleanRound fuel page L env st) as [[[[out L1] env1] st1]|] eqn:Er; [|done].
    intros Hrun. right.
    pose proof (cleanRound_inv old R fuel page L env st out L1 env1 st1 Elt Hinv Er)
      as Hinv1.
    destruct (IH _ _ _ _ _ _ _ Hinv1 Hrun) as [?|[L' ?]]; eauto.
  - intros [= <- <- <-]. left. by apply flushPending_round_inv.
Qed.

(** X1.  [processUpdates] moves [mFillIdx] and [mUpdateIdx] in step and
    writes only at and above the [mFillIdx] it started from: when it returns
    true it has left [n] rows, at most one per entry of the chain, both
    counters are [n] further, every row but the last is above the low-water
    mark (all of them when the iterator's lowest version is above it), and
    [wasDelete] is only left set with a row written. *)
Theorem processUpdates_rows_and_counters newest baseVersion st ok lowest wasDelete st' :
  0 ≤ mFillIdx st → 0 ≤ mUpdateIdx st →
  mFillIdx st + Z.of_nat (length (updateIter (log (shared st)) newest baseVersion))
    < 2 ^ 32 →
  mUpdateIdx st + Z.of_nat (length (updateIter (log (shared st)) newest baseVersion))
    < 2 ^ 32 →
  processUpdates newest baseVersion false st = (ok, lowest, wasDelete, st') →
  untouched st st' (mFillIdx st) ∧
  mFillEndIdx st' = mFillEndIdx st ∧ mUpdateEndIdx st' = mUpdateEndIdx st ∧
  (ok = true →
   ∃ n : nat,
     (n ≤ length (updateIter (log (shared st)) newest baseVersion))%nat ∧
     mFillIdx st' = mFillIdx st + Z.of_nat n ∧
     mUpdateIdx st' = mUpdateIdx st + Z.of_nat n ∧
     floor_ok (rows st' (mFillIdx st) n) ∧
     (mMinVersion < lowest → Forall above (rows st' (mFillIdx st) n)) ∧
     (wasDelete = true → (1 ≤ n)%nat)).
Proof.
  intros Hf Hu Hbf Hbu Hrun. unfold processUpdates in Hrun.
  set (updates := updateIter (log (shared st)) newest baseVersion) in *.
  pose proof (processUpdatesLoop_frame _ _ _ _ _ _ _ _ Hrun) as [[] _].
  pose proof (processUpdatesLoop_spec (mFillIdx st) (mUpdateIdx st) updates
                UINT64_MAX false st ok lowest wasDelete st' 0
                Hf Hu ltac:(lia) ltac:(lia) ltac:(lia) ltac:(lia) (Forall_nil_2 _)
                ltac:(done) Hrun) as (Hunt & _ & Hok).
  split_and!; try done.
Qed.

(** X2.  The copy loop of [clean] over the main versions of one record,
    entered after [nu] rows of the update chain: it writes only at and above
    [mFillEndIdx], and when it ends without overflow the count the source
    asserts holds (rows written = rows copied from main + rows left from the
    update chain), no update row has been added, and every row of the
    record but the last is above the low-water mark. *)
Theorem copy_loop_count_matches fe ue page k i wasDelete st (nu : nat) :
  0 ≤ fe → 0 ≤ ue →
  fe + Z.of_nat nu + Z.of_nat (count page) < 2 ^ 32 →
  ue + Z.of_nat nu < 2 ^ 32 →
  mFillIdx st = fe + Z.of_nat nu → mUpdateIdx st = ue + Z.of_nat nu →
  Forall above (rows st fe nu) → (wasDelete = true → (1 ≤ nu)%nat) →
  match copyMain (count page) page k i wasDelete i i st with
  | CopyOverflow st' =>
      untouched st st' fe ∧ mUpdateIdx st' = mUpdateIdx st ∧
      MAX_DATA_SIZE ctx < mFillSize st'
  | CopyDone i' wasDelete' copyEndIdx st' =>
      untouched st st' fe ∧ (i ≤ i')%nat ∧ (i ≤ copyEndIdx)%nat ∧
      mFillIdx st' - fe
      = (Z.of_nat copyEndIdx - Z.of_nat i) + (mUpdateIdx st' - ue) ∧
      ue ≤ mUpdateIdx st' ≤ ue + Z.of_nat nu ∧
      fe ≤ mFillIdx st' ∧
      floor_ok (rows st' fe (Z.to_nat (mFillIdx st' - fe)))
  end.
Proof.
  intros Hfe Hue Hbf Hbu Hf Hu Hab Hwd.
  assert (mFillIdx st = fe + Z.of_nat (nu + 0)) as Hf0
    by (rewrite Nat.add_0_r; exact Hf).
  assert (Forall above (rows st fe (nu + 0))) as Hab0
    by (rewrite Nat.add_0_r; exact Hab).
  assert (wasDelete = true → (1 ≤ nu + 0)%nat) as Hwd0
    by (rewrite Nat.add_0_r; exact Hwd).
  pose proof (copyMain_spec fe ue (count page) page k i i wasDelete i st nu 0
                Hfe Hue ltac:(lia) Hbu ltac:(lia) Hf0 Hu Hab0 Hwd0) as Hspec.
  pose proof (copyMain_frame (count page) page k i wasDelete i i st) as Hfr.
  pose proof (copyMain_overflow_update (count page) page k i i wasDelete i st) as Hov.
  pose proof (copyMain_overflow (count page) page k i wasDelete i i st) as Hsz.
  destruct (copyMain (count page) page k i wasDelete i i st) as [stc|i' wd' ce' stc].
  - split_and!; [done|by apply Hov|by apply Hsz].
  - destruct Hspec as (Hunt & nu' & c' & Hce & Hfi & Hui & Hnu' & Hsum & Hfl).
    destruct Hfr as [_ Hii].
    replace (Z.to_nat (mFillIdx stc - fe)) with (nu' + c')%nat by lia.
    split_and!; try done; lia.
Qed.

(** X3.  One round of the loop of [clean], started with the two START
    assertions true, ends with them true again.  A round that commits rows
    (Enqueued) appends them behind the committed rows of the fill page as one
    record, not empty, in which at most the last row is at or below the
    low-water mark; a round that invalidates, or fails to, leaves the
    committed rows and the page list alone; a round that runs out of room
    puts exactly the committed rows on the page list as a page and starts
    the fresh page with none. *)
Theorem round_commits_one_record old R fuel page L env st out L' env' st' :
  (idx L < count page)%nat → round_inv old R page L st →
  cleanRound fuel page L env st = Some (out, L', env', st') →
  mFillIdx st' = mFillEndIdx st' ∧ mUpdateIdx st' = mUpdateEndIdx st' ∧
  match out with
  | PageFull =>
      entries <$> mPageList st' = (entries <$> mPageList st) ++ [committed st] ∧
      committed st' = []
  | Enqueued =>
      entries <$> mPageList st' = entries <$> mPageList st ∧
      committed st' = committed st ++ roundRows st st' ∧
      roundRows st st' ≠ [] ∧ floor_ok (roundRows st st')
  | Invalidated | InvalidateFailed =>
      entries <$> mPageList st' = entries <$> mPageList st ∧
      committed st' = committed st
  end.
Proof.
  intros Hb Hinv Hrun.
  pose proof (cleanRound_inv old R fuel page L env st out L' env' st' Hb Hinv Hrun)
    as Hinv'.
  pose proof Hinv as []. pose proof (potential_room page L Hb) as Hroom.
  assert (in_range st) as Hrange by (unfold in_range; lia).
  pose proof (cleanRound_result _ _ _ _ _ _ _ _ _ Hb Hrange ri_fill0 ri_upd0 Hrun)
    as Hres.
  destruct Hinv' as [Hf' Hu' Hfe' _ _ _ Hc' Hp' Hcur' _].
  split_and!; try done.
  destruct out; simpl in Hc', Hp', Hcur', Hres.
  - rewrite Hp', fmap_app, app_assoc, <- ri_pages0. simpl.
    by rewrite ri_committed0.
  - by rewrite Hp', Hc', ri_pages0, ri_committed0.
  - by rewrite Hp', Hc', ri_pages0, ri_committed0.
  - unfold pageRows in *. rewrite concat_app in Hc'. simpl in Hc'.
    rewrite app_nil_r, <- ri_committed0 in Hc'.
    apply Forall_app in Hcur' as [_ Hrr]. apply Forall_cons in Hrr as [Hrr _].
    split_and!; try done.
    + by rewrite Hp', ri_pages0.
    + destruct Hres as (Hne & _). intros Hnil.
      assert (length (roundRows st st') = 0%nat) as Hl by (by rewrite Hnil).
      unfold roundRows in Hl. rewrite rows_length in Hl.
      assert (length (committed st') = length (committed st)) as Hl'
        by (by rewrite Hc', Hnil, app_nil_r).
      unfold committed in Hl'. rewrite !rows_length in Hl'. lia.
Qed.

(** X4.  A run of [clean] that compacts the page (returns true): every page
    it has put on the page list, and the committed part of the fill page it
    leaves, is made of whole records, the rows that one round committed, and
    in every record at most the last row is at or below the low-water mark.
    The two START assertions hold at the end.  [cleanLoopRecords] is the
    loop with the records of each round written down. *)
Theorem clean_publishes_whole_records old R rounds fuel page env st env' st' :
  round_inv old R page (mkLoop 0 0 0) st →
  clean rounds fuel page env st = Some (true, env', st') →
  ∃ R',
    cleanLoopRecords rounds fuel page (mkLoop 0 0 0) env st R = Some (env', st', R') ∧
    entries <$> mPageList st' = old ++ (pageRows <$> published R') ∧
    committed st' = pageRows (current R') ∧
    Forall (Forall floor_ok) (published R') ∧ Forall floor_ok (current R') ∧
    mFillIdx st' = mFillEndIdx st' ∧ mUpdateIdx st' = mUpdateEndIdx st'.
Proof.
  intros Hinv. unfold clean.
  destruct (negb (needsCleaning (shared st) page)); [done|].
  pose proof (cleanLoopRecords_cleanLoop rounds fuel page (mkLoop 0 0 0) env st R)
    as Herase.
  destruct (cleanLoop rounds fuel page (mkLoop 0 0 0) env st) as [[env1 st1]|];
    [|done].
  intros [= <- <-].
  destruct (cleanLoopRecords rounds fuel page (mkLoop 0 0 0) env st R)
    as [[[env2 st2] R2]|] eqn:Erun; [|done].
  simpl in Herase. injection Herase as -> ->.
  exists R2. split; [done|].
  destruct (cleanLoopRecords_inv old _ _ _ _ _ _ _ _ _ _ Hinv Erun) as [[]|[L' []]];
    done.
Qed.

(** *** needsCleaning has a reason when it says yes *)

Lemma purgeable_none fuel page k : ∀ i,
  purgeable fuel page k i = None →
  ∃ j, (i ≤ j)%nat ∧ (j < count page)%nat ∧
       (∀ m, (i ≤ m ≤ j)%nat → key (entryAt page m) = k) ∧
       version (entryAt page j) < mMinVersion.
Proof.
  induction fuel as [|fuel IH]; intros i; simpl; [done|].
  destruct (entries page !! i) as [e|] eqn:Ee; [|done].
  assert (entryAt page i = e) as Hat by (unfold entryAt; by rewrite Ee).
  destruct (key e =? k) eqn:Ek; [|done]. apply Z.eqb_eq in Ek.
  destruct (version e <? mMinVersion) eqn:Ev.
  - intros _. apply Z.ltb_lt in Ev. exists i. split_and!; [lia| | |by rewrite Hat].
    + unfold count. by eapply lookup_lt_Some.
    + intros m Hm. assert (m = i) as -> by lia. by rewrite Hat.
  - intros H. destruct (IH _ H) as (j & Hj & Hc & Hk & Hv).
    exists j. split_and!; [lia|done| |done].
    intros m Hm. destruct (decide (m = i)) as [->|]; [by rewrite Hat|].
    apply Hk. lia.
Qed.

Lemma needsCleaningLoop_true fuel sh page : ∀ i,
  needsCleaningLoop fuel sh page i = true →
  (∃ j, (j < count page)%nat ∧ load sh (newestSlot page j) ≠ 0) ∨
  (∃ j, (0 < j < count page)%nat ∧
        key (entryAt page j) = key (entryAt page (j - 1)) ∧
        version (entryAt page j) < mMinVersion).
Proof.
  induction fuel as [|fuel IH]; intros i; simpl; [done|].
  destruct (i <? count page)%nat eqn:Ei; [|done]. apply Nat.ltb_lt in Ei.
  destruct (negb (load sh (newestSlot page i) =? 0)) eqn:El.
  { intros _. left. exists i. split; [done|].
    apply negb_true_iff, Z.eqb_neq in El. done. }
  destruct ((i + 1 =? count page)%nat
            || negb (key (entryAt page i) =? key (entryAt page (i + 1)))); [done|].
  destruct (purgeable (count page) page (key (entryAt page i)) (S i)) as [i'|] eqn:Ep.
  - apply IH.
  - intros _. right. destruct (purgeable_none _ _ _ _ Ep) as (j & Hj & Hc & Hk & Hv).
    exists j. split_and!; [lia|done| |done].
    rewrite (Hk j) by lia.
    destruct (decide (j - 1 = i)%nat) as [->|]; [done|].
    rewrite (Hk (j - 1)%nat) by lia. done.
Qed.

(** X5.  [needsCleaning] answers true only with a reason on the page: a
    row whose [newest] is not null (a pending update), or a row that is not
    the first of its record and whose version is below the low-water
    mark. *)
Theorem needsCleaning_true_has_reason sh page :
  needsCleaning sh page = true →
  (∃ j, (j < count page)%nat ∧ load sh (newestSlot page j) ≠ 0) ∨
  (∃ j, (0 < j < count page)%nat ∧
        key (entryAt page j) = key (entryAt page (j - 1)) ∧
        version (entryAt page j) < mMinVersion).
Proof. apply needsCleaningLoop_true. Qed.

(** *** One size for every row *)

(** The rows the clean actions stand for. *)
Definition span (A : list CleanAction) : Z :=
  foldr (λ a s, (endIdx a - startIdx a) + s) 0 A.

(** A page with as many sizes as rows. *)
Definition sized (pg : ColumnMapMainPage) : Prop :=
  length (sizes pg) = length (entries pg).

(** The clean actions, the pending region of the source page and the pending
    region of the update page together stand for the committed rows of the
    fill page, and the pages on the page list have one size for every
    row. *)
Record cover (L : Loop) (st : Modifier) : Prop := mkCover {
  cv_main : (mainStartIdx L ≤ mainEndIdx L)%nat;
  cv_actions : Forall (λ a, startIdx a ≤ endIdx a) (mCleanActions st);
  cv_span :
    span (mCleanActions st)
    + (Z.of_nat (mainEndIdx L) - Z.of_nat (mainStartIdx L))
    + (mUpdateEndIdx st - mUpdateStartIdx st) = mFillEndIdx st;
  cv_pages : Forall sized (mPageList st)
}.

Lemma span_app A B : span (A ++ B) = span A + span B.
Proof. induction A as [|a A IH]; simpl; [done|]. rewrite IH. lia. Qed.

Lemma span_length st A :
  Forall (λ a, startIdx a ≤ endIdx a) A →
  Z.of_nat (length (concat ((λ a, slice (sizeData st (caPage a)) (startIdx a) (endIdx a))
                              <$> A))) = span A.
Proof.
  induction 1 as [|a A Ha _ IH]; csimpl; [done|].
  rewrite length_app, Nat2Z.inj_add, IH. unfold slice.
  rewrite length_fmap, length_seqZ. lia.
Qed.

Lemma cover_frame L st st' :
  frame st st' → cover L st → cover L st'.
Proof.
  intros [] []. split; try done; congruence.
Qed.

Lemma flushPending_cover page L st :
  cover L st →
  cover (fst (flushPending page L st)) (snd (flushPending page L st)) ∧
  mainStartIdx (fst (flushPending page L st))
  = mainEndIdx (fst (flushPending page L st)).
Proof.
  intros []. unfold flushPending.
  destruct (negb (mainStartIdx L =? mainEndIdx L)%nat) eqn:E; simpl.
  - split; [|done]. split; simpl; try done.
    + apply Forall_app. split; [done|]. constructor; [simpl; lia|constructor].
    + rewrite span_app. simpl. lia.
  - apply negb_false_iff, Nat.eqb_eq in E. done.
Qed.

(** A flush with no pending region of the source page publishes a page with
    one size for every row. *)
Lemma flush_cover L L' fuel env st env' st' :
  cover L st → mainStartIdx L = mainEndIdx L → mainStartIdx L' = mainEndIdx L' →
  0 ≤ mUpdateStartIdx st ≤ mUpdateEndIdx st → 0 ≤ mFillEndIdx st →
  flush fuel env st = Some (env', st') →
  cover L' st'.
Proof.
  intros [] HL HL' Hus Hfe. unfold flush, flushFillPage.
  destruct (adjustAll fuel env _ _) as [[sh1 env1]|]; [|done].
  destruct (negb (mUpdateStartIdx st =? mUpdateEndIdx st)) eqn:E; simpl;
    destruct (negb (mUpdateIdx st =? 0)); simpl; intros [= <- <-];
    (split; simpl; [lia|constructor|lia|]);
    (apply Forall_app; split; [done|]); (constructor; [|constructor]);
    unfold sized; simpl; apply Nat2Z.inj;
    (rewrite span_length;
     [|try (apply Forall_app; split; [done|]; constructor; [simpl; lia|constructor]);
       done]);
    unfold slice; rewrite length_fmap, length_seqZ, ?span_app; simpl; lia.
Qed.

Ltac cover_step :=
  split; simpl;
  [lia
  |repeat (apply Forall_app; split; [|constructor; [simpl; lia|constructor]]);
   try done; try congruence
  |rewrite ?span_app; simpl; try lia; try congruence
  |try done; try congruence].

(** The second half of a round keeps the clean actions in step with the
    committed rows. *)
Lemma cleanMain_cover fuel page baseIdx newest i wd L env st (nu : nat)
    out L' env' st' :
  0 ≤ mFillEndIdx st → 0 ≤ mUpdateStartIdx st ≤ mUpdateEndIdx st →
  mFillEndIdx st + Z.of_nat nu + Z.of_nat (count page) < 2 ^ 32 →
  mUpdateEndIdx st + Z.of_nat nu < 2 ^ 32 →
  mFillIdx st = mFillEndIdx st + Z.of_nat nu →
  mUpdateIdx st = mUpdateEndIdx st + Z.of_nat nu →
  Forall above (rows st (mFillEndIdx st) nu) → (wd = true → (1 ≤ nu)%nat) →
  cover L st →
  cleanMain fuel page baseIdx newest i wd L env st = Some (out, L', env', st') →
  cover L' st'.
Proof.
  intros Hfe Hus Hbf Hbu Hf Hu Hab Hwd Hcov.
  unfold cleanMain.
  set (k := key (entryAt page baseIdx)).
  assert (mFillIdx st = mFillEndIdx st + Z.of_nat (nu + 0)) as Hf0
    by (rewrite Nat.add_0_r; exact Hf).
  assert (Forall above (rows st (mFillEndIdx st) (nu + 0))) as Hab0
    by (rewrite Nat.add_0_r; exact Hab).
  assert (wd = true → (1 ≤ nu + 0)%nat) as Hwd0
    by (rewrite Nat.add_0_r; exact Hwd).
  pose proof (copyMain_spec (mFillEndIdx st) (mUpdateEndIdx st) (count page) page k i
                i wd i st nu 0 Hfe ltac:(lia) ltac:(lia) ltac:(lia) ltac:(lia)
                Hf0 Hu Hab0 Hwd0) as Hspec.
  pose proof (copyMain_frame (count page) page k i wd i i st) as Hfr.
  destruct (copyMain (count page) page k i wd i i st) as [stc|i' wd' ce' stc].
  - pose proof (cover_frame L st stc Hfr Hcov) as Hcovc. destruct Hfr.
    pose proof (flushPending_cover page L stc Hcovc) as [Hcov1 HL1].
    pose proof (flushPending_frame page L stc) as Hp.
    pose proof (flushPending_rows page L stc) as [_ Hr_us].
    destruct (flushPending page L stc) as [L1 st1] eqn:Efp.
    simpl in Hp, Hr_us, Hcov1, HL1.
    destruct Hp as (_ & _ & _ & _ & Hp_fe & _ & Hp_ue & _).
    destruct (flush fuel env st1) as [[env1 st2]|] eqn:Efl; [|done].
    intros [= <- <- <- <-].
    apply (flush_cover L1 _ fuel env st1 env1 st2); try done; simpl; lia.
  - destruct Hspec as (_ & nu' & c' & Hce & Hfi & Hui & Hnu' & Hsum & _).
    destruct Hfr as [Hfr Hii].
    pose proof (cover_frame L st stc Hfr Hcov) as Hcovc. destruct Hfr.
    destruct (mFillIdx stc =? mFillEndIdx stc) eqn:E.
    + destruct (invalidate _ newest k env stc) as [[ok env1] st1] eqn:Ei.
      pose proof (invalidate_spec _ _ _ _ _ _ _ _ Ei) as [_ Hst].
      destruct Hcovc.
      destruct ok; destruct Hst as [_ ->]; intros [= <- <- <- <-]; by split.
    + apply Z.eqb_neq in E. cbv zeta.
      match goal with
      | |- context [if ?c then _ else _] => destruct c eqn:Eext
      end.
      * apply andb_true_iff in Eext as [Eme Eext].
        apply Nat.eqb_eq in Eme. apply Z.eqb_eq in Eext. simpl in Eext.
        destruct Hcovc. intros [= <- <- <- <-]. cover_step.
      * clear Eext.
        match goal with
        | |- context [flushPending page L ?s] =>
            assert (cover L s) as Hcove by (destruct Hcovc; by split);
            pose proof (flushPending_cover page L s Hcove) as [Hcov1 HL1];
            pose proof (flushPending_frame page L s) as Hp;
            pose proof (flushPending_rows page L s) as [_ Hr_us];
            destruct (flushPending page L s) as [L1 st1] eqn:Efp
        end.
        simpl in Hp, Hr_us, Hcov1, HL1.
        destruct Hp as (_ & _ & _ & _ & Hp_fe & Hp_fi & Hp_ue & Hp_ui & _).
        destruct Hcov1.
        destruct (negb (i =? ce')%nat) eqn:Ece.
        -- destruct (negb (mUpdateStartIdx _ =? mUpdateEndIdx _)) eqn:Eus;
             intros [= <- <- <- <-]; simpl in *; cover_step.
        -- apply negb_false_iff, Nat.eqb_eq in Ece.
           intros [= <- <- <- <-]; simpl in *; cover_step.
Qed.

(** One round keeps the clean actions in step with the committed rows. *)
Lemma cleanRound_cover old R fuel page L env st out L' env' st' :
  (idx L < count page)%nat → round_inv old R page L st → cover L st →
  cleanRound fuel page L env st = Some (out, L', env', st') →
  cover L' st'.
Proof.
  intros Hb Hinv Hcov.
  pose proof Hinv as []. pose proof (potential_room page L Hb) as Hroom.
  unfold cleanRound.
  set (k := key (entryAt page (idx L))).
  set (newest := load (shared st) (newestSlot page (idx L))).
  destruct (negb (newest =? 0)).
  2:{ apply (cleanMain_cover fuel page (idx L) newest (idx L) false L env st 0);
        try done; lia. }
  pose proof (flushPending_cover page L st Hcov) as [Hcov1 HL1].
  pose proof (flushPending_frame page L st) as Hp.
  pose proof (flushPending_rows page L st) as [Hr_ent Hr_us].
  destruct (flushPending page L st) as [L1 st1] eqn:Efp.
  simpl in Hp, Hr_ent, Hr_us, Hcov1, HL1.
  destruct Hp as (_ & _ & _ & Hp_pl & Hp_fe & Hp_fi & Hp_ue & Hp_ui & _).
  unfold processUpdates.
  set (updates := updateIter (log (shared st1)) newest (version (entryAt page (idx L)))).
  pose proof (updateIter_bound (log (shared st1)) newest
                (version (entryAt page (idx L)))) as Hlen.
  fold updates in Hlen.
  destruct (processUpdatesLoop updates UINT64_MAX false st1)
    as [[[ok lowest] wd] st2] eqn:Epu.
  pose proof (processUpdatesLoop_frame _ _ _ _ _ _ _ _ Epu) as [Hfr _].
  pose proof (cover_frame L1 st1 st2 Hfr Hcov1) as Hcov2. destruct Hfr.
  pose proof (processUpdatesLoop_spec (mFillEndIdx st) (mUpdateEndIdx st) updates
                UINT64_MAX false st1 ok lowest wd st2 0 ri_fe0 ltac:(lia) ltac:(lia)
                ltac:(lia) ltac:(lia) ltac:(lia) (Forall_nil_2 _) ltac:(done) Epu)
    as (_ & _ & Hok).
  destruct ok.
  - destruct (Hok eq_refl) as (n' & Hn' & Hfi & Hui & _ & Hab & Hwd). clear Hok.
    destruct (lowest <=? mMinVersion) eqn:El.
    + destruct (mUpdateIdx st2 =? mUpdateEndIdx st2) eqn:E.
      * destruct (invalidate _ newest k env st2) as [[okc env1] st3] eqn:Ei.
        pose proof (invalidate_spec _ _ _ _ _ _ _ _ Ei) as [_ Hst].
        destruct Hcov2.
        destruct okc; destruct Hst as [_ ->]; intros [= <- <- <- <-]; by split.
      * destruct Hcov2. intros [= <- <- <- <-]. simpl in *. cover_step.
    + apply Z.leb_gt in El.
      apply (cleanMain_cover fuel page (idx L) newest _ wd L1 env st2 n');
        try done; try lia; try congruence.
      rewrite fr_fillEnd0, Hp_fe. by apply Hab.
  - pose proof (flushPending_cover page L1 st2 Hcov2) as [Hcov3 HL3].
    pose proof (flushPending_frame page L1 st2) as Hp2.
    pose proof (flushPending_rows page L1 st2) as [_ Hr_us2].
    destruct (flushPending page L1 st2) as [L2 st3] eqn:Efp2.
    simpl in Hp2, Hr_us2, Hcov3, HL3.
    destruct Hp2 as (_ & _ & _ & _ & Hp_fe2 & _ & Hp_ue2 & _).
    destruct (flush fuel env st3) as [[env1 st4]|] eqn:Efl; [|done].
    intros [= <- <- <- <-].
    apply (flush_cover L2 _ fuel env st3 env1 st4); try done; lia.
Qed.

Lemma cleanLoop_cover old rounds fuel page : ∀ L env st R env' st',
  round_inv old R page L st → cover L st →
  cleanLoop rounds fuel page L env st = Some (env', st') →
  cover (mkLoop 0 0 0) st'.
Proof.
  induction rounds as [|rounds IH]; intros L env st R env' st' Hinv Hcov; simpl;
    [done|].
  destruct (idx L <? count page)%nat eqn:Elt.
  - apply Nat.ltb_lt in Elt.
    destruct (cleanRound fuel page L env st) as [[[[out L1] env1] st1]|] eqn:Er; [|done].
    apply (IH L1 env1 st1 (record_round out st st1 R)).
    + by eapply cleanRound_inv.
    + by eapply cleanRound_cover.
  - intros [= <- <-].
    destruct (flushPending_cover page L st Hcov) as [[] HL]. split; simpl; try done.
    lia.
Qed.

Lemma flushFillPage_sized fuel env st env' st' :
  cover (mkLoop 0 0 0) st →
  0 ≤ mUpdateStartIdx st ≤ mUpdateEndIdx st → 0 ≤ mFillEndIdx st →
  flushFillPage fuel env st = Some (env', st') →
  Forall sized (mPageList st').
Proof.
  intros [] Hus Hfe. unfold flushFillPage. simpl in cv_span0.
  destruct (adjustAll fuel env _ _) as [[sh1 env1]|]; [|done].
  destruct (negb (mUpdateStartIdx st =? mUpdateEndIdx st)) eqn:E; simpl;
    intros [= <- <-]; simpl;
    (apply Forall_app; split; [done|]); (constructor; [|constructor]);
    unfold sized; simpl; apply Nat2Z.inj;
    (rewrite span_length;
     [|try (apply Forall_app; split; [done|]; constructor; [simpl; lia|constructor]);
       done]);
    unfold slice; rewrite length_fmap, length_seqZ, ?span_app; simpl; lia.
Qed.

(** X6.  Every page the modifier publishes has one size for every row (the
    source's assertion that all sizes were copied): if the clean actions and
    the pending update region stand for the committed rows when [clean]
    starts, they do so again when it ends, whether the page was compacted or
    passed on as it is, every page on the page list has as many sizes as
    rows, and so has every page that [done] returns. *)
Theorem published_pages_have_one_size_per_row old R rounds fuel fuel' page env st
    b env' st' :
  round_inv old R page (mkLoop 0 0 0) st → cover (mkLoop 0 0 0) st → sized page →
  clean rounds fuel page env st = Some (b, env', st') →
  cover (mkLoop 0 0 0) st' ∧
  ∀ env'' pages st'',
    done fuel' env' st' = Some (env'', pages, st'') → Forall sized pages.
Proof.
  intros Hinv Hcov Hpage Hrun.
  assert (cover (mkLoop 0 0 0) st' ∧
          0 ≤ mUpdateStartIdx st' ≤ mUpdateEndIdx st' ∧ 0 ≤ mFillEndIdx st')
    as (Hcov' & Hus' & Hfe').
  { revert Hrun. unfold clean.
    destruct (negb (needsCleaning (shared st) page)).
    - intros [= <- <- <-]. destruct Hinv, Hcov. split_and!; simpl; try done; try lia.
      split; simpl; try done. apply Forall_app. split; [done|]. by constructor.
    - pose proof (cleanLoopRecords_cleanLoop rounds fuel page (mkLoop 0 0 0) env st R)
        as Herase.
      destruct (cleanLoop rounds fuel page (mkLoop 0 0 0) env st) as [[env1 st1]|]
        eqn:Eloop; [|done].
      intros [= <- <- <-].
      destruct (cleanLoopRecords rounds fuel page (mkLoop 0 0 0) env st R)
        as [[[env2 st2] R2]|] eqn:Erun; [|done].
      simpl in Herase. injection Herase as -> ->.
      split; [by eapply cleanLoop_cover|].
      destruct (cleanLoopRecords_inv old _ _ _ _ _ _ _ _ _ _ Hinv Erun)
        as [[]|[L' []]]; done. }
  split; [done|]. intros env'' pages st''. unfold done.
  destruct (negb (mFillEndIdx st' =? 0)).
  - destruct (flushFillPage fuel' env' st') as [[env1 st1]|] eqn:Efl; [|done].
    intros [= <- <- <-]. by eapply flushFillPage_sized.
  - intros [= <- <- <-]. by destruct Hcov'.
Qed.

(** *** A record that does not fit on an empty page *)

(** Whether the loops run out of room depends on the state through
    [mFillSize] alone. *)
(** *** Where the pointer actions aim *)

(** Every pending pointer action aims at a committed row of the fill page,
    and later actions aim at later rows. *)
Definition aimed (st : Modifier) : Prop :=
  ∃ js : list Z,
    desired <$> mPointerActions st = entryPtr (mFillPage st) <$> js ∧
    StronglySorted Z.lt js ∧
    Forall (λ j, 0 ≤ j < mFillEndIdx st) js.

(** What a round does to the fill page: a round that runs out of room
    leaves an empty page and no pointer action; the others keep the page. *)
Definition round_page (st : Modifier) (out : Outcome) (st' : Modifier) : Prop :=
  match out with
  | PageFull => mPointerActions st' = [] ∧ mFillEndIdx st' = 0
  | Invalidated | InvalidateFailed | Enqueued => mFillPage st' = mFillPage st
  end.

Lemma cleanMain_page fuel page baseIdx newest i wasDelete L env st out L' env' st' :
  cleanMain fuel page baseIdx newest i wasDelete L env st = Some (out, L', env', st') →
  round_page st out st'.
Proof.
  unfold cleanMain.
  pose proof (copyMain_frame (count page) page (key (entryAt page baseIdx))
                i wasDelete i i st) as Hfr.
  destruct (copyMain (count page) page (key (entryAt page baseIdx)) i wasDelete i i st)
    as [st1|i1 wd1 ce1 st1].
  { destruct (flushPending page L st1) as [L1 st2].
    destruct (flush fuel env st2) as [[env2 st3]|] eqn:Hfl; [|done].
    intros [= <- <- <- <-]. apply flush_spec in Hfl. simpl. tauto. }
  destruct Hfr as [[] Hle].
  destruct (mFillIdx st1 =? mFillEndIdx st1).
  - destruct (invalidate (newestSlot page baseIdx) newest (key (entryAt page baseIdx))
                env st1) as [[ok env1] st2] eqn:Einv.
    apply invalidate_spec in Einv as [Henv Hok].
    destruct ok; destruct Hok as [Hl ->]; intros [= <- <- <- <-]; simpl; congruence.
  - destruct ((mainEndIdx L =? i)%nat
              && (mUpdateIdx (enqueuePointer (newestSlot page baseIdx) newest
                                (key (entryAt page baseIdx)) st1)
                  =? mUpdateStartIdx (enqueuePointer (newestSlot page baseIdx) newest
                                        (key (entryAt page baseIdx)) st1))).
    { intros [= <- <- <- <-]. simpl. congruence. }
    unfold flushPending.
    destruct (negb (mainStartIdx L =? mainEndIdx L)%nat); simpl;
      destruct (negb (i =? ce1)%nat); simpl;
      try destruct (negb (mUpdateStartIdx st1 =? mUpdateIdx st1)); simpl;
      intros [= <- <- <- <-]; simpl; congruence.
Qed.

Lemma cleanRound_page fuel page L env st out L' env' st' :
  cleanRound fuel page L env st = Some (out, L', env', st') →
  round_page st out st'.
Proof.
  unfold cleanRound.
  set (newest := load (shared st) (newestSlot page (idx L))).
  destruct (negb (newest =? 0)); [|by apply cleanMain_page].
  pose proof (flushPending_frame page L st) as Hfp.
  destruct (flushPending page L st) as [L1 st1]. simpl in Hfp.
  destruct Hfp as (_ & _ & _ & _ & _ & _ & _ & _ & Hfpg1 & _).
  unfold processUpdates.
  destruct (processUpdatesLoop (updateIter (log (shared st1)) newest
              (version (entryAt page (idx L)))) UINT64_MAX false st1)
    as [[[ok lowest] wd] st2] eqn:Epu.
  destruct (processUpdatesLoop_frame _ _ _ _ _ _ _ _ Epu) as [[] _].
  destruct ok.
  2:{ destruct (flushPending page L1 st2) as [L2 st3].
      destruct (flush fuel env st3) as [[env4 st4]|] eqn:Hfl; [|done].
      intros [= <- <- <- <-]. apply flush_spec in Hfl. simpl. tauto. }
  destruct (lowest <=? mMinVersion).
  - destruct (mUpdateIdx st2 =? mUpdateEndIdx st2).
    + destruct (invalidate (newestSlot page (idx L)) newest
                  (key (entryAt page (idx L))) env st2) as [[ok env1] st3] eqn:Einv.
      apply invalidate_spec in Einv as [Henv Hok].
      destruct ok; destruct Hok as [Hl ->]; intros [= <- <- <- <-]; simpl; congruence.
    + intros [= <- <- <- <-]. simpl. congruence.
  - intros Hcm. apply cleanMain_page in Hcm. destruct out; simpl in *; congruence.
Qed.

Lemma cleanRound_aimed old R fuel page L env st out L' env' st' :
  (idx L < count page)%nat → round_inv old R page L st → aimed st →
  cleanRound fuel page L env st = Some (out, L', env', st') →
  aimed st'.
Proof.
  intros Hb Hinv (js & Hjs & Hsort & Hbound) Hrun.
  pose proof (cleanRound_inv old R fuel page L env st out L' env' st' Hb Hinv Hrun)
    as Hinv'.
  pose proof (cleanRound_page _ _ _ _ _ _ _ _ _ Hrun) as Hpage.
  pose proof Hinv as []. pose proof (potential_room page L Hb) as Hroom.
  assert (in_range st) as Hrange by (unfold in_range; lia).
  pose proof (cleanRound_result _ _ _ _ _ _ _ _ _ Hb Hrange ri_fill0 ri_upd0 Hrun)
    as Hres.
  destruct out; simpl in Hpage, Hres.
  - destruct Hpage as [Hpa Hfe]. exists []. rewrite Hpa.
    split_and!; [done|constructor|constructor].
  - destruct Hres as (_ & _ & _ & _ & _ & Hfe & _ & Hpa).
    exists js. rewrite Hpa, Hpage, Hfe. by split_and!.
  - destruct Hres as (_ & _ & _ & _ & _ & Hfe & _ & Hpa).
    exists js. rewrite Hpa, Hpage, Hfe. by split_and!.
  - destruct Hres as (Hne & Hpa & _).
    assert (mFillEndIdx st < mFillEndIdx st') as Hlt.
    { destruct Hinv' as [_ _ Hfe' _ _ _ Hc' _ _ _]. simpl in Hc'.
      unfold pageRows in Hc'. rewrite concat_app in Hc'. simpl in Hc'.
      rewrite app_nil_r in Hc'. fold (pageRows (current R)) in Hc'.
      rewrite <- ri_committed0 in Hc'. apply (f_equal length) in Hc'.
      unfold committed, roundRows in Hc'.
      rewrite length_app, !rows_length in Hc'. lia. }
    exists (js ++ [mFillEndIdx st]). rewrite Hpa, Hpage, !fmap_app, Hjs. simpl.
    split_and!; [done| |].
    + apply StronglySorted_app_2; [|done|repeat constructor].
      intros x y Hx ->%list_elem_of_singleton.
      rewrite Forall_forall in Hbound. specialize (Hbound x Hx). lia.
    + apply Forall_app. split.
      * eapply Forall_impl; [exact Hbound|]. simpl. intros; lia.
      * constructor; [lia|constructor].
Qed.

Lemma cleanLoop_aimed old rounds fuel page : ∀ L env st R env' st',
  round_inv old R page L st → aimed st →
  cleanLoop rounds fuel page L env st = Some (env', st') →
  aimed st'.
Proof.
  induction rounds as [|rounds IH]; intros L env st R env' st' Hinv Haim; simpl;
    [done|].
  destruct (idx L <? count page)%nat eqn:Elt.
  - apply Nat.ltb_lt in Elt.
    destruct (cleanRound fuel page L env st) as [[[[out L1] env1] st1]|] eqn:Er; [|done].
    intros Hrun.
    eapply (IH L1 env1 st1 (record_round out st st1 R)); [| |exact Hrun].
    + by eapply cleanRound_inv.
    + by eapply cleanRound_aimed.
  - intros [= <- <-].
    pose proof (flushPending_frame page L st)
      as (_ & _ & Hpa & _ & Hfe & _ & _ & _ & Hfp & _).
    destruct Haim as (js & Hjs & Hsort & Hbound).
    exists js. rewrite Hpa, Hfp, Hfe. by split_and!.
Qed.

(** X23.  Where the pointer actions aim.  If every pending pointer action
    aims at a committed row of the fill page, later actions at later rows,
    when [clean] starts, this holds again when it ends: an action never
    aims at a row past [mFillEndIdx] (which is the count of the page when
    [flushFillPage] publishes it and carries out the actions), at a page
    that has been published, or at the row of another action.  So when
    [mFillEndIdx] is 0, where [done] frees the fill page without a flush, no
    pointer action is pending. *)
Theorem pointer_actions_aim_at_committed_rows old R rounds fuel page env st b env' st' :
  round_inv old R page (mkLoop 0 0 0) st → aimed st →
  clean rounds fuel page env st = Some (b, env', st') →
  (∃ js : list Z,
     desired <$> mPointerActions st' = entryPtr (mFillPage st') <$> js ∧
     StronglySorted Z.lt js ∧
     Forall (λ j, 0 ≤ j < mFillEndIdx st') js) ∧
  (mFillEndIdx st' = 0 → mPointerActions st' = []).
Proof.
  intros Hinv Haim Hrun.
  assert (aimed st') as Haim'.
  { revert Hrun. unfold clean.
    destruct (negb (needsCleaning (shared st) page)); [by intros [= <- <- <-]|].
    destruct (cleanLoop rounds fuel page (mkLoop 0 0 0) env st) as [[env1 st1]|]
      eqn:Eloop; [|done].
    intros [= <- <- <-]. by eapply cleanLoop_aimed. }
  split; [exact Haim'|].
  destruct Haim' as (js & Hjs & _ & Hbound). intros Hz.
  destruct js as [|j js].
  - by destruct (mPointerActions st').
  - apply Forall_cons in Hbound as [Hj _]. lia.
Qed.

Lemma processUpdatesLoop_size updates : ∀ lowest wd st1 st2,
  mFillSize st1 = mFillSize st2 →
  fst (processUpdatesLoop updates lowest wd st1)
  = fst (processUpdatesLoop updates lowest wd st2) ∧
  mFillSize (snd (processUpdatesLoop updates lowest wd st1))
  = mFillSize (snd (processUpdatesLoop updates lowest wd st2)).
Proof.
  induction updates as [|e rest IH]; intros lowest wd st1 st2 Hs; simpl; [done|].
  destruct (wd && (uversion e <? mMinVersion)); simpl; [by rewrite Hs|].
  destruct (bool_decide (utype e = DELETE) && (uversion e <=? mMinVersion));
    simpl; [done|].
  destruct (bool_decide (utype e = DELETE)); simpl; rewrite Hs;
    (destruct (_ >? MAX_DATA_SIZE ctx); simpl; [done|]);
    (destruct (uversion e <=? mMinVersion); simpl; [done|]);
    by apply IH.
Qed.

Lemma copyMain_size fuel page k cs : ∀ i wd ce st1 st2,
  mFillSize st1 = mFillSize st2 →
  match copyMain fuel page k i wd cs ce st1, copyMain fuel page k i wd cs ce st2 with
  | CopyOverflow _, CopyOverflow _ => True
  | CopyDone _ _ _ _, CopyDone _ _ _ _ => True
  | _, _ => False
  end.
Proof.
  induction fuel as [|fuel IH]; intros i wd ce st1 st2 Hs; simpl; [done|].
  destruct (entries page !! i) as [e|]; [|done].
  destruct (negb (key e =? k)); [done|].
  destruct (wd && (version e <? mMinVersion)); [by destruct (cs =? ce)%nat|].
  destruct ((sizeAt page i =? 0) && (version e <=? mMinVersion)); [done|].
  destruct (sizeAt page i =? 0); simpl; rewrite Hs;
    (destruct (_ >? MAX_DATA_SIZE ctx); [done|]);
    (destruct (version e <=? mMinVersion); [done|]);
    by apply IH.
Qed.

Lemma flushPending_size page L st :
  mFillSize (snd (flushPending page L st)) = mFillSize st.
Proof. unfold flushPending. by destruct (negb _). Qed.

Lemma roundOverflows_ext page L1 L2 st1 st2 :
  idx L1 = idx L2 → shared st1 = shared st2 → mFillSize st1 = mFillSize st2 →
  roundOverflows page L1 st1 = roundOverflows page L2 st2.
Proof.
  intros Hi Hsh Hs. unfold roundOverflows. rewrite Hi, Hsh.
  set (newest := load (shared st2) (newestSlot page (idx L2))).
  set (k := key (entryAt page (idx L2))).
  assert (∀ i wd sa sb, mFillSize sa = mFillSize sb →
            match copyMain (count page) page k i wd i i sa with
            | CopyOverflow _ => true
            | CopyDone _ _ _ _ => false
            end
            = match copyMain (count page) page k i wd i i sb with
              | CopyOverflow _ => true
              | CopyDone _ _ _ _ => false
              end) as Hcopy.
  { intros i wd sa sb Hab.
    pose proof (copyMain_size (count page) page k i i wd i sa sb Hab) as H.
    destruct (copyMain (count page) page k i wd i i sa),
             (copyMain (count page) page k i wd i i sb); done. }
  destruct (negb (newest =? 0)); [|by apply Hcopy].
  pose proof (flushPending_frame page L1 st1) as (Hsh1 & _).
  pose proof (flushPending_frame page L2 st2) as (Hsh2 & _).
  pose proof (flushPending_size page L1 st1) as Hs1.
  pose proof (flushPending_size page L2 st2) as Hs2.
  destruct (flushPending page L1 st1) as [La sa].
  destruct (flushPending page L2 st2) as [Lb sb]. simpl in *.
  unfold processUpdates. rewrite Hsh1, Hsh2, Hsh.
  set (updates := updateIter (log (shared st2)) newest (version (entryAt page (idx L2)))).
  pose proof (processUpdatesLoop_size updates UINT64_MAX false sa sb
                ltac:(congruence)) as [Hfst Hsz].
  destruct (processUpdatesLoop updates UINT64_MAX false sa) as [[[oka la] wa] sa'].
  destruct (processUpdatesLoop updates UINT64_MAX false sb) as [[[okb lb] wb] sb'].
  simpl in Hfst, Hsz. injection Hfst as -> -> ->.
  destruct okb; [|done]. destruct (lb <=? mMinVersion); [done|]. by apply Hcopy.
Qed.

Lemma flush_no_actions fuel env st :
  mPointerActions st = [] →
  ∃ st', flush fuel env st = Some (env, st') ∧ shared st' = shared st.
Proof.
  intros H. unfold flush, flushFillPage.
  destruct (negb (mUpdateStartIdx st =? mUpdateEndIdx st)); simpl; rewrite H; simpl;
    destruct (negb (mUpdateIdx st =? 0)); simpl; eexists; split; done.
Qed.

(** A round that runs out of room, with no pointer action pending: it ends
    PageFull whatever the fuel, without a step of the writers. *)
Lemma cleanRound_overflow fuel page L env st :
  mPointerActions st = [] → roundOverflows page L st = true →
  ∃ L' st',
    cleanRound fuel page L env st = Some (PageFull, L', env, st') ∧
    idx L' = idx L ∧ shared st' = shared st ∧
    mFillSize st' = 0 ∧ mFillEndIdx st' = 0 ∧ mPointerActions st' = [] ∧
    ∃ pg, mPageList st' = mPageList st ++ [pg] ∧
          count pg = Z.to_nat (mFillEndIdx st).
Proof.
  intros Hpa. unfold roundOverflows, cleanRound.
  set (k := key (entryAt page (idx L))).
  set (newest := load (shared st) (newestSlot page (idx L))).
  assert (∀ st1,
            mPointerActions st1 = [] → shared st1 = shared st →
            mPageList st1 = mPageList st → mFillEndIdx st1 = mFillEndIdx st →
            ∃ st',
              flush fuel env st1 = Some (env, st') ∧ shared st' = shared st ∧
              mFillSize st' = 0 ∧ mFillEndIdx st' = 0 ∧ mPointerActions st' = [] ∧
              ∃ pg, mPageList st' = mPageList st ++ [pg] ∧
                    count pg = Z.to_nat (mFillEndIdx st)) as Hflush.
  { intros st1 Hpa1 Hsh1 Hpl1 Hfe1.
    destruct (flush_no_actions fuel env st1 Hpa1) as (st2 & Hfl & Hsh2).
    exists st2.
    pose proof (flush_spec _ _ _ _ _ Hfl)
      as (_ & Hfe2 & Hsz2 & _ & _ & _ & _ & _ & _ & Hpa2 & _ & _ & pg & Hpl2 & _ & He2).
    split_and!; try done; try congruence.
    exists pg. split; [congruence|].
    unfold count. rewrite He2, slice_rows, rows_length. congruence. }
  assert (∀ i wd L0 st0,
            mPointerActions st0 = [] → shared st0 = shared st →
            mPageList st0 = mPageList st → mFillEndIdx st0 = mFillEndIdx st →
            match copyMain (count page) page k i wd i i st0 with
            | CopyOverflow _ => true
            | CopyDone _ _ _ _ => false
            end = true →
            ∃ L' st',
              cleanMain fuel page (idx L) newest i wd L0 env st0
              = Some (PageFull, L', env, st') ∧
              idx L' = idx L ∧ shared st' = shared st ∧
              mFillSize st' = 0 ∧ mFillEndIdx st' = 0 ∧ mPointerActions st' = [] ∧
              ∃ pg, mPageList st' = mPageList st ++ [pg] ∧
                    count pg = Z.to_nat (mFillEndIdx st)) as Hmain.
  { intros i wd L0 st0 Hpa0 Hsh0 Hpl0 Hfe0. unfold cleanMain. fold k.
    pose proof (copyMain_frame (count page) page k i wd i i st0) as Hfr.
    destruct (copyMain (count page) page k i wd i i st0) as [stc|]; [|done].
    intros _. destruct Hfr.
    pose proof (flushPending_frame page L0 stc) as Hp.
    destruct (flushPending page L0 stc) as [L1 st1]. simpl in Hp.
    destruct Hp as (Hp_sh & _ & Hp_pa & Hp_pl & Hp_fe & _).
    destruct (Hflush st1) as (st2 & Hfl & Hrest); try congruence.
    rewrite Hfl. exists (mkLoop (idx L) (mainStartIdx L1) (mainEndIdx L1)), st2.
    destruct Hrest as (? & ? & ? & ? & ?). split_and!; done. }
  destruct (negb (newest =? 0)); [|by apply Hmain].
  pose proof (flushPending_frame page L st) as Hp.
  destruct (flushPending page L st) as [L1 st1]. simpl in Hp.
  destruct Hp as (Hp_sh & _ & Hp_pa & Hp_pl & Hp_fe & Hp_fi & _ & _ & _ & _ & Hp_idx).
  unfold processUpdates.
  destruct (processUpdatesLoop (updateIter (log (shared st1)) newest
              (version (entryAt page (idx L)))) UINT64_MAX false st1)
    as [[[ok lowest] wd] st2] eqn:Epu.
  pose proof (processUpdatesLoop_frame _ _ _ _ _ _ _ _ Epu) as [[] _].
  destruct ok.
  - destruct (lowest <=? mMinVersion); [done|].
    apply Hmain; congruence.
  - intros _.
    pose proof (flushPending_frame page L1 st2) as Hp2.
    destruct (flushPending page L1 st2) as [L2 st3]. simpl in Hp2.
    destruct Hp2 as (Hp_sh2 & _ & Hp_pa2 & Hp_pl2 & Hp_fe2 & _ & _ & _ & _ & _ & Hp_idx2).
    destruct (Hflush st3) as (st4 & Hfl & Hrest); try congruence.
    rewrite Hfl. exists L2, st4. destruct Hrest as (? & ? & ? & ? & ?).
    split_and!; try done; congruence.
Qed.

(** X7.  A record too large for an empty fill page stops the compaction.
    When a round starts on an empty fill page with no pointer action pending
    and runs out of room, it publishes the empty page, takes a fresh one and
    stands at the same record with the same memory, so the next round runs
    out of room again: [flushFillPage] is entered with [mFillEndIdx = 0]
    (its assertion "Trying to flush empty page"), and the loop of [clean]
    does not end, whatever the number of rounds. *)
Theorem record_larger_than_a_page_never_fits fuel page L env st :
  (idx L < count page)%nat →
  mFillSize st = 0 → mFillEndIdx st = 0 → mPointerActions st = [] →
  roundOverflows page L st = true →
  (∃ L' st',
     cleanRound fuel page L env st = Some (PageFull, L', env, st') ∧
     idx L' = idx L ∧ shared st' = shared st ∧
     mFillSize st' = 0 ∧ mFillEndIdx st' = 0 ∧ mPointerActions st' = [] ∧
     roundOverflows page L' st' = true ∧
     ∃ pg, mPageList st' = mPageList st ++ [pg] ∧ count pg = 0%nat) ∧
  ∀ rounds, cleanLoop rounds fuel page L env st = None.
Proof.
  intros Hb Hsz Hfe Hpa Hov. split.
  - destruct (cleanRound_overflow fuel page L env st Hpa Hov)
      as (L' & st' & Hrun & Hi & Hsh & Hsz' & Hfe' & Hpa' & pg & Hpl & Hc).
    exists L', st'. split_and!; try done.
    + rewrite <- Hov. apply roundOverflows_ext; congruence.
    + exists pg. split; [done|]. rewrite Hc, Hfe. done.
  - intros rounds. revert L st Hb Hsz Hfe Hpa Hov.
    induction rounds as [|rounds IH]; intros L st Hb Hsz Hfe Hpa Hov; simpl; [done|].
    apply Nat.ltb_lt in Hb as Hb'. rewrite Hb'.
    destruct (cleanRound_overflow fuel page L env st Hpa Hov)
      as (L' & st' & -> & Hi & Hsh & Hsz' & Hfe' & Hpa' & _).
    apply IH; try done; try congruence.
    rewrite <- Hov. apply roundOverflows_ext; congruence.
Qed.

End Modifier.

(** The constructor: the update page and the fill page come from the page
    manager, whose next free page is at [nextPage]. *)
Definition create (index : gmap Z Z) (nextPage : Z) (sh : Shared) : Modifier :=
  mkModifier ∅ 0 0 0 (nextPage + TELL_PAGE_SIZE) ∅ 0 0 0 [] [] [] index
             (nextPage + 2 * TELL_PAGE_SIZE) sh.

(** Modelled from the spec: an update iterator for the examples (section
    4.7, step 2).  It follows [previous] from the head and yields the entries
    that are not older than the newest main version. *)
Fixpoint walk (fuel : nat) (lg : gmap Z UpdateLogEntry) (p baseVersion : Z)
    : list UpdateLogEntry :=
  match fuel with
  | O => []
  | S fuel' =>
      if p =? 0 then []
      else match lg !! p with
           | None => []
           | Some e =>
               if uversion e <? baseVersion then []
               else e :: walk fuel' lg (previous e) baseVersion
           end
  end.

Definition walkIter (lg : gmap Z UpdateLogEntry) (p baseVersion : Z)
    : list UpdateLogEntry :=
  walk (size lg) lg p baseVersion.

(** *** A page, a log and a modifier for the examples *)

(** Entry overhead 24, fixed size 8, room for 1000 bytes, update header 32. *)
Definition ctx_example : ColumnMapContext := mkContext 24 8 1000 32.

(** Key 1 with the versions 9, 4, 2 and key 2 with version 8 and a tombstone
    at version 3. *)
Definition page_example : ColumnMapMainPage :=
  mkPage 4096 [mkEntry 1 9; mkEntry 1 4; mkEntry 1 2; mkEntry 2 8; mkEntry 2 3]
         [10; 10; 10; 10; 0].

Definition quiet_memory : Shared := mkShared ∅ ∅ 64 [].

Definition modifier_example : Modifier := create ∅ 1000000 quiet_memory.

Definition delete11 : UpdateLogEntry := mkUpdate 1 11 0 DELETE 32.
Definition data3 : UpdateLogEntry := mkUpdate 1 3 0 DATA 50.
Definition delete4 : UpdateLogEntry := mkUpdate 1 4 0 DELETE 32.
Definition data12 : UpdateLogEntry := mkUpdate 1 12 0 DATA 50.

Lemma delete_below_min_ends_chain_and_pair_is_dropped_witness :
  (utype data3 = DELETE → uversion data3 ≤ 5 →
   ∃ wasDelete' st',
     processUpdatesLoop ctx_example 5 [data3; data12] UINT64_MAX false modifier_example
     = (true, Z.min UINT64_MAX (uversion data3), wasDelete', st') ∧
     mFillEntries st' = mFillEntries modifier_example ∧
     mUpdateSizes st' = mUpdateSizes modifier_example ∧
     (false = false → st' = modifier_example)) ∧
  (uversion data3 < 5 →
   processUpdatesLoop ctx_example 5 [data3; data12] UINT64_MAX true modifier_example
   = (true, Z.min UINT64_MAX (uversion data3), false,
      dropDelete ctx_example modifier_example) ∧
   mUpdateIdx (dropDelete ctx_example modifier_example)
   = dec32 (mUpdateIdx modifier_example) ∧
   mFillIdx (dropDelete ctx_example modifier_example)
   = dec32 (mFillIdx modifier_example) ∧
   mFillSize (dropDelete ctx_example modifier_example)
   = wrap32 (mFillSize modifier_example
             - (entryOverhead ctx_example + fixedSize ctx_example))) ∧
  (utype delete11 = DELETE → 5 < uversion delete11 → uversion data3 < 5 →
   wrap32 (mFillSize modifier_example
           + (entryOverhead ctx_example + fixedSize ctx_example))
   ≤ MAX_DATA_SIZE ctx_example →
   ∃ st',
     processUpdatesLoop ctx_example 5 (delete11 :: data3 :: [data12]) UINT64_MAX false
       modifier_example
     = (true, Z.min (Z.min UINT64_MAX (uversion delete11)) (uversion data3), false, st') ∧
     mUpdateIdx st' = mUpdateIdx modifier_example ∧
     mFillIdx st' = mFillIdx modifier_example ∧
     mFillSize st' = mFillSize modifier_example ∧
     mUpdateEndIdx st' = mUpdateEndIdx modifier_example ∧
     mFillEndIdx st' = mFillEndIdx modifier_example).
Proof.
  apply (delete_below_min_ends_chain_and_pair_is_dropped ctx_example 5
           delete11 data3 [data12] UINT64_MAX false modifier_example);
    simpl; lia.
Defined.

(** The chain "data 12, delete 11, data 3" with minVersion 5 leaves the data
    of version 12 alone in the output; the chain "data 12, delete 4" too. *)
Example processUpdates_examples :
  let '(ok, lowest, wasDelete, st) :=
    processUpdatesLoop ctx_example 5 [data12; delete11; data3] UINT64_MAX false
      modifier_example in
  (ok, lowest, wasDelete, mFillIdx st, mUpdateIdx st, mFillSize st,
   fillEntryAt st 0) = (true, 3, false, 1, 1, 42, mkEntry 1 12) ∧
  let '(ok, lowest, wasDelete, st) :=
    processUpdatesLoop ctx_example 5 [data12; delete4; data3] UINT64_MAX false
      modifier_example in
  (ok, lowest, wasDelete, mFillIdx st, mUpdateIdx st, mFillSize st)
  = (true, 4, false, 1, 1, 42).
Proof. vm_compute. split; reflexivity. Qed.


(** The same page without the record of key 1. *)
Definition page_without_first : ColumnMapMainPage :=
  mkPage 4096 [mkEntry 2 8; mkEntry 2 3; mkEntry 2 2] [10; 10; 10].



(** *** Rounds on small pages *)

(** A page whose only record is a tombstone of key 2 at version 3. *)
Definition page_tombstone : ColumnMapMainPage := mkPage 4096 [mkEntry 2 3] [0].

(** A writer updates key 2 (version 12) while the compactor is between its
    load of the head and its CAS. *)
Definition late_update : Env :=
  [[mkArrival (newestSlot page_tombstone 0) 2 12 DATA 50]].


(** Without a writer the tombstone's record is invalidated and its key
    leaves the index; with the late update the CAS fails, and the round that
    follows sees the update and commits it. *)
Example invalidate_rounds :
  let index := {[2 := 77]} : gmap Z Z in
  let st := create index 1000000 quiet_memory in
  match cleanRound ctx_example 5 walkIter 2 page_tombstone (mkLoop 0 0 0) [] st with
  | Some (out, L', _, st') =>
      out = Invalidated ∧ idx L' = 1%nat ∧
      load (shared st') (newestSlot page_tombstone 0) = INVALID ∧
      mMainTableModifier st' = ∅
  | None => False
  end ∧
  match cleanRound ctx_example 5 walkIter 2 page_tombstone (mkLoop 0 0 0) late_update st with
  | Some (out, L', env', st') =>
      out = InvalidateFailed ∧ idx L' = 0%nat ∧
      load (shared st') (newestSlot page_tombstone 0) = 64 ∧
      mMainTableModifier st' = index ∧
      match cleanRound ctx_example 5 walkIter 2 page_tombstone L' env' st' with
      | Some (out2, L2, _, st2) =>
          out2 = Enqueued ∧ idx L2 = 1%nat ∧ mFillEndIdx st2 = 1 ∧
          fillEntryAt st2 0 = mkEntry 2 12 ∧
          mPointerActions st2
          = [mkPointerAction (newestSlot page_tombstone 0) 64
               (entryPtr (mFillPage st2) 0)]
      | None => False
      end
  | None => False
  end.
Proof. vm_compute. repeat split. Qed.

(** Room for 80 bytes only: the two kept versions of key 1 of
    [page_example] fit, the record of key 2 does not fit behind them. *)
Definition ctx_small : ColumnMapContext := mkContext 24 8 80 32.

Definition after_first_round : Loop * Modifier :=
  match cleanRound ctx_small 5 walkIter 2 page_example (mkLoop 0 0 0) []
          modifier_example with
  | Some (_, L, _, st) => (L, st)
  | None => (mkLoop 0 0 0, modifier_example)
  end.


(** The round of key 2 runs out of room: the page with the two rows of key 1
    is published, and the round after it writes key 2 into the fresh
    page. *)
Example overflow_rounds :
  let '(L, st) := after_first_round in
  idx L = 3%nat ∧ mFillEndIdx st = 2 ∧ mFillSize st = 68 ∧
  roundOverflows ctx_small 5 walkIter page_example L st = true ∧
  match cleanRound ctx_small 5 walkIter 2 page_example L [] st with
  | Some (out, L', env', st') =>
      out = PageFull ∧ idx L' = 3%nat ∧
      mPageList st' = [mkPage (mFillPage st) [mkEntry 1 9; mkEntry 1 4] [10; 10]] ∧
      mFillPage st' = mNextPage st ∧ mFillSize st' = 0 ∧
      match cleanRound ctx_small 5 walkIter 2 page_example L' env' st' with
      | Some (out2, L2, _, st2) =>
          out2 = Enqueued ∧ idx L2 = 5%nat ∧ mFillEndIdx st2 = 1 ∧
          fillEntryAt st2 0 = mkEntry 2 8 ∧ mFillSize st2 = 34
      | None => False
      end
  | None => False
  end.
Proof. vm_compute. repeat split. Qed.

(** *** The records of a page *)

Lemma walk_length fuel : ∀ lg p baseVersion,
  (length (walk fuel lg p baseVersion) ≤ fuel)%nat.
Proof.
  induction fuel as [|fuel IH]; intros lg p b; simpl; [lia|].
  destruct (p =? 0); [simpl; lia|].
  destruct (lg !! p) as [e|]; [|simpl; lia].
  destruct (uversion e <? b); simpl; [lia|].
  specialize (IH lg (previous e) b). lia.
Qed.

(** The record of key 1 of [page_example] has two pending updates: the data
    of version 12 and, before it, the data of version 11. *)
Definition chained_memory : Shared :=
  mkShared {[newestSlot page_example 0 := 300]}
           {[300 := mkUpdate 1 12 200 DATA 50; 200 := mkUpdate 1 11 0 DATA 40]}
           400 [].

Lemma round_inv_example sh :
  round_inv 5 16 [] (mkRecords [] []) page_example (mkLoop 0 0 0)
    (create ∅ 1000000 sh).
Proof. split; simpl; try done; try lia; unfold potential, count; simpl; lia. Qed.

Lemma processUpdates_rows_and_counters_witness :
  let st := create ∅ 1000000 chained_memory in
  ∃ ok lowest wasDelete st',
    processUpdates ctx_example 5 (walk 16) 300 9 false st
    = (ok, lowest, wasDelete, st') ∧
    untouched st st' (mFillIdx st) ∧
    mFillEndIdx st' = mFillEndIdx st ∧ mUpdateEndIdx st' = mUpdateEndIdx st ∧
    (ok = true →
     ∃ n : nat,
       (n ≤ length (walk 16 (log (shared st)) 300 9))%nat ∧
       mFillIdx st' = mFillIdx st + Z.of_nat n ∧
       mUpdateIdx st' = mUpdateIdx st + Z.of_nat n ∧
       floor_ok 5 (rows st' (mFillIdx st) n) ∧
       (5 < lowest → Forall (above 5) (rows st' (mFillIdx st) n)) ∧
       (wasDelete = true → (1 ≤ n)%nat)).
Proof.
  intros st.
  destruct (processUpdates ctx_example 5 (walk 16) 300 9 false st)
    as [[[ok lowest] wasDelete] st'] eqn:E.
  exists ok, lowest, wasDelete, st'. split; [reflexivity|].
  apply (processUpdates_rows_and_counters ctx_example 5 (walk 16) 300 9 st
           ok lowest wasDelete st').
  - simpl. lia.
  - simpl. lia.
  - pose proof (walk_length 16 (log (shared st)) 300 9). simpl mFillIdx. lia.
  - pose proof (walk_length 16 (log (shared st)) 300 9). simpl mUpdateIdx. lia.
  - exact E.
Defined.

(** The two updates become the first two rows; both counters are at 2. *)
Example processUpdates_chain :
  let st := create ∅ 1000000 chained_memory in
  let '(ok, lowest, wasDelete, st') :=
    processUpdates ctx_example 5 (walk 16) 300 9 false st in
  (ok, lowest, wasDelete, mFillIdx st', mUpdateIdx st', rows st' 0 2)
  = (true, 11, false, 2, 2, [mkEntry 1 12; mkEntry 1 11]).
Proof. vm_compute. reflexivity. Qed.

Lemma copy_loop_count_matches_witness :
  match copyMain ctx_example 5 (count page_example) page_example 1 0 false 0 0
          modifier_example with
  | CopyOverflow st' =>
      untouched modifier_example st' 0 ∧
      mUpdateIdx st' = mUpdateIdx modifier_example ∧
      MAX_DATA_SIZE ctx_example < mFillSize st'
  | CopyDone i' wasDelete' copyEndIdx st' =>
      untouched modifier_example st' 0 ∧ (0 ≤ i')%nat ∧ (0 ≤ copyEndIdx)%nat ∧
      mFillIdx st' - 0
      = (Z.of_nat copyEndIdx - Z.of_nat 0) + (mUpdateIdx st' - 0) ∧
      0 ≤ mUpdateIdx st' ≤ 0 + Z.of_nat 0 ∧
      0 ≤ mFillIdx st' ∧
      floor_ok 5 (rows st' 0 (Z.to_nat (mFillIdx st' - 0)))
  end.
Proof.
  apply (copy_loop_count_matches ctx_example 5 0 0 page_example 1 0 false
           modifier_example 0); simpl; try lia; try done.
Defined.

(** The copy loop keeps the versions 9 and 4 of key 1 (with minVersion 5)
    and stops in front of version 2. *)
Example copy_loop_example :
  match copyMain ctx_example 5 (count page_example) page_example 1 0 false 0 0
          modifier_example with
  | CopyDone i' _ copyEndIdx st' =>
      (i', copyEndIdx, mFillIdx st', rows st' 0 2)
      = (1%nat, 2%nat, 2, [mkEntry 1 9; mkEntry 1 4])
  | CopyOverflow _ => False
  end.
Proof. vm_compute. reflexivity. Qed.

Lemma round_commits_one_record_witness :
  let st := create ∅ 1000000 chained_memory in
  ∃ out L' env' st',
    cleanRound ctx_example 5 (walk 16) 2 page_example (mkLoop 0 0 0) [] st
    = Some (out, L', env', st') ∧
    mFillIdx st' = mFillEndIdx st' ∧ mUpdateIdx st' = mUpdateEndIdx st' ∧
    match out with
    | PageFull =>
        entries <$> mPageList st' = (entries <$> mPageList st) ++ [committed st] ∧
        committed st' = []
    | Enqueued =>
        entries <$> mPageList st' = entries <$> mPageList st ∧
        committed st' = committed st ++ roundRows st st' ∧
        roundRows st st' ≠ [] ∧ floor_ok 5 (roundRows st st')
    | Invalidated | InvalidateFailed =>
        entries <$> mPageList st' = entries <$> mPageList st ∧
        committed st' = committed st
    end.
Proof.
  intros st.
  destruct (cleanRound ctx_example 5 (walk 16) 2 page_example (mkLoop 0 0 0) [] st)
    as [[[[out L'] env'] st']|] eqn:E; [|vm_compute in E; discriminate E].
  exists out, L', env', st'. split; [reflexivity|].
  apply (round_commits_one_record ctx_example 5 (walk 16) 16 (walk_length 16)
           [] (mkRecords [] []) 2 page_example (mkLoop 0 0 0) [] st out L' env' st').
  - unfold count. simpl. lia.
  - apply round_inv_example.
  - exact E.
Defined.

(** The round of key 1 commits the two updates, then the versions 9 and 4
    of the main: one record of four rows whose last row is the only one at
    or below minVersion 5. *)
Example round_example :
  let st := create ∅ 1000000 chained_memory in
  match cleanRound ctx_example 5 (walk 16) 2 page_example (mkLoop 0 0 0) [] st with
  | Some (out, L', _, st') =>
      out = Enqueued ∧ idx L' = 3%nat ∧
      roundRows st st' = [mkEntry 1 12; mkEntry 1 11; mkEntry 1 9; mkEntry 1 4]
  | None => False
  end.
Proof. vm_compute. repeat split. Qed.

Lemma clean_publishes_whole_records_witness :
  let st := create ∅ 1000000 chained_memory in
  ∃ env' st',
    clean ctx_example 5 (walk 16) 8 2 page_example [] st = Some (true, env', st') ∧
    ∃ R',
      cleanLoopRecords ctx_example 5 (walk 16) 8 2 page_example (mkLoop 0 0 0) [] st
        (mkRecords [] []) = Some (env', st', R') ∧
      entries <$> mPageList st' = [] ++ (pageRows <$> published R') ∧
      committed st' = pageRows (current R') ∧
      Forall (Forall (floor_ok 5)) (published R') ∧ Forall (floor_ok 5) (current R') ∧
      mFillIdx st' = mFillEndIdx st' ∧ mUpdateIdx st' = mUpdateEndIdx st'.
Proof.
  intros st.
  destruct (clean ctx_example 5 (walk 16) 8 2 page_example [] st)
    as [[[b env'] st']|] eqn:E; [|vm_compute in E; discriminate E].
  assert (b = true) as ->.
  { pose proof E as E'. vm_compute in E'. by injection E' as <- _ _. }
  exists env', st'. split; [reflexivity|].
  apply (clean_publishes_whole_records ctx_example 5 (walk 16) 16 (walk_length 16)
           [] (mkRecords [] []) 8 2 page_example [] st env' st').
  - apply round_inv_example.
  - exact E.
Defined.

(** With room for 150 bytes the record of key 2 does not fit behind the
    four rows of key 1: the page with the record of key 1 is published and
    the record of key 2, without its tombstone, is on the fill page. *)
Example clean_records_example :
  let st := create ∅ 1000000 chained_memory in
  match cleanLoopRecords (mkContext 24 8 150 32) 5 (walk 16) 8 2 page_example
          (mkLoop 0 0 0) [] st (mkRecords [] []) with
  | Some (_, st', R') =>
      R' = mkRecords [[[mkEntry 1 12; mkEntry 1 11; mkEntry 1 9; mkEntry 1 4]]]
                     [[mkEntry 2 8]] ∧
      entries <$> mPageList st'
      = [[mkEntry 1 12; mkEntry 1 11; mkEntry 1 9; mkEntry 1 4]] ∧
      committed st' = [mkEntry 2 8]
  | None => False
  end.
Proof. vm_compute. repeat split. Qed.

Lemma needsCleaning_true_has_reason_witness :
  (∃ j, (j < count page_without_first)%nat ∧
        load quiet_memory (newestSlot page_without_first j) ≠ 0) ∨
  (∃ j, (0 < j < count page_without_first)%nat ∧
        key (entryAt page_without_first j) = key (entryAt page_without_first (j - 1)) ∧
        version (entryAt page_without_first j) < 5).
Proof.
  apply (needsCleaning_true_has_reason 5 quiet_memory page_without_first).
  reflexivity.
Defined.

Lemma cover_example sh : cover (mkLoop 0 0 0) (create ∅ 1000000 sh).
Proof. split; simpl; try done; lia. Qed.

Lemma published_pages_have_one_size_per_row_witness :
  let st := create ∅ 1000000 chained_memory in
  ∃ b env' st',
    clean (mkContext 24 8 150 32) 5 (walk 16) 8 2 page_example [] st
    = Some (b, env', st') ∧
    cover (mkLoop 0 0 0) st' ∧
    ∀ env'' pages st'',
      done 2 env' st' = Some (env'', pages, st'') → Forall sized pages.
Proof.
  intros st.
  destruct (clean (mkContext 24 8 150 32) 5 (walk 16) 8 2 page_example [] st)
    as [[[b env'] st']|] eqn:E; [|vm_compute in E; discriminate E].
  exists b, env', st'. split; [reflexivity|].
  apply (published_pages_have_one_size_per_row (mkContext 24 8 150 32) 5 (walk 16) 16
           (walk_length 16) [] (mkRecords [] []) 8 2 2 page_example [] st b env' st').
  - apply round_inv_example.
  - apply cover_example.
  - reflexivity.
  - exact E.
Defined.

Lemma aimed_example sh : aimed (create ∅ 1000000 sh).
Proof. exists []. split_and!; [done|constructor|constructor]. Qed.

Lemma pointer_actions_aim_at_committed_rows_witness :
  let st := create ∅ 1000000 chained_memory in
  ∃ b env' st',
    clean (mkContext 24 8 150 32) 5 (walk 16) 8 2 page_example [] st
    = Some (b, env', st') ∧
    (∃ js : list Z,
       desired <$> mPointerActions st' = entryPtr (mFillPage st') <$> js ∧
       StronglySorted Z.lt js ∧
       Forall (λ j, 0 ≤ j < mFillEndIdx st') js) ∧
    (mFillEndIdx st' = 0 → mPointerActions st' = []).
Proof.
  intros st.
  destruct (clean (mkContext 24 8 150 32) 5 (walk 16) 8 2 page_example [] st)
    as [[[b env'] st']|] eqn:E; [|vm_compute in E; discriminate E].
  exists b, env', st'. split; [reflexivity|].
  apply (pointer_actions_aim_at_committed_rows (mkContext 24 8 150 32) 5 (walk 16) 16
           (walk_length 16) [] (mkRecords [] []) 8 2 page_example [] st b env' st').
  - apply round_inv_example.
  - apply aimed_example.
  - exact E.
Defined.

(** After [clean_records_example] one pointer action is pending: the source
    record of key 2 is to be redirected to row 0 of the fill page, where the
    hash index points as well; the action of key 1 went with its page. *)
Example pointer_action_example :
  let st := create ∅ 1000000 chained_memory in
  match clean (mkContext 24 8 150 32) 5 (walk 16) 8 2 page_example [] st with
  | Some (_, _, st') =>
      mPointerActions st'
      = [mkPointerAction (newestSlot page_example 3) 0 (entryPtr (mFillPage st') 0)] ∧
      mFillEndIdx st' = 1 ∧
      mMainTableModifier st' !! 2 = Some (entryPtr (mFillPage st') 0)
  | None => False
  end.
Proof. vm_compute. repeat split. Qed.

(** The two pages of [clean_records_example], as [done] returns them, with
    their sizes: the sizes of the two updates from the update page, then the
    sizes of the rows copied from the source page. *)
Example done_example :
  let st := create ∅ 1000000 chained_memory in
  match clean (mkContext 24 8 150 32) 5 (walk 16) 8 2 page_example [] st with
  | Some (_, env', st') =>
      match done 2 env' st' with
      | Some (_, pages, _) =>
          (λ pg, (entries pg, sizes pg)) <$> pages
          = [([mkEntry 1 12; mkEntry 1 11; mkEntry 1 9; mkEntry 1 4], [18; 8; 10; 10]);
             ([mkEntry 2 8], [10])]
      | None => False
      end
  | None => False
  end.
Proof. vm_compute. reflexivity. Qed.

(** Room for 30 bytes: no row of [page_example] (34 bytes with its header)
    fits. *)
Definition ctx_tiny : ColumnMapContext := mkContext 24 8 30 32.

Lemma record_larger_than_a_page_never_fits_witness :
  (∃ L' st',
     cleanRound ctx_tiny 5 walkIter 2 page_example (mkLoop 0 0 0) [] modifier_example
     = Some (PageFull, L', [], st') ∧
     idx L' = idx (mkLoop 0 0 0) ∧ shared st' = shared modifier_example ∧
     mFillSize st' = 0 ∧ mFillEndIdx st' = 0 ∧ mPointerActions st' = [] ∧
     roundOverflows ctx_tiny 5 walkIter page_example L' st' = true ∧
     ∃ pg, mPageList st' = mPageList modifier_example ++ [pg] ∧ count pg = 0%nat) ∧
  ∀ rounds,
    cleanLoop ctx_tiny 5 walkIter rounds 2 page_example (mkLoop 0 0 0) []
      modifier_example = None.
Proof.
  apply (record_larger_than_a_page_never_fits ctx_tiny 5 walkIter 2 page_example
           (mkLoop 0 0 0) [] modifier_example); try reflexivity.
  unfold count. simpl. lia.
Defined.

(** Three rounds on the record that does not fit: three empty pages on the
    page list, the loop still at row 0. *)
Example oversize_rounds :
  match cleanRound ctx_tiny 5 walkIter 2 page_example (mkLoop 0 0 0) []
          modifier_example with
  | Some (out1, L1, _, st1) =>
      match cleanRound ctx_tiny 5 walkIter 2 page_example L1 [] st1 with
      | Some (out2, L2, _, st2) =>
          match cleanRound ctx_tiny 5 walkIter 2 page_example L2 [] st2 with
          | Some (out3, L3, _, st3) =>
              (out1, out2, out3, idx L3, count <$> mPageList st3)
              = (PageFull, PageFull, PageFull, 0%nat, [0%nat; 0%nat; 0%nat])
          | None => False
          end
      | None => False
      end
  | None => False
  end.
Proof. vm_compute. reflexivity. Qed.

End ColumnMap.

(** ** deltamain/Record.hpp *)

Module DMRecord.

(** [enum class RecordType : uint8_t]: a value of the type is a byte; the
    four enumerators are the first four. *)
Abbreviation RecordType := Z.
Definition LOG_INSERT : RecordType := 0.
Definition LOG_UPDATE : RecordType := 1.
Definition LOG_DELETE : RecordType := 2.
Definition MULTI_VERSION_RECORD : RecordType := 3.

(** The record a [DMRecordImplBase] points to: the bytes from [mData]
    on. *)
Abbreviation Data := (list Z).

(** [DMRecordImplBase::type]: [from_underlying<Type>( *mData )] *)
Definition type (mData : Data) : RecordType := default 0 (mData !! 0%nat).

(** [DMRecordImplBase::key]: the 8 bytes at [mData + 8] *)
Definition key (mData : Data) : Z := Server.le_bytes (Server.mkReader mData 0) 8 8.

(** [DMRecordImpl<char*>::setType]: [mData[0] = to_underlying(type)] *)
Definition setType (t : RecordType) (mData : Data) : Data := <[0%nat := t]> mData.

Lemma le_bytes_ext b b' p p' n : ∀ i,
  (∀ j, (i ≤ j)%nat → b !! j = b' !! j) →
  Server.le_bytes (Server.mkReader b p) i n = Server.le_bytes (Server.mkReader b' p') i n.
Proof.
  induction n as [|n IH]; intros i H; [done|].
  cbn [Server.le_bytes]. unfold Server.byte_at. cbn [Server.bytes].
  rewrite (H i) by lia. rewrite (IH (S i)); [done|]. intros j Hj. apply H. lia.
Qed.

(** X18.  The type of a record can be rewritten in place: on a record of at
    least one byte, [setType] changes the first byte and nothing else, so
    [type] reads the new type back, the key is the one that was there, and
    the record keeps its length. *)
Theorem setType_changes_the_type_only (t : RecordType) (mData : Data) :
  (0 < length mData)%nat →
  type (setType t mData) = t ∧
  key (setType t mData) = key mData ∧
  length (setType t mData) = length mData ∧
  ∀ i, (0 < i)%nat → setType t mData !! i = mData !! i.
Proof.
  intros Hlen. unfold type, key, setType. split_and!.
  - by rewrite list_lookup_insert_eq.
  - apply le_bytes_ext. intros j Hj. rewrite list_lookup_insert_ne; [done|lia].
  - apply length_insert.
  - intros i Hi. rewrite list_lookup_insert_ne; [done|lia].
Qed.

(** An update log entry of key 258: type, reverted flag, padding, key. *)
Definition update_entry : Data :=
  [1; 0; 0; 0; 0; 0; 0; 0;  2; 1; 0; 0; 0; 0; 0; 0].

Lemma setType_changes_the_type_only_witness :
  type (setType LOG_DELETE update_entry) = LOG_DELETE ∧
  key (setType LOG_DELETE update_entry) = key update_entry ∧
  length (setType LOG_DELETE update_entry) = length update_entry ∧
  ∀ i, (0 < i)%nat → setType LOG_DELETE update_entry !! i = update_entry !! i.
Proof.
  apply (setType_changes_the_type_only LOG_DELETE update_entry). simpl. lia.
Defined.

Example update_entry_fields :
  type update_entry = LOG_UPDATE ∧ key update_entry = 258.
Proof. split; reflexivity. Qed.

End DMRecord.

(** ** client/Client.cpp *)

Module Client.

(** The key range [addTable] hands to its transaction number [i]:
[[
    for (auto i = 0; i < 10; ++i) ...
        trans->execute(std::bind(&Client::executeTransaction, this, _1,
                i * 10000 + 1, (i + 1) * 10000 + 1));
]] *)
Definition startKey (i : Z) : Z := i * 10000 + 1.
Definition endKey (i : Z) : Z := (i + 1) * 10000 + 1.

(** What [executeTransaction] asks of its transaction. *)
Inductive Call := Insert (key : Z) | Get (key : Z).

(** How [executeTransaction] ends: at the end of its loop, or at one of its
    five [return]s (the error it logs there). *)
Inductive Ending :=
| Completed
| ErrorInserting        (* "Error inserting tuple" *)
| InsertDidNotSucceed   (* "Insert did not succeed" *)
| ErrorGetting          (* "Error getting tuple" *)
| TupleNotFound         (* "Tuple not found" *)
| TupleNotNewest.       (* "Tuple not the newest" *)

Section Transaction.

(** [transaction.insert] and [transaction.get] are the store's: each takes
    the table and the key (the tuple and the snapshot are the same in every
    call) and gives the error code (true for an error), its results and the
    world after the call. *)
Context {World : Type}.
Variable insert : Z → Z → World → bool * bool * World.
Variable get : Z → Z → World → bool * bool * bool * World.
Variable mTableId : Z.

(** The loop [for (auto key = startKey; key < endKey; ++key)] on [uint64_t]
    keys.  The checks of the tuple that was read only log. *)
Fixpoint executeLoop (fuel : nat) (key endKey : Z) (calls : list Call) (w : World)
    : option (Ending * list Call * World) :=
  match fuel with
  | O => None
  | S fuel =>
      if key <? endKey then
        let '(ec, succeeded, w) := insert mTableId key w in
        let calls := calls ++ [Insert key] in
        if ec then Some (ErrorInserting, calls, w)
        else if negb succeeded then Some (InsertDidNotSucceed, calls, w)
        else
          let '(ec, succeeded, isNewest, w) := get mTableId key w in
          let calls := calls ++ [Get key] in
          if ec then Some (ErrorGetting, calls, w)
          else if negb succeeded then Some (TupleNotFound, calls, w)
          else if negb isNewest then Some (TupleNotNewest, calls, w)
          else executeLoop fuel (wrap64 (key + 1)) endKey calls w
      else Some (Completed, calls, w)
  end.

Definition executeTransaction (startKey endKey : Z) (w : World)
    : option (Ending * list Call * World) :=
  executeLoop (Z.to_nat (endKey - startKey) + 1) startKey endKey [] w.

(** The calls of a transaction that has gone through the keys from [from]
    on, [m] of them, and how it stands at the key after them. *)
Definition walked (from : Z) (m : nat) : list Call :=
  seqZ from (Z.of_nat m) ≫= (λ k, [Insert k; Get k]).

Definition stands (ending : Ending) (key endKey : Z) : list Call * Prop :=
  match ending with
  | Completed => ([], endKey ≤ key)
  | ErrorInserting | InsertDidNotSucceed => ([Insert key], key < endKey)
  | ErrorGetting | TupleNotFound | TupleNotNewest =>
      ([Insert key; Get key], key < endKey)
  end.

Lemma walked_S from m :
  walked from (S m) = walked from m ++ [Insert (from + Z.of_nat m); Get (from + Z.of_nat m)].
Proof.
  unfold walked. rewrite seqZ_S.
  by rewrite bind_app; simpl.
Qed.

Local Ltac stop e w m :=
  eexists e, _, w, m; split_and!; [reflexivity|lia|lia|reflexivity|simpl; lia].

Lemma executeLoop_walks endKey from : ∀ fuel (m : nat) w,
  0 ≤ from → endKey < 2 ^ 64 →
  (Z.to_nat (endKey - (from + Z.of_nat m)) < fuel)%nat →
  ∃ ending calls w' (m' : nat),
    executeLoop fuel (from + Z.of_nat m) endKey (walked from m) w
      = Some (ending, calls, w') ∧
    (m ≤ m')%nat ∧ from + Z.of_nat m' ≤ Z.max (from + Z.of_nat m) endKey ∧
    calls = walked from m' ++ (stands ending (from + Z.of_nat m') endKey).1 ∧
    (stands ending (from + Z.of_nat m') endKey).2.
Proof.
  induction fuel as [|fuel IH]; intros m w H0 Hend Hfuel; [lia|].
  simpl. destruct (from + Z.of_nat m <? endKey) eqn:Elt.
  - apply Z.ltb_lt in Elt.
    destruct (insert mTableId (from + Z.of_nat m) w) as [[ec succeeded] w1].
    destruct ec; [by stop ErrorInserting w1 m|].
    destruct succeeded; simpl; [|by stop InsertDidNotSucceed w1 m].
    destruct (get mTableId (from + Z.of_nat m) w1) as [[[ec succeeded] isNewest] w2].
    rewrite <- app_assoc. simpl.
    destruct ec; [by stop ErrorGetting w2 m|].
    destruct succeeded; simpl; [|by stop TupleNotFound w2 m].
    destruct isNewest; simpl; [|by stop TupleNotNewest w2 m].
    rewrite wrap64_small by lia. rewrite <- walked_S.
    replace (from + Z.of_nat m + 1) with (from + Z.of_nat (S m)) by lia.
    destruct (IH (S m) w2 H0 Hend ltac:(lia)) as (e & c & w' & m' & Hrun & Hm & Hmax & Hc).
    exists e, c, w', m'. split_and!; try done; try tauto; lia.
  - apply Z.ltb_ge in Elt. eexists Completed, _, w, m. simpl.
    rewrite app_nil_r. split_and!; try done; lia.
Qed.

Lemma elem_of_pair c k :
  c ∈ [Insert k; Get k] ↔ c = Insert k ∨ c = Get k.
Proof. rewrite elem_of_cons, list_elem_of_singleton. tauto. Qed.

Lemma elem_of_walked c from m :
  c ∈ walked from m ↔
  ∃ k, from ≤ k < from + Z.of_nat m ∧ (c = Insert k ∨ c = Get k).
Proof.
  unfold walked. rewrite list_elem_of_bind. split.
  - intros (k & Hc & Hk). apply elem_of_seqZ in Hk. exists k. split; [lia|].
    by apply elem_of_pair.
  - intros (k & Hk & Hc). exists k. split; [by apply elem_of_pair|].
    apply elem_of_seqZ. lia.
Qed.

Lemma NoDup_walked from m : NoDup (walked from m).
Proof.
  induction m as [|m IH]; [constructor|].
  rewrite walked_S. apply NoDup_app. split_and!; [done| |].
  - intros c Hc Hin. apply elem_of_walked in Hc as (k & Hk & Hc).
    apply elem_of_pair in Hin. destruct Hc as [->| ->], Hin as [?|?]; simplify_eq; lia.
  - apply NoDup_cons. split; [|apply NoDup_singleton].
    rewrite list_elem_of_singleton. discriminate.
Qed.


(** X22.  The ten transactions that [addTable] starts never share a key.
    Transaction [i] ends, and every key it inserts or gets lies between 1
    and 100000 and has [(key - 1) / 10000 = i], so that the key tells the
    transaction; it asks for no key twice; and when it completes it has
    inserted and read every key of its range. *)
Theorem addTable_transactions_share_no_key (i : Z) (w : World) :
  0 ≤ i < 10 →
  ∃ ending calls w',
    executeTransaction (startKey i) (endKey i) w = Some (ending, calls, w') ∧
    (∀ k, Insert k ∈ calls ∨ Get k ∈ calls →
          1 ≤ k ≤ 100000 ∧ (k - 1) `div` 10000 = i) ∧
    NoDup calls ∧
    (ending = Completed →
     ∀ k, 1 ≤ k → (k - 1) `div` 10000 = i → Insert k ∈ calls ∧ Get k ∈ calls).
Proof.
  intros Hi. unfold executeTransaction.
  destruct (executeLoop_walks (endKey i) (startKey i)
              (Z.to_nat (endKey i - startKey i) + 1) 0 w
              ltac:(unfold startKey; lia) ltac:(unfold endKey; lia) ltac:(lia))
    as (e & c & w' & m & Hrun & _ & Hmax & Hc & Hst).
  rewrite Z.add_0_r in Hrun, Hmax. exists e, c, w'. split; [exact Hrun|].
  unfold startKey, endKey in *.
  set (from := i * 10000 + 1) in *. set (key := from + Z.of_nat m) in *.
  assert (∀ k, from ≤ k < (i + 1) * 10000 + 1 ↔
               1 ≤ k ∧ (k - 1) `div` 10000 = i) as Hdiv.
  { intros k. unfold from. split.
    - intros Hk. split; [lia|]. symmetry.
      apply (Z.div_unique _ _ _ (k - 1 - i * 10000)); lia.
    - intros [Hk <-]. pose proof (Z.div_mod (k - 1) 10000 ltac:(lia)).
      pose proof (Z.mod_pos_bound (k - 1) 10000 ltac:(lia)). lia. }
  set (tl := (stands e key ((i + 1) * 10000 + 1)).1) in *.
  assert (∀ x, x ∈ tl → (x = Insert key ∨ x = Get key) ∧ key < (i + 1) * 10000 + 1)
    as Htl.
  { intros x Hx. unfold tl in Hx.
    destruct e; simpl in Hx, Hst; split; try done;
      try (by apply elem_of_nil in Hx);
      try (apply list_elem_of_singleton in Hx; by left);
      by apply elem_of_pair in Hx. }
  assert (NoDup tl) as Hndtl.
  { unfold tl. destruct e; simpl; try apply NoDup_nil_2; try apply NoDup_singleton;
      (apply NoDup_cons; split; [|apply NoDup_singleton]);
      rewrite list_elem_of_singleton; discriminate. }
  assert (∀ k, Insert k ∈ c ∨ Get k ∈ c → from ≤ k < (i + 1) * 10000 + 1) as Hin.
  { intros k Hk. rewrite Hc, !elem_of_app in Hk.
    destruct Hk as [[Hk|Hk]|[Hk|Hk]].
    - apply elem_of_walked in Hk as (k' & Hk' & [?|?]); simplify_eq. lia.
    - destruct (Htl _ Hk) as [[?|?] ?]; simplify_eq. unfold key in *. lia.
    - apply elem_of_walked in Hk as (k' & Hk' & [?|?]); simplify_eq. lia.
    - destruct (Htl _ Hk) as [[?|?] ?]; simplify_eq. unfold key in *. lia. }
  split_and!.
  - intros k Hk. specialize (Hin k Hk). destruct (Hdiv k) as [Hd _].
    specialize (Hd Hin). split; [unfold from in Hin; lia|tauto].
  - rewrite Hc. apply NoDup_app. split_and!; [apply NoDup_walked| |done].
    intros x Hx Hx'. apply elem_of_walked in Hx as (k' & Hk' & Hx).
    destruct (Htl _ Hx') as [Hx'' _]. unfold key in Hx''.
    destruct Hx as [->| ->], Hx'' as [?|?]; simplify_eq; lia.
  - intros -> k Hk1 Hk. simpl in Hst. destruct (Hdiv k) as [_ Hd].
    specialize (Hd (conj Hk1 Hk)). rewrite Hc.
    split; apply elem_of_app; left; apply elem_of_walked; exists k;
      (split; [unfold key in Hst; lia|tauto]).
Qed.

End Transaction.

(** A store for the examples: the keys it holds.  An insert succeeds for a
    key that is not there; a get finds the keys that are, as the newest. *)
Definition store_insert (tableId key : Z) (w : list Z) : bool * bool * list Z :=
  if bool_decide (key ∈ w) then (false, false, w) else (false, true, key :: w).

Definition store_get (tableId key : Z) (w : list Z) : bool * bool * bool * list Z :=
  (false, bool_decide (key ∈ w), true, w).


(** On an empty store the keys 5, 6 and 7 are inserted and read; with key 6
    in the store the transaction stops at its insert; an empty range asks
    for nothing. *)
Example executeTransaction_examples :
  executeTransaction store_insert store_get 1 5 8 []
  = Some (Completed, [Insert 5; Get 5; Insert 6; Get 6; Insert 7; Get 7], [7; 6; 5]) ∧
  executeTransaction store_insert store_get 1 5 8 [6]
  = Some (InsertDidNotSucceed, [Insert 5; Get 5; Insert 6], [5; 6]) ∧
  executeTransaction store_insert store_get 1 8 5 [] = Some (Completed, [], []).
Proof. vm_compute. done. Qed.

Lemma addTable_transactions_share_no_key_witness :
  ∃ ending calls w',
    executeTransaction store_insert store_get 1 (startKey 3) (endKey 3) [30007]
    = Some (ending, calls, w') ∧
    (∀ k, Insert k ∈ calls ∨ Get k ∈ calls →
          1 ≤ k ≤ 100000 ∧ (k - 1) `div` 10000 = 3) ∧
    NoDup calls ∧
    (ending = Completed →
     ∀ k, 1 ≤ k → (k - 1) `div` 10000 = 3 → Insert k ∈ calls ∧ Get k ∈ calls).
Proof.
  apply (addTable_transactions_share_no_key store_insert store_get 1 3 [30007]).
  lia.
Defined.

End Client.
